(** * A discrete-event model of [bus_sim.py]

    The simulation is a set of SimPy processes (buses, passenger generators
    and the queue monitor) driven by one event queue.  Virtual time is a
    float in the source; here it is an exact rational ([Q]), and what is
    stated of times and minutes is what rounding keeps: their order,
    their sign, and the single additions that the code makes.  A generator
    function becomes a frame (its local variables and the line at which it
    is suspended) and the scheduler becomes a step function on one global
    state.  Random draws are read from oracles. *)

From Stdlib Require Import List String Ascii Bool Arith ZArith QArith Lia Lqa.
From Stdlib Require Import DecimalString Permutation.
From Stdlib Require Import Sorted DecimalNat Qround.
From Stdlib Require Floats.
Import ListNotations.

Set Implicit Arguments.

(** ** Rational comparisons as the source writes them *)

Definition Qlt_bool (x y : Q) : bool := negb (Qle_bool y x).

Lemma Qlt_bool_iff (x y : Q) : Qlt_bool x y = true <-> (x < y)%Q.
Proof.
  unfold Qlt_bool. rewrite negb_true_iff. split; intro H.
  - apply Qnot_le_lt. intro L. apply Qle_bool_iff in L. congruence.
  - destruct (Qle_bool y x) eqn:E; [|reflexivity].
    apply Qle_bool_iff in E. exfalso. exact (Qlt_not_le _ _ H E).
Qed.

Lemma Qlt_bool_false (x y : Q) : Qlt_bool x y = false <-> (y <= x)%Q.
Proof.
  unfold Qlt_bool. rewrite negb_false_iff. apply Qle_bool_iff.
Qed.

(** Python's [max(a, b)] keeps [a] unless [b > a]; [min(a, b)] keeps [a]
    unless [b < a]. *)
Definition py_max (a b : Q) : Q := if Qlt_bool a b then b else a.
Definition py_min (a b : Q) : Q := if Qlt_bool b a then b else a.

(** ** Insertion-ordered dictionaries with string keys *)

Module Dict.
Section Dict.
Variable V : Type.

Definition t := list (string * V).

Fixpoint get (k : string) (d : t) : option V :=
  match d with
  | [] => None
  | (k', v) :: d' => if String.eqb k k' then Some v else get k d'
  end.

(** [d[k] = v]: an existing key keeps its position. *)
Fixpoint set (k : string) (v : V) (d : t) : t :=
  match d with
  | [] => [(k, v)]
  | (k', v') :: d' =>
      if String.eqb k k' then (k', v) :: d' else (k', v') :: set k v d'
  end.

Definition keys (d : t) : list string := map fst d.
Definition values (d : t) : list V := map snd d.

Lemma get_set_same k v d : get k (set k v d) = Some v.
Proof.
  induction d as [|[k' v'] d IH]; simpl.
  - now rewrite String.eqb_refl.
  - destruct (String.eqb k k') eqn:E; simpl; now rewrite E.
Qed.

Lemma get_set_other k k' v d : k <> k' -> get k' (set k v d) = get k' d.
Proof.
  intro N. induction d as [|[k0 v0] d IH]; simpl.
  - destruct (String.eqb k' k) eqn:E; [|reflexivity].
    apply String.eqb_eq in E. congruence.
  - destruct (String.eqb k k0) eqn:E; simpl.
    + apply String.eqb_eq in E. subst k0.
      destruct (String.eqb k' k) eqn:E'; [|reflexivity].
      apply String.eqb_eq in E'. congruence.
    + now rewrite IH.
Qed.

Lemma get_set k k' v d :
  get k' (set k v d) = if String.eqb k' k then Some v else get k' d.
Proof.
  destruct (String.eqb k' k) eqn:E.
  - apply String.eqb_eq in E. subst. apply get_set_same.
  - apply get_set_other. intro. subst. now rewrite String.eqb_refl in E.
Qed.

Lemma set_set k v v' d : set k v (set k v' d) = set k v d.
Proof.
  induction d as [|[k0 v0] d IH]; simpl.
  - now rewrite String.eqb_refl.
  - destruct (String.eqb k k0) eqn:E; simpl; rewrite E; [reflexivity|].
    now rewrite IH.
Qed.

Lemma keys_set_present k v d x :
  get k d = Some x -> keys (set k v d) = keys d.
Proof.
  unfold keys. induction d as [|[k0 v0] d IH]; simpl; [discriminate|].
  destruct (String.eqb k k0) eqn:E; simpl; [reflexivity|].
  intro H. f_equal. auto.
Qed.

Lemma get_In k v d : get k d = Some v -> In (k, v) d.
Proof.
  induction d as [|[k0 v0] d IH]; simpl; [discriminate|].
  destruct (String.eqb k k0) eqn:E.
  - apply String.eqb_eq in E. intro H. injection H as ->. subst. now left.
  - intro H. right. auto.
Qed.

Lemma In_get k v d : NoDup (keys d) -> In (k, v) d -> get k d = Some v.
Proof.
  induction d as [|[k0 v0] d IH]; simpl; [tauto|].
  intros ND [H|H].
  - injection H as -> ->. now rewrite String.eqb_refl.
  - inversion ND as [|? ? NI ND']; subst.
    destruct (String.eqb k k0) eqn:E.
    + apply String.eqb_eq in E. subst. exfalso. apply NI.
      change k0 with (fst (k0, v)). now apply in_map.
    + auto.
Qed.

Lemma get_keys k d : In k (keys d) <-> exists v, get k d = Some v.
Proof.
  induction d as [|[k0 v0] d IH]; simpl.
  - split; [tauto|]. intros [v H]. discriminate.
  - destruct (String.eqb k k0) eqn:E.
    + apply String.eqb_eq in E. subst. split; eauto.
    + rewrite <- IH. split; [|tauto]. intros [H|H]; [|exact H].
      subst. now rewrite String.eqb_refl in E.
Qed.

Lemma keys_set_absent k v d :
  get k d = None -> keys (set k v d) = keys d ++ [k].
Proof.
  unfold keys. induction d as [|[k0 v0] d IH]; simpl; [reflexivity|].
  destruct (String.eqb k k0) eqn:E; simpl; [discriminate|].
  intro H. f_equal. auto.
Qed.

Lemma NoDup_keys_set k v d : NoDup (keys d) -> NoDup (keys (set k v d)).
Proof.
  intro ND. destruct (get k d) eqn:E.
  - erewrite keys_set_present; eauto.
  - rewrite keys_set_absent by exact E.
    apply NoDup_app; [exact ND|repeat constructor; simpl; tauto|].
    intros x Hx [<-|[]]. apply get_keys in Hx. destruct Hx. congruence.
Qed.
End Dict.
End Dict.

Arguments Dict.get {V} k d.
Arguments Dict.set {V} k v d.
Arguments Dict.keys {V} d.
Arguments Dict.values {V} d.

(** ** Configuration (the module-level constants of the source) *)

Record Route := {
  stops : list string;
  headway : Q;
  num_buses : Z;
  travel_mean : Q;
  travel_sd : Q
}.

Record Config := {
  SIM_TIME : Q;
  BUS_CAPACITY : Z;
  BOARDING_TIME : Q;
  ALIGHTING_TIME : Q;
  MIN_DWELL : Q;
  ROUTES : Dict.t Route;
  ARRIVAL_RATES : Dict.t Q
}.

(** The values written in the source (minutes): [SIM_TIME = 8 * 60],
    [BOARDING_TIME = 3 / 60], [ALIGHTING_TIME = 2 / 60], [MIN_DWELL = 0.1]. *)
Definition source_config : Config := {|
  SIM_TIME := 480;
  BUS_CAPACITY := 40;
  BOARDING_TIME := 3 # 60;
  ALIGHTING_TIME := 2 # 60;
  MIN_DWELL := 1 # 10;
  ROUTES :=
    [("A"%string, {| stops := ["A1"; "A2"; "A3"]%string; headway := 15;
                     num_buses := 2; travel_mean := 6; travel_sd := 1 |});
     ("B"%string, {| stops := ["B1"; "B2"; "B3"]%string; headway := 12;
                     num_buses := 2; travel_mean := 5; travel_sd := 1 |})];
  ARRIVAL_RATES :=
    [("A1"%string, 35 # 100); ("A2"%string, 25 # 100); ("A3"%string, 20 # 100);
     ("B1"%string, 40 # 100); ("B2"%string, 30 # 100); ("B3"%string, 22 # 100)]
|}.

(** ** Entities *)

(** [class Passenger] *)
Record Passenger := {
  pass_id : string;
  arrival_time : Q;
  origin : string;
  destination : string;
  board_time : option Q;
  alight_time : option Q
}.

Definition set_board_time (t : Q) (p : Passenger) : Passenger :=
  {| pass_id := pass_id p; arrival_time := arrival_time p; origin := origin p;
     destination := destination p; board_time := Some t;
     alight_time := alight_time p |}.

Definition set_alight_time (t : Q) (p : Passenger) : Passenger :=
  {| pass_id := pass_id p; arrival_time := arrival_time p; origin := origin p;
     destination := destination p; board_time := board_time p;
     alight_time := Some t |}.

(** [simpy.Store] with unbounded capacity: the stored items and the get
    requests that are still waiting, by requesting process.  A put never
    waits, so no queue of pending puts is kept. *)
Record Store := {
  items : list Passenger;
  get_queue : list nat
}.

(** [class Stop] *)
Record Stop := {
  name : string;
  queue : Store
}.

(** [class Bus]: the attributes assigned in [__init__]. *)
Record Bus := {
  bus_id : string;
  route_name : string;
  bus_stops : list string;      (* references into [stops_map], by key *)
  route_info : Route;
  capacity : Z;
  onboard : list Passenger;
  current_index : nat;
  active_minutes : Q;
  occupied_minutes : Q;
  trips_completed : nat
}.

(** The lines at which [Bus.run] is suspended or about to continue. *)
Inductive BusPc :=
| L86   (* about to yield the start offset *)
| L88   (* head of [while True]: alighting *)
| L99   (* free_space, boarded = 0 *)
| L101  (* test of the boarding loop *)
| L102  (* suspended in [p = yield stop.get_passenger()] *)
| L121  (* minimum dwell test *)
| L125  (* travel time draw *)
| L127  (* test of the travel loop *)
| L134  (* [t -= step] after the travel timeout *)
| L137. (* move to next stop *)

(** The local variables of [Bus.run]. *)
Record BusFrame := {
  start_time : Q;
  stop : string;                (* reference to the current Stop, by key *)
  alighting : list Passenger;
  free_space : Z;
  boarded : nat;
  travel_t : Q;                 (* [t] *)
  travel_step : Q;              (* [step] *)
  bus_pc : BusPc
}.

Inductive GenPc :=
| G146  (* pid = 0 *)
| G148  (* draw the inter-arrival time and yield it *)
| G150. (* create the passenger and put it *)

(** The arguments and local variables of [passenger_generator]. *)
Record GenFrame := {
  gen_stop : string;            (* reference to the Stop, by key *)
  rate : Q;
  route_stops : list string;
  pid : nat;
  gen_pc : GenPc
}.

Inductive Proc :=
| PBus (self : Bus) (f : BusFrame)
| PGen (g : GenFrame)
| PMon                           (* [monitor(env, stops_map)] *)
| PDead.                         (* a generator that raised *)

(** ** Metrics *)

Record PassengerRecord := {
  rec_id : string;
  rec_origin : string;
  rec_destination : string;
  rec_arrival : Q;
  rec_board : option Q;
  rec_alight : option Q;
  rec_route : string;
  rec_bus : string
}.

Record BusStat := {
  stat_active_minutes : Q;
  stat_occupied_minutes : Q;
  stat_trips_completed : nat
}.

Record Metrics := {
  waiting_times : list Q;
  passenger_records : list PassengerRecord;
  queue_time_series : Dict.t (list (Q * nat));
  bus_stats : Dict.t BusStat;
  served_per_stop : Dict.t nat
}.

Definition empty_metrics : Metrics := {|
  waiting_times := []; passenger_records := []; queue_time_series := [];
  bus_stats := []; served_per_stop := []
|}.

(** ** The SimPy environment *)

Inductive Error :=
| ValueError          (* negative delay, negative scale, [index] of a missing item *)
| ZeroDivisionError
| IndexError
| KeyError
| TypeError.          (* a value of the wrong kind was sent to a generator *)

Inductive Result (A : Type) :=
| Ok (a : A)
| Err (e : Error).
Arguments Ok {A} a.
Arguments Err {A} e.

(** What processing an event does: its callbacks. *)
Inductive Callback :=
| Resume (proc : nat) (value : option Passenger)  (* [Process._resume] *)
| TriggerGet (stop_key : string)  (* a processed put looks at the waiting gets *)
| Raise (e : Error)               (* a failed process with nobody waiting *)
| StopSimulation.                 (* the [until] event of [env.run] *)

Definition URGENT : nat := 0.
Definition NORMAL : nat := 1.

(** An entry of the event heap: [(time, priority, eid, event)]. *)
Record Entry := {
  at_time : Q;
  priority : nat;
  eid : nat;
  callback : Callback
}.

(** Order of the heap: by time, then priority, then event id. *)
Definition entry_le (a b : Entry) : bool :=
  Qlt_bool (at_time a) (at_time b)
  || (Qle_bool (at_time a) (at_time b)
      && ((priority a <? priority b)
          || ((priority a =? priority b) && (eid a <=? eid b)))).

(** [heappop]: the least entry and the remaining ones. *)
Fixpoint heappop (h : list Entry) : option (Entry * list Entry) :=
  match h with
  | [] => None
  | e :: h' =>
      match heappop h' with
      | None => Some (e, [])
      | Some (m, r) => if entry_le e m then Some (e, h') else Some (m, e :: r)
      end
  end.

(** Observable actions, kept as a history (newest first).  No transition
    reads the history. *)
Inductive Obs :=
| ObsPut (stop_key : string) (p : Passenger)
| ObsTake (stop_key : string) (proc : nat) (p : Passenger)
| ObsVisit (proc : nat) (stop_key : string)
| ObsAlight (proc : nat) (p : Passenger)
| ObsBoardStart (proc : nat) (t : Q)
| ObsBoard (proc : nat) (p : Passenger)
| ObsDwell (proc : nat)
| ObsTravel (proc : nat) (travel_time : Q).

Record State := {
  now : Q;                          (* [env.now] *)
  next_eid : nat;                   (* [env._eid] *)
  heap : list Entry;                (* [env._queue] *)
  active_process : option nat;      (* [env.active_process] *)
  sent : option Passenger;          (* value sent to the resumed generator *)
  stops_map : Dict.t Stop;
  procs : list Proc;
  metrics : Metrics;
  rnd : nat;                        (* draws taken from [random] *)
  np_rnd : nat;                     (* draws taken from [np.random] *)
  trace : list Obs
}.

Definition set_now v s := {|
  now := v; next_eid := next_eid s; heap := heap s;
  active_process := active_process s; sent := sent s;
  stops_map := stops_map s; procs := procs s; metrics := metrics s;
  rnd := rnd s; np_rnd := np_rnd s; trace := trace s |}.
Definition set_next_eid v s := {|
  now := now s; next_eid := v; heap := heap s;
  active_process := active_process s; sent := sent s;
  stops_map := stops_map s; procs := procs s; metrics := metrics s;
  rnd := rnd s; np_rnd := np_rnd s; trace := trace s |}.
Definition set_heap v s := {|
  now := now s; next_eid := next_eid s; heap := v;
  active_process := active_process s; sent := sent s;
  stops_map := stops_map s; procs := procs s; metrics := metrics s;
  rnd := rnd s; np_rnd := np_rnd s; trace := trace s |}.
Definition set_active v s := {|
  now := now s; next_eid := next_eid s; heap := heap s;
  active_process := v; sent := sent s;
  stops_map := stops_map s; procs := procs s; metrics := metrics s;
  rnd := rnd s; np_rnd := np_rnd s; trace := trace s |}.
Definition set_sent v s := {|
  now := now s; next_eid := next_eid s; heap := heap s;
  active_process := active_process s; sent := v;
  stops_map := stops_map s; procs := procs s; metrics := metrics s;
  rnd := rnd s; np_rnd := np_rnd s; trace := trace s |}.
Definition set_stops_map v s := {|
  now := now s; next_eid := next_eid s; heap := heap s;
  active_process := active_process s; sent := sent s;
  stops_map := v; procs := procs s; metrics := metrics s;
  rnd := rnd s; np_rnd := np_rnd s; trace := trace s |}.
Definition set_procs v s := {|
  now := now s; next_eid := next_eid s; heap := heap s;
  active_process := active_process s; sent := sent s;
  stops_map := stops_map s; procs := v; metrics := metrics s;
  rnd := rnd s; np_rnd := np_rnd s; trace := trace s |}.
Definition set_metrics v s := {|
  now := now s; next_eid := next_eid s; heap := heap s;
  active_process := active_process s; sent := sent s;
  stops_map := stops_map s; procs := procs s; metrics := v;
  rnd := rnd s; np_rnd := np_rnd s; trace := trace s |}.
Definition set_rnd v s := {|
  now := now s; next_eid := next_eid s; heap := heap s;
  active_process := active_process s; sent := sent s;
  stops_map := stops_map s; procs := procs s; metrics := metrics s;
  rnd := v; np_rnd := np_rnd s; trace := trace s |}.
Definition set_np_rnd v s := {|
  now := now s; next_eid := next_eid s; heap := heap s;
  active_process := active_process s; sent := sent s;
  stops_map := stops_map s; procs := procs s; metrics := metrics s;
  rnd := rnd s; np_rnd := v; trace := trace s |}.
Definition set_trace v s := {|
  now := now s; next_eid := next_eid s; heap := heap s;
  active_process := active_process s; sent := sent s;
  stops_map := stops_map s; procs := procs s; metrics := metrics s;
  rnd := rnd s; np_rnd := np_rnd s; trace := v |}.

Definition emit (o : Obs) (s : State) : State := set_trace (o :: trace s) s.

Definition empty_state : State := {|
  now := 0; next_eid := 0; heap := []; active_process := None; sent := None;
  stops_map := []; procs := []; metrics := empty_metrics;
  rnd := 0; np_rnd := 0; trace := [] |}.

(** [env.schedule(event, priority, delay)] *)
Definition schedule (prio : nat) (delay : Q) (c : Callback) (s : State) : State :=
  set_next_eid (S (next_eid s))
    (set_heap ({| at_time := now s + delay; priority := prio;
                  eid := next_eid s; callback := c |} :: heap s) s).

(** [yield env.timeout(delay)] by process [me]: a negative delay raises,
    otherwise the event is scheduled and the process gives up control. *)
Definition yield_timeout (me : nat) (delay : Q) (s : State) : Result State :=
  if Qlt_bool delay 0 then Err ValueError
  else Ok (set_active None (schedule NORMAL delay (Resume me None) s)).

(** [env.process(generator)]: the new process is started by an urgent
    event at the current time. *)
Definition process (p : Proc) (s : State) : State :=
  schedule URGENT 0 (Resume (List.length (procs s)) None)
    (set_procs (procs s ++ [p]) s).

(** Replace entry [i] of a list. *)
Fixpoint list_set {A} (i : nat) (x : A) (l : list A) : list A :=
  match l, i with
  | [], _ => []
  | _ :: l', O => x :: l'
  | y :: l', S i' => y :: list_set i' x l'
  end.

Definition set_proc (i : nat) (p : Proc) (s : State) : State :=
  set_procs (list_set i p (procs s)) s.

(** A step of a process either goes on or raises; the state reached when
    the exception is raised keeps what the step had already done. *)
Inductive StepResult :=
| Go (s : State)
| Raised (e : Error) (s : State).

Definition yield_timeout' (me : nat) (delay : Q) (s : State) : StepResult :=
  match yield_timeout me delay s with
  | Ok s' => Go s'
  | Err e => Raised e s
  end.

(** ** The stop queue ([simpy.Store]) *)

Definition set_queue (q : Store) (st : Stop) : Stop :=
  {| name := name st; queue := q |}.

Definition update_stop (k : string) (st : Stop) (s : State) : State :=
  set_stops_map (Dict.set k st (stops_map s)) s.

(** [Store._trigger_get]: the oldest waiting get is served when an item is
    there ([_do_get] pops the head and succeeds the event, which schedules
    it at the current time); the loop stops after the first request. *)
Definition trigger_get (k : string) (s : State) : State :=
  match Dict.get k (stops_map s) with
  | None => s
  | Some st =>
      match get_queue (queue st), items (queue st) with
      | g :: waiting, p :: rest =>
          emit (ObsTake k g p)
            (schedule NORMAL 0 (Resume g (Some p))
               (update_stop k
                  (set_queue {| items := rest; get_queue := waiting |} st) s))
      | _, _ => s
      end
  end.

(** [yield stop.get_passenger()] by process [me]: the request joins the
    waiting gets, the store tries to serve the oldest one, and the process
    waits for its event. *)
Definition get_passenger (me : nat) (k : string) (s : State) : StepResult :=
  match Dict.get k (stops_map s) with
  | None => Raised KeyError s
  | Some st =>
      Go (set_active None
            (trigger_get k
               (update_stop k
                  (set_queue {| items := items (queue st);
                                get_queue := get_queue (queue st) ++ [me] |}
                     st) s)))
  end.

(** [stop.add_passenger(p)]: the item is appended at once (the store is
    unbounded) and the put event is scheduled; processing it runs
    [_trigger_get]. *)
Definition add_passenger (k : string) (p : Passenger) (s : State) : StepResult :=
  match Dict.get k (stops_map s) with
  | None => Raised KeyError s
  | Some st =>
      Go (emit (ObsPut k p)
            (schedule NORMAL 0 (TriggerGet k)
               (update_stop k
                  (set_queue {| items := items (queue st) ++ [p];
                                get_queue := get_queue (queue st) |} st) s)))
  end.

(** ** [Bus] *)

Definition set_onboard v (b : Bus) : Bus := {|
  bus_id := bus_id b; route_name := route_name b; bus_stops := bus_stops b;
  route_info := route_info b; capacity := capacity b; onboard := v;
  current_index := current_index b; active_minutes := active_minutes b;
  occupied_minutes := occupied_minutes b;
  trips_completed := trips_completed b |}.

Definition set_minutes act occ (b : Bus) : Bus := {|
  bus_id := bus_id b; route_name := route_name b; bus_stops := bus_stops b;
  route_info := route_info b; capacity := capacity b; onboard := onboard b;
  current_index := current_index b; active_minutes := act;
  occupied_minutes := occ; trips_completed := trips_completed b |}.

Definition set_index idx trips (b : Bus) : Bus := {|
  bus_id := bus_id b; route_name := route_name b; bus_stops := bus_stops b;
  route_info := route_info b; capacity := capacity b; onboard := onboard b;
  current_index := idx; active_minutes := active_minutes b;
  occupied_minutes := occupied_minutes b; trips_completed := trips |}.

Definition set_pc pc (f : BusFrame) : BusFrame := {|
  start_time := start_time f; stop := stop f; alighting := alighting f;
  free_space := free_space f; boarded := boarded f; travel_t := travel_t f;
  travel_step := travel_step f; bus_pc := pc |}.

Definition set_visit k al (f : BusFrame) : BusFrame := {|
  start_time := start_time f; stop := k; alighting := al;
  free_space := free_space f; boarded := boarded f; travel_t := travel_t f;
  travel_step := travel_step f; bus_pc := L99 |}.

Definition set_boarding fs n pc (f : BusFrame) : BusFrame := {|
  start_time := start_time f; stop := stop f; alighting := alighting f;
  free_space := fs; boarded := n; travel_t := travel_t f;
  travel_step := travel_step f; bus_pc := pc |}.

Definition set_travel t st pc (f : BusFrame) : BusFrame := {|
  start_time := start_time f; stop := stop f; alighting := alighting f;
  free_space := free_space f; boarded := boarded f; travel_t := t;
  travel_step := st; bus_pc := pc |}.

(** [list.remove(p)]: drops the first occurrence of the object; passenger
    objects are told apart by their id.  [None] is the [ValueError] of a
    missing item. *)
Fixpoint list_remove (p : Passenger) (l : list Passenger)
  : option (list Passenger) :=
  match l with
  | [] => None
  | q :: l' =>
      if String.eqb (pass_id q) (pass_id p) then Some l'
      else match list_remove p l' with
           | Some r => Some (q :: r)
           | None => None
           end
  end.

(** Lines 92-94: [for p in alighting: p.alight_time = now;
    self.onboard.remove(p)].  Returns the alighted passengers (the same
    objects, now stamped) and what is left on board. *)
Fixpoint alight_loop (t : Q) (al onb : list Passenger)
  : option (list Passenger * list Passenger) :=
  match al with
  | [] => Some ([], onb)
  | p :: rest =>
      match list_remove p onb with
      | None => None
      | Some onb' =>
          match alight_loop t rest onb' with
          | Some (done, remaining) => Some (set_alight_time t p :: done, remaining)
          | None => None
          end
      end
  end.

Definition emit_all (os : list Obs) (s : State) : State :=
  fold_left (fun s o => emit o s) os s.

Definition Qnat (n : nat) : Q := inject_Z (Z.of_nat n).

Definition set_bus_stats v (m : Metrics) : Metrics := {|
  waiting_times := waiting_times m; passenger_records := passenger_records m;
  queue_time_series := queue_time_series m; bus_stats := v;
  served_per_stop := served_per_stop m |}.

Definition set_queue_time_series v (m : Metrics) : Metrics := {|
  waiting_times := waiting_times m; passenger_records := passenger_records m;
  queue_time_series := v; bus_stats := bus_stats m;
  served_per_stop := served_per_stop m |}.

(** Lines 104-114: what one boarding appends to the metrics. *)
Definition record_boarding (b : Bus) (stop_name : string) (p : Passenger)
    (wait : Q) (m : Metrics) : Metrics := {|
  waiting_times := waiting_times m ++ [wait];
  passenger_records := passenger_records m ++
    [{| rec_id := pass_id p; rec_origin := origin p;
        rec_destination := destination p; rec_arrival := arrival_time p;
        rec_board := board_time p; rec_alight := alight_time p;
        rec_route := route_name b; rec_bus := bus_id b |}];
  queue_time_series := queue_time_series m;
  bus_stats := bus_stats m;
  served_per_stop :=
    Dict.set stop_name
      (S (match Dict.get stop_name (served_per_stop m) with
          | Some n => n
          | None => 0
          end)) (served_per_stop m) |}.

Section Simulation.

(** The constants of the run. *)
Variable cfg : Config.

(** Oracles for the random draws, indexed by the number of draws taken
    from the generator so far: [random.gauss(mu, sigma)], the index that
    [random.choice] picks in a sequence of a given length, and
    [np.random.exponential(scale)]. *)
Variable random_gauss : nat -> Q -> Q -> Q.
Variable random_below : nat -> nat -> nat.
Variable np_exponential : nat -> Q -> Q.

(** *** [Bus.run] *)

(** Line 86. *)
Definition bus_L86 (me : nat) (b : Bus) (f : BusFrame) (s : State) : StepResult :=
  yield_timeout' me (start_time f) (set_proc me (PBus b (set_pc L88 f)) s).

(** Lines 88-96: alighting. *)
Definition bus_L88 (me : nat) (b : Bus) (f : BusFrame) (s : State) : StepResult :=
  match nth_error (bus_stops b) (current_index b) with
  | None => Raised IndexError s
  | Some k =>
      match Dict.get k (stops_map s) with
      | None => Raised KeyError s
      | Some st =>
          let alighting0 :=
            filter (fun p => String.eqb (destination p) (name st)) (onboard b) in
          match alight_loop (now s) alighting0 (onboard b) with
          | None => Raised ValueError s
          | Some (al, onb) =>
              let s1 :=
                emit_all (map (ObsAlight me) al)
                  (emit (ObsVisit me k)
                     (set_proc me (PBus (set_onboard onb b) (set_visit k al f)) s)) in
              match al with
              | [] => Go s1
              | _ :: _ =>
                  yield_timeout' me (Qnat (List.length al) * ALIGHTING_TIME cfg) s1
              end
          end
      end
  end.

(** Lines 99-100. *)
Definition bus_L99 (me : nat) (b : Bus) (f : BusFrame) (s : State) : StepResult :=
  Go (emit (ObsBoardStart me (now s))
        (set_proc me
           (PBus b (set_boarding
                      (capacity b - Z.of_nat (List.length (onboard b))) 0 L101 f))
           s)).

(** Lines 101-102: the loop test and, when it holds, the get request. *)
Definition bus_L101 (me : nat) (b : Bus) (f : BusFrame) (s : State) : StepResult :=
  match Dict.get (stop f) (stops_map s) with
  | None => Raised KeyError s
  | Some st =>
      if (0 <? free_space f)%Z && (0 <? List.length (items (queue st)))
      then get_passenger me (stop f) (set_proc me (PBus b (set_pc L102 f)) s)
      else Go (set_proc me (PBus b (set_pc L121 f)) s)
  end.

(** Lines 102-118: the passenger received from the get boards. *)
Definition bus_L102 (me : nat) (b : Bus) (f : BusFrame) (s : State) : StepResult :=
  match sent s, Dict.get (stop f) (stops_map s) with
  | None, _ => Raised TypeError s
  | _, None => Raised KeyError s
  | Some p0, Some st =>
      let p := set_board_time (now s) p0 in
      let b' := set_onboard (onboard b ++ [p]) b in
      let f' := set_boarding (free_space f - 1) (boarded f + 1) L101 f in
      yield_timeout' me (BOARDING_TIME cfg)
        (emit (ObsBoard me p)
           (set_metrics
              (record_boarding b (name st) p (now s - arrival_time p) (metrics s))
              (set_proc me (PBus b' f') s)))
  end.

(** Lines 121-122: minimum dwell. *)
Definition bus_L121 (me : nat) (b : Bus) (f : BusFrame) (s : State) : StepResult :=
  let s1 := set_proc me (PBus b (set_pc L125 f)) s in
  if (boarded f =? 0) && (List.length (alighting f) =? 0)
  then yield_timeout' me (MIN_DWELL cfg) (emit (ObsDwell me) s1)
  else Go s1.

(** Lines 125-126: the travel time of the leg. *)
Definition travel_time (draw : Q) : Q := py_max (1 # 2) draw.

Definition bus_L125 (me : nat) (b : Bus) (f : BusFrame) (s : State) : StepResult :=
  let draw :=
    random_gauss (rnd s) (travel_mean (route_info b)) (travel_sd (route_info b)) in
  let t := travel_time draw in
  Go (emit (ObsTravel me t)
        (set_rnd (S (rnd s))
           (set_proc me (PBus b (set_travel t (travel_step f) L127 f)) s))).

(** Lines 127-133: one increment of the travel loop. *)
Definition bus_L127 (me : nat) (b : Bus) (f : BusFrame) (s : State) : StepResult :=
  if Qlt_bool 0 (travel_t f) then
    let step := py_min 1 (travel_t f) in
    let occ := Qnat (List.length (onboard b)) * step in
    let b' := set_minutes (active_minutes b + step) (occupied_minutes b + occ) b in
    let s1 := set_proc me (PBus b' (set_travel (travel_t f) step L134 f)) s in
    match Dict.get (bus_id b) (bus_stats (metrics s)) with
    | None => Raised KeyError s1
    | Some st =>
        yield_timeout' me step
          (set_metrics
             (set_bus_stats
                (Dict.set (bus_id b)
                   {| stat_active_minutes := stat_active_minutes st + step;
                      stat_occupied_minutes := stat_occupied_minutes st + occ;
                      stat_trips_completed := stat_trips_completed st |}
                   (bus_stats (metrics s)))
                (metrics s)) s1)
    end
  else Go (set_proc me (PBus b (set_pc L137 f)) s).

(** Line 134. *)
Definition bus_L134 (me : nat) (b : Bus) (f : BusFrame) (s : State) : StepResult :=
  Go (set_proc me
        (PBus b (set_travel (travel_t f - travel_step f) (travel_step f) L127 f)) s).

(** Lines 137-140: move to the next stop. *)
Definition bus_L137 (me : nat) (b : Bus) (f : BusFrame) (s : State) : StepResult :=
  match List.length (bus_stops b) with
  | O => Raised ZeroDivisionError s
  | S _ =>
      let idx := (current_index b + 1) mod List.length (bus_stops b) in
      if idx =? 0 then
        let s1 :=
          set_proc me
            (PBus (set_index idx (trips_completed b + 1) b) (set_pc L88 f)) s in
        match Dict.get (bus_id b) (bus_stats (metrics s)) with
        | None => Raised KeyError s1
        | Some st =>
            Go (set_metrics
                  (set_bus_stats
                     (Dict.set (bus_id b)
                        {| stat_active_minutes := stat_active_minutes st;
                           stat_occupied_minutes := stat_occupied_minutes st;
                           stat_trips_completed := stat_trips_completed st + 1 |}
                        (bus_stats (metrics s)))
                     (metrics s)) s1)
        end
      else
        Go (set_proc me
              (PBus (set_index idx (trips_completed b) b) (set_pc L88 f)) s)
  end.

Definition Bus_run (me : nat) (b : Bus) (f : BusFrame) (s : State) : StepResult :=
  match bus_pc f with
  | L86 => bus_L86 me b f s
  | L88 => bus_L88 me b f s
  | L99 => bus_L99 me b f s
  | L101 => bus_L101 me b f s
  | L102 => bus_L102 me b f s
  | L121 => bus_L121 me b f s
  | L125 => bus_L125 me b f s
  | L127 => bus_L127 me b f s
  | L134 => bus_L134 me b f s
  | L137 => bus_L137 me b f s
  end.

(** *** [passenger_generator] *)

Definition set_gen (n : nat) (pc : GenPc) (g : GenFrame) : GenFrame := {|
  gen_stop := gen_stop g; rate := rate g; route_stops := route_stops g;
  pid := n; gen_pc := pc |}.

(** [list.index(x)]; [None] is the [ValueError] of a missing item. *)
Fixpoint list_index (x : string) (l : list string) : option nat :=
  match l with
  | [] => None
  | y :: l' =>
      if String.eqb y x then Some 0%nat
      else match list_index x l' with
           | Some i => Some (S i)
           | None => None
           end
  end.

Definition str (n : nat) : string := NilZero.string_of_uint (Nat.to_uint n).

(** Line 146. *)
Definition gen_G146 (me : nat) (g : GenFrame) (s : State) : StepResult :=
  Go (set_proc me (PGen (set_gen 0 G148 g)) s).

(** Lines 148-149: [1/rate] raises on a zero rate, the draw raises on a
    negative scale, the timeout raises on a negative delay. *)
Definition gen_G148 (me : nat) (g : GenFrame) (s : State) : StepResult :=
  if Qeq_bool (rate g) 0 then Raised ZeroDivisionError s
  else
    let scale := 1 / rate g in
    if Qlt_bool scale 0 then Raised ValueError s
    else
      let interarrival := np_exponential (np_rnd s) scale in
      yield_timeout' me interarrival
        (set_np_rnd (S (np_rnd s))
           (set_proc me (PGen (set_gen (pid g) G150 g)) s)).

(** The destination drawn at line 152 for a generator at the stop named
    [stop_name]: the destination and the number of draws consumed, or
    the error raised. *)
Definition choose_destination (draws : nat) (stop_name : string)
    (route : list string) : Result (string * nat) :=
  match list_index stop_name route with
  | None => Err ValueError
  | Some idx =>
      if (idx + 1 <? List.length route)%nat then
        let downstream := skipn (idx + 1)%nat route in
        match nth_error downstream (random_below draws (List.length downstream)) with
        | Some dest => Ok (dest, 1%nat)
        | None => Err IndexError
        end
      else Ok (stop_name, 0%nat)
  end.

(** Lines 150-154. *)
Definition gen_G150 (me : nat) (g : GenFrame) (s : State) : StepResult :=
  match Dict.get (gen_stop g) (stops_map s) with
  | None => Raised KeyError s
  | Some st =>
      let n := (pid g + 1)%nat in
      let s1 := set_proc me (PGen (set_gen n G148 g)) s in
      match choose_destination (rnd s) (name st) (route_stops g) with
      | Err e => Raised e s1
      | Ok (dest, used) =>
          let p := {| pass_id := name st ++ "-" ++ str n;
                      arrival_time := now s; origin := name st;
                      destination := dest; board_time := None;
                      alight_time := None |} in
          add_passenger (gen_stop g) p (set_rnd (rnd s + used)%nat s1)
      end
  end.

Definition passenger_generator (me : nat) (g : GenFrame) (s : State) : StepResult :=
  match gen_pc g with
  | G146 => gen_G146 me g s
  | G148 => gen_G148 me g s
  | G150 => gen_G150 me g s
  end.

(** *** [monitor] *)

(** Lines 162-164 for one stop. *)
Definition monitor_record (t : Q) (series : Dict.t (list (Q * nat))) (st : Stop)
  : Dict.t (list (Q * nat)) :=
  let old := match Dict.get (name st) series with
             | Some l => l
             | None => []
             end in
  Dict.set (name st) (old ++ [(t, List.length (items (queue st)))]) series.

(** Lines 161-165: one round of the loop. *)
Definition monitor (me : nat) (s : State) : StepResult :=
  let series :=
    fold_left (monitor_record (now s)) (Dict.values (stops_map s))
      (queue_time_series (metrics s)) in
  yield_timeout' me 1
    (set_metrics (set_queue_time_series series (metrics s)) s).

(** *** The event loop *)

Inductive Outcome :=
| Running (s : State)
| Stopped (s : State)             (* [until] reached, or no event left *)
| Crashed (e : Error) (s : State).

(** A generator that raises fails its process event; the event is
    scheduled and the exception leaves [env.step] when it is processed. *)
Definition finish (me : nat) (r : StepResult) : Outcome :=
  match r with
  | Go s' => Running s'
  | Raised e s' =>
      Running (set_active None (schedule NORMAL 0 (Raise e) (set_proc me PDead s')))
  end.

(** [env.step()]: pop the next event, move the clock, run its callbacks. *)
Definition env_step (s : State) : Outcome :=
  match heappop (heap s) with
  | None => Stopped s
  | Some (e, rest) =>
      let s1 := set_now (at_time e) (set_heap rest s) in
      match callback e with
      | Resume i v => Running (set_sent v (set_active (Some i) s1))
      | TriggerGet k => Running (trigger_get k s1)
      | Raise err => Crashed err s1
      | StopSimulation => Stopped s1
      end
  end.

(** One transition: the active process runs up to its next line of
    interest, or, when no process is active, the next event is taken. *)
Definition step (s : State) : Outcome :=
  match active_process s with
  | None => env_step s
  | Some me =>
      match nth_error (procs s) me with
      | Some (PBus b f) => finish me (Bus_run me b f s)
      | Some (PGen g) => finish me (passenger_generator me g s)
      | Some PMon => finish me (monitor me s)
      | Some PDead | None => Running (set_active None s)
      end
  end.

Fixpoint steps (n : nat) (s : State) : Outcome :=
  match n with
  | O => Running s
  | S n' =>
      match step s with
      | Running s' => steps n' s'
      | o => o
      end
  end.

(** *** [run_simulation]: setup (lines 171-192) and [env.run] *)

Definition bind {A B} (r : Result A) (k : A -> Result B) : Result B :=
  match r with
  | Ok a => k a
  | Err e => Err e
  end.

Fixpoint fold_result {A B} (f : A -> B -> Result A) (l : list B) (a : A)
  : Result A :=
  match l with
  | [] => Ok a
  | x :: l' => bind (f a x) (fold_result f l')
  end.

Definition new_stop (k : string) : Stop :=
  {| name := k; queue := {| items := []; get_queue := [] |} |}.

(** Lines 173-176. *)
Definition create_stops (routes : Dict.t Route) : Dict.t Stop :=
  fold_left
    (fun m r => fold_left (fun m k => Dict.set k (new_stop k) m) (stops r) m)
    (Dict.values routes) [].

Definition mem (x : string) (l : list string) : bool :=
  existsb (String.eqb x) l.

(** Lines 179-183 for one entry of [ARRIVAL_RATES]: a generator on the
    first route that has the stop, nothing when no route has it. *)
Definition start_generator (s : State) (kv : string * Q) : Result State :=
  match find (fun r => mem (fst kv) (stops r)) (Dict.values (ROUTES cfg)) with
  | None => Ok s
  | Some r =>
      match Dict.get (fst kv) (stops_map s) with
      | None => Err KeyError
      | Some _ =>
          Ok (process
                (PGen {| gen_stop := fst kv; rate := snd kv;
                         route_stops := stops r; pid := 0; gen_pc := G146 |}) s)
      end
  end.

Definition zero_stat : BusStat :=
  {| stat_active_minutes := 0; stat_occupied_minutes := 0;
     stat_trips_completed := 0 |}.

(** [Bus.__init__] *)
Definition Bus_init (bid rname : string) (sts : list string) (rinfo : Route)
    (start : Q) (s : State) : State :=
  process
    (PBus {| bus_id := bid; route_name := rname; bus_stops := sts;
             route_info := rinfo; capacity := BUS_CAPACITY cfg; onboard := [];
             current_index := 0; active_minutes := 0; occupied_minutes := 0;
             trips_completed := 0 |}
          {| start_time := start; stop := EmptyString; alighting := [];
             free_space := 0; boarded := 0; travel_t := 0; travel_step := 0;
             bus_pc := L86 |})
    (set_metrics
       (set_bus_stats (Dict.set bid zero_stat (bus_stats (metrics s))) (metrics s))
       s).

(** Lines 188-189 for bus number [i] of a route. *)
Definition start_bus (rname : string) (rinfo : Route) (s : State) (i : nat)
  : Result State :=
  if (num_buses rinfo =? 0)%Z then Err ZeroDivisionError
  else
    let start_offset := Qnat i * headway rinfo / inject_Z (num_buses rinfo) in
    if forallb (fun k => match Dict.get k (stops_map s) with
                         | Some _ => true
                         | None => false
                         end) (stops rinfo)
    then Ok (Bus_init (rname ++ "-Bus-" ++ str (i + 1)) rname (stops rinfo) rinfo
               start_offset s)
    else Err KeyError.

(** Lines 186-189 for one route. *)
Definition start_buses (s : State) (kv : string * Route) : Result State :=
  fold_result (start_bus (fst kv) (snd kv))
    (seq 0 (Z.to_nat (num_buses (snd kv)))) s.

Definition setup : Result State :=
  bind (fold_result start_generator (ARRIVAL_RATES cfg)
          (set_stops_map (create_stops (ROUTES cfg)) empty_state))
    (fun s1 =>
       bind (fold_result start_buses (ROUTES cfg) s1)
         (fun s2 => Ok (process PMon s2))).

(** [env.run(until=SIM_TIME)] before its loop: the horizon must lie in
    the future, and it becomes an urgent event. *)
Definition env_run_until (s : State) : Result State :=
  if Qle_bool (SIM_TIME cfg) (now s) then Err ValueError
  else Ok (schedule URGENT (SIM_TIME cfg - now s) StopSimulation s).

(** The state in which the event loop of [run_simulation] starts. *)
Definition run_simulation : Result State := bind setup env_run_until.

(** The states a run goes through. *)
Inductive Reachable : State -> Prop :=
| Reach_start s : run_simulation = Ok s -> Reachable s
| Reach_step s s' : Reachable s -> step s = Running s' -> Reachable s'.

(** The run after [n] transitions of the event loop. *)
Definition run_for (n : nat) : Outcome :=
  match run_simulation with
  | Ok s => steps n s
  | Err e => Crashed e empty_state
  end.

(** *** After the run: the statistics that [run_simulation] prints *)

(** Line 201. *)
Definition total_passengers (m : Metrics) : nat :=
  List.length (passenger_records m).

(** [np.mean] of a sequence: the sum over the length.  On an empty sequence
    the result is nan ([None] here), with a warning and no exception. *)
Definition np_mean (l : list Q) : option Q :=
  match l with
  | [] => None
  | _ :: _ => Some (fold_left Qplus l 0 / Qnat (List.length l))
  end.

(** [np.max] of a sequence: an empty one raises [ValueError]. *)
Definition np_max (l : list Q) : Result Q :=
  match l with
  | [] => Err ValueError
  | x :: l' => Ok (fold_left py_max l' x)
  end.

(** Lines 201, 202 and 204: the count, the mean and the maximum of the
    waiting times (the median of line 203 is left out; on an empty
    sequence it is nan as well). *)
Definition waiting_summary (m : Metrics) : Result (nat * option Q * Q) :=
  let total := total_passengers m in
  let avg_wait := np_mean (waiting_times m) in
  bind (np_max (waiting_times m)) (fun max_wait => Ok (total, avg_wait, max_wait)).

(** Line 222. *)
Definition avg_occ (stat : BusStat) : Q :=
  if Qlt_bool 0 (stat_active_minutes stat)
  then stat_occupied_minutes stat / stat_active_minutes stat
  else 0.

(** Line 223: the division raises when [BUS_CAPACITY] is 0. *)
Definition util (stat : BusStat) : Result Q :=
  if Qlt_bool 0 (stat_active_minutes stat) then
    let d := stat_active_minutes stat * inject_Z (BUS_CAPACITY cfg) in
    if Qeq_bool d 0 then Err ZeroDivisionError
    else Ok (stat_occupied_minutes stat / d * 100)
  else Ok 0.

(** [s.split(sep)] for a separator of one character. *)
Fixpoint py_split (sep : ascii) (s : string) : list string :=
  match s with
  | EmptyString => [EmptyString]
  | String c s' =>
      if Ascii.eqb c sep then EmptyString :: py_split sep s'
      else match py_split sep s' with
           | w :: ws => String c w :: ws
           | [] => [String c EmptyString]
           end
  end.

(** Line 224: the Route column of the bus table, [bus.split("-")[0]]. *)
Definition route_column (bus : string) : Result string :=
  match py_split "-" bus with
  | w :: _ => Ok w
  | [] => Err IndexError
  end.

(** Lines 236-239: the rows [(Time, Stop, Queue Length)] of queues.csv. *)
Definition queue_data (series : Dict.t (list (Q * nat)))
  : list (Q * string * nat) :=
  flat_map (fun kv => map (fun tq => (fst tq, fst kv, snd tq)) (snd kv)) series.


(** [[f(x) for x in l]]: the first exception ends the loop. *)
Fixpoint map_result {A B} (f : A -> Result B) (l : list A) : Result (list B) :=
  match l with
  | [] => Ok []
  | x :: l' =>
      bind (f x) (fun y => bind (map_result f l') (fun ys => Ok (y :: ys)))
  end.

(** A row of the bus table, before the figures are rounded for display. *)
Record BusRow := {
  row_bus : string;
  row_route : string;
  row_stat : BusStat;
  row_avg_occ : Q;
  row_util : Q
}.

(** Lines 222-225 for one entry of [metrics["bus_stats"]]. *)
Definition bus_row (kv : string * BusStat) : Result BusRow :=
  let a := avg_occ (snd kv) in
  bind (util (snd kv)) (fun u =>
  bind (route_column (fst kv)) (fun r =>
  Ok {| row_bus := fst kv; row_route := r; row_stat := snd kv;
        row_avg_occ := a; row_util := u |})).

(** Lines 201-225, in the order of the source: the summary of the waiting
    times, the table of the passengers served per stop, then the rows of
    the bus table.  An exception of the summary leaves the tables
    uncomputed. *)
Definition statistics (m : Metrics)
  : Result (nat * option Q * Q * list (string * nat) * list BusRow) :=
  bind (waiting_summary m) (fun w =>
  let table1 := served_per_stop m in
  bind (map_result bus_row (bus_stats m)) (fun table2 =>
  Ok (w, table1, table2))).

(** ** Basic facts about the containers *)

Unset Implicit Arguments.

Lemma list_set_length {A} i (x : A) l :
  List.length (list_set i x l) = List.length l.
Proof.
  revert i. induction l as [|y l IH]; intros [|i]; simpl; auto.
Qed.

Lemma nth_error_list_set {A} i j (x : A) l :
  nth_error (list_set i x l) j =
  if (i =? j)%nat then
    match nth_error l j with Some _ => Some x | None => None end
  else nth_error l j.
Proof.
  revert i j. induction l as [|y l IH]; intros [|i] [|j]; simpl; auto.
  now destruct (i =? j)%nat.
Qed.

Lemma nth_error_list_set_same {A} i (x y : A) l :
  nth_error l i = Some y -> nth_error (list_set i x l) i = Some x.
Proof.
  intro H. rewrite nth_error_list_set, Nat.eqb_refl. now rewrite H.
Qed.

Lemma nth_error_list_set_inv {A} i j (x y : A) l :
  nth_error (list_set i x l) j = Some y ->
  (i = j /\ y = x) \/ (i <> j /\ nth_error l j = Some y).
Proof.
  rewrite nth_error_list_set. destruct (Nat.eqb_spec i j) as [->|N].
  - destruct (nth_error l j); [|discriminate]. intro H. left. split; congruence.
  - intro H. right. auto.
Qed.

Lemma heappop_perm h m r : heappop h = Some (m, r) -> Permutation h (m :: r).
Proof.
  revert m r. induction h as [|e h IH]; simpl; intros m r H; [discriminate|].
  destruct (heappop h) as [[m' r']|] eqn:E.
  - specialize (IH _ _ eq_refl).
    destruct (entry_le e m'); injection H as <- <-.
    + apply Permutation_refl.
    + eapply perm_trans; [apply perm_skip, IH|apply perm_swap].
  - injection H as <- <-. destruct h; [apply Permutation_refl|].
    simpl in E. destruct (heappop h) as [[? ?]|]; [|discriminate].
    destruct (entry_le _ _); discriminate.
Qed.

Lemma heappop_In h m r e :
  heappop h = Some (m, r) -> In e h <-> e = m \/ In e r.
Proof.
  intro H. apply heappop_perm in H. split; intro I.
  - apply (Permutation_in _ H) in I. simpl in I. intuition auto.
  - apply (Permutation_in _ (Permutation_sym H)). simpl. intuition auto.
Qed.

Lemma entry_le_true a b : entry_le a b = true -> at_time a <= at_time b.
Proof.
  unfold entry_le. rewrite orb_true_iff, andb_true_iff.
  intros [H|[H _]].
  - apply Qlt_bool_iff in H. now apply Qlt_le_weak.
  - now apply Qle_bool_iff.
Qed.

Lemma entry_le_false a b : entry_le a b = false -> at_time b <= at_time a.
Proof.
  unfold entry_le. rewrite orb_false_iff. intros [H _].
  now apply Qlt_bool_false.
Qed.

(** The popped entry is the earliest one. *)
Lemma heappop_min h m r :
  heappop h = Some (m, r) -> forall e, In e r -> at_time m <= at_time e.
Proof.
  revert m r. induction h as [|e h IH]; simpl; intros m r H; [discriminate|].
  destruct (heappop h) as [[m' r']|] eqn:E.
  - specialize (IH _ _ eq_refl).
    destruct (entry_le e m') eqn:L; injection H as <- <-; intros x Hx.
    + apply (heappop_In _ _ _ x E) in Hx. destruct Hx as [->|Hx].
      * now apply entry_le_true.
      * eapply Qle_trans; [apply entry_le_true, L|auto].
    + destruct Hx as [<-|Hx]; [now apply entry_le_false|auto].
  - injection H as <- <-. intros x [].
Qed.

Lemma emit_all_eq os s : emit_all os s = set_trace (rev os ++ trace s) s.
Proof.
  unfold emit_all. revert s. induction os as [|o os IH]; intro s; simpl.
  - now destruct s.
  - rewrite IH. unfold emit, set_trace. simpl. now rewrite <- app_assoc.
Qed.

(** ** Case analysis of a transition *)

Ltac break_inner H :=
  match type of H with
  | context [match ?x with _ => _ end] =>
      lazymatch x with
      | context [match _ with _ => _ end] => fail
      | _ => destruct x eqn:?
      end
  end.

Ltac step_inv H :=
  unfold step, env_step, finish, Bus_run, passenger_generator, monitor,
    bus_L86, bus_L88, bus_L99, bus_L101, bus_L102, bus_L121, bus_L125,
    bus_L127, bus_L134, bus_L137, gen_G146, gen_G148, gen_G150,
    yield_timeout', yield_timeout in H;
  repeat (break_inner H; cbv beta iota in H);
  try discriminate H; injection H as <-;
  rewrite ?emit_all_eq.

(** ** The state in which the event loop starts *)

(** Entries of the heap that resume process [i]. *)
Definition resumes (i : nat) (e : Entry) : bool :=
  match callback e with
  | Resume j _ => (j =? i)%nat
  | _ => false
  end.

Definition pending (i : nat) (h : list Entry) : nat :=
  List.length (filter (resumes i) h).

Definition fresh_proc (p : Proc) : Prop :=
  match p with
  | PBus b f =>
      onboard b = [] /\ capacity b = BUS_CAPACITY cfg /\ bus_pc f = L86
      /\ alighting f = []
  | PGen g => gen_pc g = G146
  | PMon => True
  | PDead => False
  end.

Record SetupInv (mon : bool) (s : State) : Prop := {
  setup_now : now s = 0;
  setup_active : active_process s = None;
  setup_sent : sent s = None;
  setup_trace : trace s = [];
  setup_heap_time : forall e, In e (heap s) -> 0 <= at_time e;
  setup_heap_cb :
    forall e, In e (heap s) ->
    callback e = StopSimulation \/
    exists i, callback e = Resume i None /\ at_time e == 0;
  setup_pending :
    forall i, pending i (heap s) =
              if (i <? List.length (procs s))%nat then 1%nat else 0%nat;
  setup_stops :
    forall k st, Dict.get k (stops_map s) = Some st -> st = new_stop k;
  setup_keys : NoDup (Dict.keys (stops_map s));
  setup_procs : forall i p, nth_error (procs s) i = Some p -> fresh_proc p;
  setup_mon :
    forall i, nth_error (procs s) i = Some PMon ->
    mon = true /\ S i = List.length (procs s);
  setup_series : queue_time_series (metrics s) = []
}.

Lemma fold_result_inv {A B} (P : A -> Prop) (f : A -> B -> Result A) l :
  (forall a x a', P a -> f a x = Ok a' -> P a') ->
  forall a r, P a -> fold_result f l a = Ok r -> P r.
Proof.
  intro Hf. induction l as [|x l IH]; simpl; intros a r Pa H.
  - now injection H as <-.
  - destruct (f a x) as [a'|] eqn:E; simpl in H; [|discriminate].
    eapply IH; [|exact H]. eauto.
Qed.

Lemma create_stops_fresh routes :
  (forall k st, Dict.get k (create_stops routes) = Some st -> st = new_stop k)
  /\ NoDup (Dict.keys (create_stops routes)).
Proof.
  unfold create_stops.
  set (P := fun m : Dict.t Stop =>
              (forall k st, Dict.get k m = Some st -> st = new_stop k)
              /\ NoDup (Dict.keys m)).
  assert (P0 : P []) by (split; [discriminate|constructor]).
  assert (step1 : forall ks m, P m ->
            P (fold_left (fun m k => Dict.set k (new_stop k) m) ks m)).
  { induction ks as [|k ks IH]; simpl; intros m Pm; [exact Pm|].
    apply IH. destruct Pm as [Pv Pk]. split.
    - intros k' st. rewrite Dict.get_set.
      destruct (String.eqb_spec k' k) as [->|N]; [congruence|apply Pv].
    - now apply Dict.NoDup_keys_set. }
  generalize (Dict.values routes) as rs. generalize (@nil (string * Stop)) P0.
  intros m Pm rs. revert m Pm.
  induction rs as [|r rs IH]; simpl; intros m Pm; [exact Pm|].
  apply IH, step1, Pm.
Qed.

Lemma pending_cons i e h :
  pending i (e :: h) = ((if resumes i e then 1 else 0) + pending i h)%nat.
Proof. unfold pending. simpl. now destruct (resumes i e). Qed.

Lemma process_setup p s :
  SetupInv false s -> fresh_proc p -> p <> PMon -> SetupInv false (process p s).
Proof.
  intros [] Fp Np. constructor; simpl; auto.
  - intros e [<-|H]; simpl; [|auto]. rewrite setup_now0. discriminate.
  - intros e [<-|H]; simpl; [|auto].
    right. eexists. split; [reflexivity|]. rewrite setup_now0. lra.
  - intro i. rewrite pending_cons, setup_pending0, length_app. simpl.
    unfold resumes. simpl.
    destruct (Nat.eqb_spec (List.length (procs s)) i) as [<-|N].
    + rewrite Nat.ltb_irrefl.
      now replace (_ <? _)%nat with true by (symmetry; apply Nat.ltb_lt; lia).
    + destruct (Nat.ltb_spec i (List.length (procs s)));
        [replace (_ <? _)%nat with true by (symmetry; apply Nat.ltb_lt; lia)
        |replace (_ <? _)%nat with false by (symmetry; apply Nat.ltb_ge; lia)];
        reflexivity.
  - intros i q H. destruct (Nat.lt_ge_cases i (List.length (procs s))).
    + rewrite nth_error_app1 in H by assumption. eauto.
    + rewrite nth_error_app2 in H by assumption.
      destruct (i - _)%nat as [|[|?]]; simpl in H; try discriminate.
      now injection H as <-.
  - intros i H. destruct (Nat.lt_ge_cases i (List.length (procs s))).
    + rewrite nth_error_app1 in H by assumption.
      destruct (setup_mon0 _ H) as [L _]. discriminate.
    + rewrite nth_error_app2 in H by assumption.
      destruct (i - _)%nat as [|[|?]]; simpl in H; try discriminate.
      congruence.
Qed.

Lemma monitor_setup s : SetupInv false s -> SetupInv true (process PMon s).
Proof.
  intros []. constructor; simpl; auto.
  - intros e [<-|H]; simpl; [|auto]. rewrite setup_now0. discriminate.
  - intros e [<-|H]; simpl; [|auto].
    right. eexists. split; [reflexivity|]. rewrite setup_now0. lra.
  - intro i. rewrite pending_cons, setup_pending0, length_app. simpl.
    unfold resumes. simpl.
    destruct (Nat.eqb_spec (List.length (procs s)) i) as [<-|N].
    + rewrite Nat.ltb_irrefl.
      now replace (_ <? _)%nat with true by (symmetry; apply Nat.ltb_lt; lia).
    + destruct (Nat.ltb_spec i (List.length (procs s)));
        [replace (_ <? _)%nat with true by (symmetry; apply Nat.ltb_lt; lia)
        |replace (_ <? _)%nat with false by (symmetry; apply Nat.ltb_ge; lia)];
        reflexivity.
  - intros i q H. destruct (Nat.lt_ge_cases i (List.length (procs s))).
    + rewrite nth_error_app1 in H by assumption. eauto.
    + rewrite nth_error_app2 in H by assumption.
      destruct (i - _)%nat as [|[|?]] eqn:E; simpl in H; try discriminate.
      now injection H as <-.
  - intros i H. split; [reflexivity|]. rewrite length_app. simpl.
    destruct (Nat.lt_ge_cases i (List.length (procs s))).
    + rewrite nth_error_app1 in H by assumption.
      destruct (setup_mon0 _ H). discriminate.
    + rewrite nth_error_app2 in H by assumption.
      destruct (i - _)%nat as [|[|?]] eqn:E; simpl in H; try discriminate. lia.
Qed.

Lemma until_setup s d :
  SetupInv true s -> 0 <= d -> SetupInv true (schedule URGENT d StopSimulation s).
Proof.
  intros [] Hd. constructor; simpl; auto.
  - intros e [<-|H]; simpl; [|auto]. rewrite setup_now0. lra.
  - intros e [<-|H]; simpl; eauto.
Qed.

Lemma start_generator_setup s kv s' :
  SetupInv false s -> start_generator s kv = Ok s' -> SetupInv false s'.
Proof.
  unfold start_generator. intros I H.
  destruct (find _ _); [|now injection H as <-].
  destruct (Dict.get _ _); [|discriminate]. injection H as <-.
  apply process_setup; [assumption|reflexivity|discriminate].
Qed.

Lemma start_bus_setup rname rinfo s i s' :
  SetupInv false s -> start_bus rname rinfo s i = Ok s' -> SetupInv false s'.
Proof.
  unfold start_bus, Bus_init. intros I H.
  destruct (_ =? _)%Z; [discriminate|].
  destruct (forallb _ _); [|discriminate]. injection H as <-.
  apply process_setup; [|simpl; auto|discriminate].
  destruct I. constructor; simpl; auto.
Qed.

Lemma setup_ok s : setup = Ok s -> SetupInv true s.
Proof.
  unfold setup. intro H.
  destruct (fold_result start_generator _ _) as [s1|] eqn:E1; simpl in H;
    [|discriminate].
  destruct (fold_result start_buses _ _) as [s2|] eqn:E2; simpl in H;
    [|discriminate].
  injection H as <-. apply monitor_setup.
  eapply fold_result_inv; [| |exact E2].
  - intros a x a' Pa Ha. unfold start_buses in Ha.
    eapply fold_result_inv; [| |exact Ha]; [|exact Pa].
    intros. eapply start_bus_setup; eauto.
  - eapply fold_result_inv; [| |exact E1].
    + intros. eapply start_generator_setup; eauto.
    + destruct (create_stops_fresh (ROUTES cfg)) as [Hs Hk].
      constructor; simpl; auto; try tauto.
      * intros [|i] p H; discriminate.
      * intros [|i] H; discriminate.
Qed.

Lemma run_simulation_ok s : run_simulation = Ok s -> SetupInv true s.
Proof.
  unfold run_simulation. intro H.
  destruct setup as [s0|] eqn:E; simpl in H; [|discriminate].
  apply setup_ok in E. unfold env_run_until in H.
  destruct (Qle_bool _ _) eqn:L; [discriminate|]. injection H as <-.
  apply until_setup; [assumption|].
  rewrite (setup_now _ _ E) in *.
  assert (~ SIM_TIME cfg <= 0) by (rewrite <- Qle_bool_iff; congruence). lra.
Qed.

(** Every invariant of the run is proved by this induction. *)
Lemma Reachable_inv (P : State -> Prop) :
  (forall s, run_simulation = Ok s -> P s) ->
  (forall s s', Reachable s -> P s -> step s = Running s' -> P s') ->
  forall s, Reachable s -> P s.
Proof.
  intros H0 HS s R. induction R; eauto.
Qed.

(** ** No process ever waits on a stop queue *)

Definition stops_ok (s : State) : Prop :=
  NoDup (Dict.keys (stops_map s)) /\
  forall k st, Dict.get k (stops_map s) = Some st ->
               name st = k /\ get_queue (queue st) = [].

Lemma trigger_get_idle k s :
  (forall st, Dict.get k (stops_map s) = Some st -> get_queue (queue st) = []) ->
  trigger_get k s = s.
Proof.
  unfold trigger_get. intro H. destruct (Dict.get k (stops_map s)); [|reflexivity].
  now rewrite (H _ eq_refl).
Qed.

(** With nobody waiting, a get on a non-empty queue is served at once:
    the head leaves the queue and the event carrying it is scheduled
    at the current time. *)
Lemma get_passenger_served me k s st p rest :
  Dict.get k (stops_map s) = Some st ->
  get_queue (queue st) = [] ->
  items (queue st) = p :: rest ->
  get_passenger me k s =
  Go (set_active None
        (emit (ObsTake k me p)
           (schedule NORMAL 0 (Resume me (Some p))
              (update_stop k
                 (set_queue {| items := rest; get_queue := [] |} st) s)))).
Proof.
  intros G W I. unfold get_passenger, trigger_get. rewrite G. simpl.
  rewrite Dict.get_set_same. simpl. rewrite W, I. simpl.
  unfold update_stop, set_queue, schedule, emit, set_trace. simpl.
  now rewrite Dict.set_set.
Qed.

Lemma add_passenger_eq k p s st :
  Dict.get k (stops_map s) = Some st ->
  add_passenger k p s =
  Go (emit (ObsPut k p)
        (schedule NORMAL 0 (TriggerGet k)
           (update_stop k
              (set_queue {| items := items (queue st) ++ [p];
                            get_queue := get_queue (queue st) |} st) s))).
Proof. intro G. unfold add_passenger. now rewrite G. Qed.

Lemma stops_ok_update k st st' s :
  stops_ok s -> Dict.get k (stops_map s) = Some st ->
  name st' = name st -> get_queue (queue st') = [] ->
  stops_ok (update_stop k st' s).
Proof.
  intros [ND I] G N W. split; simpl.
  - now apply Dict.NoDup_keys_set.
  - intros k' st0. rewrite Dict.get_set.
    destruct (String.eqb_spec k' k) as [->|D]; [|apply I].
    intro H. injection H as <-. split; [|assumption].
    rewrite N. now apply I.
Qed.

Ltac positive_length H :=
  match type of H with
  | _ && (0 <? List.length ?l)%nat = true =>
      let G := fresh "G" in
      apply andb_true_iff in H; destruct H as [G H];
      destruct l eqn:?; [discriminate H|clear H]
  end.

(** After [step_inv], the cases that touch a stop queue are made
    explicit with the help of [stops_ok]. *)
Ltac store_cases I :=
  try match goal with
    | G : Dict.get ?k (stops_map ?s) = Some ?st,
      B : _ && (0 <? List.length (items (queue ?st)))%nat = true,
      H : get_passenger ?me ?k ?s0 = _ |- _ =>
        positive_length B;
        rewrite (get_passenger_served me k s0 st _ _ G
                   (proj2 (proj2 I _ _ G)) ltac:(eassumption)) in H;
        first [discriminate H | injection H as <-]
    | G : Dict.get ?k (stops_map ?s) = Some ?st,
      H : add_passenger ?k ?p ?s0 = _ |- _ =>
        rewrite (add_passenger_eq k p s0 st G) in H;
        first [discriminate H | injection H as <-]
    | |- context [trigger_get ?k ?s0] =>
        rewrite (trigger_get_idle k s0)
          by (intros ? G'; exact (proj2 (proj2 I _ _ G')))
    end.

Lemma stops_ok_step s s' : stops_ok s -> step s = Running s' -> stops_ok s'.
Proof.
  intros I H. step_inv H; store_cases I.
  all: try exact I.
  all: eapply stops_ok_update; eauto; simpl; try reflexivity.
  all: exact (proj2 (proj2 I _ _ ltac:(eassumption))).
Qed.

Lemma stops_ok_start s : run_simulation = Ok s -> stops_ok s.
Proof.
  intro H. apply run_simulation_ok in H. destruct H. split; [assumption|].
  intros k st G. apply setup_stops0 in G. now subst.
Qed.

Lemma Reachable_stops_ok s : Reachable s -> stops_ok s.
Proof.
  apply Reachable_inv.
  - apply stops_ok_start.
  - intros. eapply stops_ok_step; eauto.
Qed.

(** Case analysis of a transition from a reachable state. *)
Ltac step_cases H R :=
  let I := fresh "SO" in
  pose proof (Reachable_stops_ok _ R) as I;
  step_inv H; store_cases I.

(** ** Properties of every bus *)

Definition all_buses (P : Bus -> BusFrame -> Prop) (l : list Proc) : Prop :=
  forall i b f, nth_error l i = Some (PBus b f) -> P b f.

Lemma all_buses_set P l n p :
  all_buses P l ->
  match p with PBus b f => P b f | _ => True end ->
  all_buses P (list_set n p l).
Proof.
  intros A Hp i b f H. apply nth_error_list_set_inv in H.
  destruct H as [[_ <-]|[_ H]]; [exact Hp|eauto].
Qed.

Lemma list_remove_length p l r :
  list_remove p l = Some r -> S (List.length r) = List.length l.
Proof.
  revert r. induction l as [|q l IH]; simpl; intros r H; [discriminate|].
  destruct (String.eqb _ _); [now injection H as <-|].
  destruct (list_remove p l); [|discriminate]. injection H as <-.
  simpl. now rewrite (IH _ eq_refl).
Qed.

Lemma alight_loop_length t al onb done rest :
  alight_loop t al onb = Some (done, rest) ->
  (List.length done + List.length rest = List.length onb)%nat
  /\ List.length done = List.length al.
Proof.
  revert onb done rest. induction al as [|p al IH]; simpl; intros onb done rest H.
  - injection H as <- <-. auto.
  - destruct (list_remove p onb) as [onb'|] eqn:E; [|discriminate].
    destruct (alight_loop t al onb') as [[d r]|] eqn:E'; [|discriminate].
    injection H as <- <-. apply IH in E'. apply list_remove_length in E.
    simpl. lia.
Qed.

(** The capacity check of the boarding loop: [free_space] is what is
    left of the capacity while the loop runs. *)
Definition capacity_ok (b : Bus) (f : BusFrame) : Prop :=
  capacity b = BUS_CAPACITY cfg /\
  (Z.of_nat (List.length (onboard b)) <= capacity b)%Z /\
  match bus_pc f with
  | L101 => free_space f = (capacity b - Z.of_nat (List.length (onboard b)))%Z
  | L102 => free_space f = (capacity b - Z.of_nat (List.length (onboard b)))%Z
            /\ (0 < free_space f)%Z
  | _ => True
  end.

Lemma capacity_ok_step s s' :
  Reachable s -> all_buses capacity_ok (procs s) -> step s = Running s' ->
  all_buses capacity_ok (procs s').
Proof.
  intros R I H. step_cases H R; simpl.
  all: repeat match goal with
              | |- all_buses _ (list_set _ _ _) => apply all_buses_set
              end.
  all: try exact I.
  all: try exact Logic.I.
  all: match goal with
       | B : nth_error (procs _) _ = Some (PBus _ _) |- _ =>
           let C := fresh "C" in
           pose proof (I _ _ _ B) as C; unfold capacity_ok in C |- *;
           destruct C as (C1 & C2 & C3)
       end.
  all: simpl; repeat split; auto.
  all: try match goal with
         | E : bus_pc _ = _ |- _ => rewrite E in *
         end.
  all: try match goal with
         | E : alight_loop _ _ _ = Some _ |- _ =>
             apply alight_loop_length in E; simpl in E
         end.
  all: try rewrite length_app; simpl; try lia.
Qed.

Lemma capacity_ok_start s :
  (0 <= BUS_CAPACITY cfg)%Z -> run_simulation = Ok s ->
  all_buses capacity_ok (procs s).
Proof.
  intros C H i b f G. apply run_simulation_ok in H.
  apply (setup_procs _ _ H) in G. destruct G as (O & K & L & _).
  unfold capacity_ok. rewrite O, K, L. simpl. auto.
Qed.

Lemma Reachable_capacity_ok s :
  (0 <= BUS_CAPACITY cfg)%Z -> Reachable s -> all_buses capacity_ok (procs s).
Proof.
  intros C R. revert s R.
  apply (Reachable_inv (fun s => all_buses capacity_ok (procs s))).
  - intros; now apply capacity_ok_start.
  - intros. eapply capacity_ok_step; eauto.
Qed.

(** C1: in every state of a run, every bus carries between 0 and
    [BUS_CAPACITY] passengers, and a bus that is about to board the
    passenger it received (line 102) still has a free seat. *)
Theorem C1_onboard_within_capacity :
  (0 <= BUS_CAPACITY cfg)%Z ->
  forall s, Reachable s ->
  forall i b f, nth_error (procs s) i = Some (PBus b f) ->
  capacity b = BUS_CAPACITY cfg /\
  (0 <= Z.of_nat (List.length (onboard b)) <= capacity b)%Z /\
  (bus_pc f = L102 ->
   (Z.of_nat (List.length (onboard b)) < capacity b)%Z /\
   free_space f = (capacity b - Z.of_nat (List.length (onboard b)))%Z).
Proof.
  intros C s R i b f G.
  destruct (Reachable_capacity_ok s C R i b f G) as (K & L & P).
  split; [exact K|]. split; [lia|].
  intro E. rewrite E in P. lia.
Qed.

(** ** Passenger timestamps *)

Definition waiting_ok (T : Q) (p : Passenger) : Prop :=
  arrival_time p <= T /\ board_time p = None /\ alight_time p = None.

Definition onboard_ok (T : Q) (p : Passenger) : Prop :=
  exists b, board_time p = Some b /\ arrival_time p <= b /\ b <= T
            /\ alight_time p = None.

Definition alighted_ok (p : Passenger) : Prop :=
  exists b a, board_time p = Some b /\ alight_time p = Some a
              /\ arrival_time p <= b /\ b <= a.

Definition obs_ok (o : Obs) : Prop :=
  match o with
  | ObsBoard _ p => exists b, board_time p = Some b /\ arrival_time p <= b
  | ObsAlight _ p => alighted_ok p
  | ObsTravel _ t => 1 # 2 <= t
  | _ => True
  end.

Lemma travel_time_floor draw : 1 # 2 <= travel_time draw.
Proof.
  unfold travel_time, py_max. destruct (Qlt_bool (1 # 2) draw) eqn:E.
  - apply Qlt_bool_iff in E. lra.
  - lra.
Qed.

Definition bus_times_ok (T : Q) (b : Bus) (f : BusFrame) : Prop :=
  (forall p, In p (onboard b) -> onboard_ok T p) /\
  (forall p, In p (alighting f) -> alighted_ok p).

Record times_inv (s : State) : Prop := {
  ti_heap : forall e, In e (heap s) -> now s <= at_time e;
  ti_queue :
    forall k st p, Dict.get k (stops_map s) = Some st ->
    In p (items (queue st)) -> waiting_ok (now s) p;
  ti_events :
    forall e i p, In e (heap s) -> callback e = Resume i (Some p) ->
    waiting_ok (at_time e) p;
  ti_sent : forall p, sent s = Some p -> waiting_ok (now s) p;
  ti_bus : all_buses (bus_times_ok (now s)) (procs s);
  ti_trace : forall o, In o (trace s) -> obs_ok o
}.

Lemma waiting_ok_mono T T' p : T <= T' -> waiting_ok T p -> waiting_ok T' p.
Proof. intros L (A & B & C). repeat split; auto. lra. Qed.

Lemma onboard_ok_mono T T' p : T <= T' -> onboard_ok T p -> onboard_ok T' p.
Proof. intros L (b & A & B & C & D). exists b. repeat split; auto. lra. Qed.

Lemma bus_times_ok_mono T T' l :
  T <= T' -> all_buses (bus_times_ok T) l -> all_buses (bus_times_ok T') l.
Proof.
  intros L A i b f H. destruct (A i b f H) as [O Al]. split; [|exact Al].
  intros p Hp. eapply onboard_ok_mono; eauto.
Qed.

(** Popping the next event moves the clock forward and keeps the
    timestamps in order. *)
Lemma times_inv_pop s e rest :
  times_inv s -> heappop (heap s) = Some (e, rest) ->
  now s <= at_time e /\ times_inv (set_now (at_time e) (set_heap rest s)).
Proof.
  intros [] P.
  assert (L : now s <= at_time e).
  { apply ti_heap0. apply (heappop_In _ _ _ e P). now left. }
  split; [exact L|]. constructor; simpl.
  - intros x Hx. eapply heappop_min; eauto.
  - intros. eapply waiting_ok_mono; eauto.
  - intros x i p Hx. apply ti_events0. apply (heappop_In _ _ _ x P). now right.
  - intros. eapply waiting_ok_mono; eauto.
  - eapply bus_times_ok_mono; eauto.
  - assumption.
Qed.

Lemma times_inv_active a s : times_inv s -> times_inv (set_active a s).
Proof. intros []. constructor; auto. Qed.

Lemma times_inv_sent v s :
  times_inv s -> (forall p, v = Some p -> waiting_ok (now s) p) ->
  times_inv (set_sent v s).
Proof. intros [] H. constructor; auto. Qed.

Lemma times_inv_metrics m s : times_inv s -> times_inv (set_metrics m s).
Proof. intros []. constructor; auto. Qed.

Lemma times_inv_rnd n s : times_inv s -> times_inv (set_rnd n s).
Proof. intros []. constructor; auto. Qed.

Lemma times_inv_np_rnd n s : times_inv s -> times_inv (set_np_rnd n s).
Proof. intros []. constructor; auto. Qed.

Lemma times_inv_trace tr s :
  times_inv s -> (forall o, In o tr -> obs_ok o) -> times_inv (set_trace tr s).
Proof. intros [] H. constructor; auto. Qed.

Lemma times_inv_emit o s : times_inv s -> obs_ok o -> times_inv (emit o s).
Proof.
  intros I H. apply times_inv_trace; [exact I|].
  intros x [<-|Hx]; [exact H|now apply (ti_trace _ I)].
Qed.

Lemma times_inv_schedule prio d c s :
  times_inv s -> Qlt_bool d 0 = false ->
  (forall i p, c = Resume i (Some p) -> waiting_ok (now s) p) ->
  times_inv (schedule prio d c s).
Proof.
  intros [] D H. apply Qlt_bool_false in D. constructor; simpl; auto.
  - intros e [<-|He]; simpl; [lra|auto].
  - intros e i p [<-|He]; simpl; [|eauto].
    intro E. eapply waiting_ok_mono; [|eapply H; eauto]. lra.
Qed.

Lemma times_inv_proc n p s :
  times_inv s ->
  match p with PBus b f => bus_times_ok (now s) b f | _ => True end ->
  times_inv (set_proc n p s).
Proof.
  intros [] H. constructor; simpl; auto. now apply all_buses_set.
Qed.

Lemma times_inv_stop k st s :
  times_inv s -> (forall p, In p (items (queue st)) -> waiting_ok (now s) p) ->
  times_inv (update_stop k st s).
Proof.
  intros [] H. constructor; simpl; auto.
  intros k' st' p. rewrite Dict.get_set.
  destruct (String.eqb k' k); [|eauto].
  intro E. injection E as <-. auto.
Qed.

Lemma list_remove_In p l r x : list_remove p l = Some r -> In x r -> In x l.
Proof.
  revert r. induction l as [|q l IH]; simpl; intros r H; [discriminate|].
  destruct (String.eqb _ _); [injection H as <-; auto|].
  destruct (list_remove p l); [|discriminate]. injection H as <-.
  intros [<-|Hx]; eauto.
Qed.

Lemma alight_loop_spec t al onb done rest :
  alight_loop t al onb = Some (done, rest) ->
  done = map (set_alight_time t) al /\ forall x, In x rest -> In x onb.
Proof.
  revert onb done rest. induction al as [|p al IH]; simpl; intros onb done rest H.
  - injection H as <- <-. auto.
  - destruct (list_remove p onb) as [onb'|] eqn:E; [|discriminate].
    destruct (alight_loop t al onb') as [[d r]|] eqn:E'; [|discriminate].
    injection H as <- <-. destruct (IH _ _ _ E') as [-> Hr].
    split; [reflexivity|]. intros x Hx. eapply list_remove_In; eauto.
Qed.

Ltac times_wrap :=
  repeat match goal with
    | |- times_inv (set_active _ _) => apply times_inv_active
    | |- times_inv (set_metrics _ _) => apply times_inv_metrics
    | |- times_inv (set_rnd _ _) => apply times_inv_rnd
    | |- times_inv (set_np_rnd _ _) => apply times_inv_np_rnd
    | |- times_inv (emit _ _) => apply times_inv_emit
    | |- times_inv (set_trace _ _) => apply times_inv_trace
    | |- times_inv (schedule _ _ _ _) => apply times_inv_schedule
    | |- times_inv (set_proc _ _ _) => apply times_inv_proc
    | |- times_inv (update_stop _ _ _) => apply times_inv_stop
    | |- times_inv (set_sent _ _) => apply times_inv_sent
    end.

Lemma alighted_from_onboard T q :
  onboard_ok T q -> alighted_ok (set_alight_time T q).
Proof.
  intros (b & B & A & L & _). exists b, T. simpl. auto.
Qed.

Lemma boarded_from_waiting T p :
  waiting_ok T p -> onboard_ok T (set_board_time T p).
Proof.
  intros (A & _ & N). exists T. simpl. repeat split; auto. lra.
Qed.

Lemma alight_loop_times T b f k al onb :
  bus_times_ok T b f ->
  alight_loop T (filter (fun p => String.eqb (destination p) k) (onboard b))
    (onboard b) = Some (al, onb) ->
  bus_times_ok T (set_onboard onb b) (set_visit k al f).
Proof.
  intros [BO _] E. apply alight_loop_spec in E. destruct E as [-> Hr].
  split; simpl.
  - intros p Hp. auto.
  - intros p Hp. apply in_map_iff in Hp. destruct Hp as (q & <- & Hq).
    apply filter_In in Hq. apply alighted_from_onboard. apply BO, Hq.
Qed.

Lemma times_inv_step s s' :
  Reachable s -> times_inv s -> step s = Running s' -> times_inv s'.
Proof.
  intros R I H. step_cases H R.
  all: try match goal with
         | P : heappop (heap _) = Some _ |- _ =>
             pose proof (proj2 (heappop_In _ _ _ _ P) (or_introl eq_refl)) as InE;
             destruct (times_inv_pop _ _ _ I P) as [L I']
         end.
  all: times_wrap; try assumption; try exact Logic.I; try reflexivity;
    try discriminate.
  all: try apply travel_time_floor.
  all: try match goal with
         | B : nth_error (procs _) _ = Some (PBus _ _) |- _ =>
             pose proof (ti_bus _ I _ _ _ B) as BT
         end.
  all: try match goal with
         | E : alight_loop _ _ _ = Some _ |- _ =>
             pose proof (alight_loop_times _ _ _ _ _ _ BT E) as BT'
         end.
  all: try assumption.
  all: try (destruct BT as [BO BA]; split; simpl; assumption).
  all: simpl.
  - apply (proj2 BT'). now left.
  - intros o Ho. apply in_app_or in Ho. destruct Ho as [Ho|[<-|[<-|Ho]]].
    + apply in_rev, in_map_iff in Ho. destruct Ho as (q & <- & Hq).
      apply (proj2 BT'). now right.
    + apply (proj2 BT'). now left.
    + exact Logic.I.
    + now apply (ti_trace _ I).
  - apply (proj2 BT'). now left.
  - intros o Ho. apply in_app_or in Ho. destruct Ho as [Ho|[<-|[<-|Ho]]].
    + apply in_rev, in_map_iff in Ho. destruct Ho as (q & <- & Hq).
      apply (proj2 BT'). now right.
    + apply (proj2 BT'). now left.
    + exact Logic.I.
    + now apply (ti_trace _ I).
  - intros q Hq. eapply (ti_queue _ I); eauto.
    match goal with E : items _ = _ |- _ => rewrite E end. now right.
  - intros i q E. injection E as _ <-. eapply (ti_queue _ I); eauto.
    match goal with E : items _ = _ |- _ => rewrite E end. now left.
  - destruct BT as [BO BA]. split; simpl; [|assumption].
    intros q Hq. apply in_app_or in Hq. destruct Hq as [Hq|[<-|[]]]; auto.
    apply boarded_from_waiting. now apply (ti_sent _ I).
  - exists (now s). split; [reflexivity|]. now apply (ti_sent _ I).
  - destruct BT as [BO BA]. split; simpl; [|assumption].
    intros q Hq. apply in_app_or in Hq. destruct Hq as [Hq|[<-|[]]]; auto.
    apply boarded_from_waiting. now apply (ti_sent _ I).
  - exists (now s). split; [reflexivity|]. now apply (ti_sent _ I).
  - intros q Hq. apply in_app_or in Hq. destruct Hq as [Hq|[<-|[]]].
    + eapply (ti_queue _ I); eauto.
    + repeat split; simpl; auto. lra.
  - intros q ->. eapply (ti_events _ I); eauto.
Qed.

Lemma times_inv_start s : run_simulation = Ok s -> times_inv s.
Proof.
  intro H. apply run_simulation_ok in H. destruct H. constructor.
  - intros e He. rewrite setup_now0. auto.
  - intros k st p G. apply setup_stops0 in G. subst. intros [].
  - intros e i p He E. destruct (setup_heap_cb0 _ He) as [C|[j [C _]]]; congruence.
  - rewrite setup_sent0. discriminate.
  - intros i b f G. apply setup_procs0 in G. destruct G as (O & _ & _ & A).
    split; [rewrite O|rewrite A]; intros p [].
  - rewrite setup_trace0. intros o [].
Qed.

Lemma Reachable_times_inv s : Reachable s -> times_inv s.
Proof.
  apply Reachable_inv.
  - apply times_inv_start.
  - apply times_inv_step.
Qed.

(** C2: the timestamps of a passenger follow virtual time.  Whoever
    boards has [arrival_time <= board_time]; whoever alights has
    [board_time <= alight_time]; this holds for every boarding and
    alighting of a run and for the passengers a bus currently carries or
    has just set down. *)
Theorem C2_timestamps_ordered :
  forall s, Reachable s ->
  (forall i p, In (ObsBoard i p) (trace s) ->
     exists bt, board_time p = Some bt /\ arrival_time p <= bt) /\
  (forall i p, In (ObsAlight i p) (trace s) ->
     exists bt at', board_time p = Some bt /\ alight_time p = Some at'
                    /\ arrival_time p <= bt /\ bt <= at') /\
  (forall i b f p, nth_error (procs s) i = Some (PBus b f) ->
     (In p (onboard b) ->
      exists bt, board_time p = Some bt /\ arrival_time p <= bt /\ bt <= now s) /\
     (In p (alighting f) ->
      exists bt at', board_time p = Some bt /\ alight_time p = Some at'
                     /\ arrival_time p <= bt /\ bt <= at')).
Proof.
  intros s R. pose proof (Reachable_times_inv s R) as I. repeat split.
  - intros i p H. exact (ti_trace _ I _ H).
  - intros i p H. exact (ti_trace _ I _ H).
  - intro H0. destruct (ti_bus _ I _ _ _ H) as [BO _].
    destruct (BO _ H0) as (bt & B & A & L & _). eauto.
  - intro H0. destruct (ti_bus _ I _ _ _ H) as [_ BA]. exact (BA _ H0).
Qed.

(** ** First in, first out *)

(** The passengers put into, and taken from, the queue of stop [k], in
    the order of the run (the history is kept newest first). *)
Fixpoint puts (k : string) (tr : list Obs) : list Passenger :=
  match tr with
  | [] => []
  | o :: tr' =>
      puts k tr' ++
      match o with
      | ObsPut k' p => if String.eqb k' k then [p] else []
      | _ => []
      end
  end.

Fixpoint takes (k : string) (tr : list Obs) : list Passenger :=
  match tr with
  | [] => []
  | o :: tr' =>
      takes k tr' ++
      match o with
      | ObsTake k' _ p => if String.eqb k' k then [p] else []
      | _ => []
      end
  end.

Definition queued (k : string) (s : State) : list Passenger :=
  match Dict.get k (stops_map s) with
  | Some st => items (queue st)
  | None => []
  end.

Definition fifo_inv (s : State) : Prop :=
  forall k, takes k (trace s) ++ queued k s = puts k (trace s).

Lemma puts_app k a b : puts k (a ++ b) = puts k b ++ puts k a.
Proof.
  induction a as [|o a IH]; simpl; [now rewrite app_nil_r|].
  now rewrite IH, app_assoc.
Qed.

Lemma takes_app k a b : takes k (a ++ b) = takes k b ++ takes k a.
Proof.
  induction a as [|o a IH]; simpl; [now rewrite app_nil_r|].
  now rewrite IH, app_assoc.
Qed.

Lemma puts_alights k n l : puts k (rev (map (ObsAlight n) l)) = [].
Proof.
  induction l as [|p l IH]; simpl; [reflexivity|].
  rewrite puts_app, IH. reflexivity.
Qed.

Lemma takes_alights k n l : takes k (rev (map (ObsAlight n) l)) = [].
Proof.
  induction l as [|p l IH]; simpl; [reflexivity|].
  rewrite takes_app, IH. reflexivity.
Qed.

Lemma fifo_inv_step s s' :
  Reachable s -> fifo_inv s -> step s = Running s' -> fifo_inv s'.
Proof.
  intros R I H. step_cases H R.
  all: intro k'; specialize (I k'); unfold queued in *; simpl.
  all: rewrite ?puts_app, ?takes_app, ?puts_alights, ?takes_alights; simpl.
  all: rewrite ?app_nil_r.
  all: try exact I.
  all: rewrite Dict.get_set, (String.eqb_sym k').
  all: match goal with
       | |- context [String.eqb ?a ?b] =>
           destruct (String.eqb_spec a b) as [<-|N]
       end.
  all: rewrite ?app_nil_r; try exact I; simpl.
  all: match goal with
       | G : Dict.get _ (stops_map _) = Some _ |- _ => rewrite G in I
       end.
  - rewrite <- app_assoc. simpl. now rewrite <- Heql.
  - now rewrite app_assoc, I.
Qed.

Lemma fifo_inv_start s : run_simulation = Ok s -> fifo_inv s.
Proof.
  intro H. apply run_simulation_ok in H. destruct H. intro k.
  rewrite setup_trace0. unfold queued. simpl.
  destruct (Dict.get k (stops_map s)) eqn:G; [|reflexivity].
  apply setup_stops0 in G. now subst.
Qed.

Lemma Reachable_fifo_inv s : Reachable s -> fifo_inv s.
Proof.
  apply Reachable_inv.
  - apply fifo_inv_start.
  - apply fifo_inv_step.
Qed.

(** C10: the blocking branch of the get is never taken.  In every state
    of a run no process waits in the get queue of a stop, and when a bus
    passes the test of its boarding loop the request it makes is served
    in the same transition: the head of the queue is removed and the
    event that hands it to the bus is scheduled at the current time. *)
Theorem C10_get_never_blocks :
  forall s, Reachable s ->
  (forall k st, Dict.get k (stops_map s) = Some st -> get_queue (queue st) = []) /\
  (forall me b f st,
     active_process s = Some me ->
     nth_error (procs s) me = Some (PBus b f) ->
     bus_pc f = L101 ->
     Dict.get (stop f) (stops_map s) = Some st ->
     (0 <? free_space f)%Z && (0 <? List.length (items (queue st)))%nat = true ->
     exists p rest s',
       items (queue st) = p :: rest /\
       step s = Running s' /\
       queued (stop f) s' = rest /\
       In {| at_time := now s + 0; priority := NORMAL; eid := next_eid s;
             callback := Resume me (Some p) |} (heap s') /\
       forall k st', Dict.get k (stops_map s') = Some st' ->
                     get_queue (queue st') = []).
Proof.
  intros s R. pose proof (Reachable_stops_ok s R) as SO. split.
  - intros k st G. exact (proj2 (proj2 SO _ _ G)).
  - intros me b f st A P L G B.
    pose proof B as B'. apply andb_true_iff in B'. destruct B' as [_ B'].
    destruct (items (queue st)) as [|p rest] eqn:E; [discriminate|].
    assert (S : step s =
                Running (set_active None
                  (emit (ObsTake (stop f) me p)
                     (schedule NORMAL 0 (Resume me (Some p))
                        (update_stop (stop f)
                           (set_queue {| items := rest; get_queue := [] |} st)
                           (set_proc me (PBus b (set_pc L102 f)) s)))))).
    { unfold step. rewrite A, P. unfold Bus_run. rewrite L.
      unfold bus_L101. rewrite G, E, B.
      rewrite (get_passenger_served me (stop f) _ st p rest); auto.
      exact (proj2 (proj2 SO _ _ G)). }
    eexists p, rest, _. split; [reflexivity|]. split; [exact S|].
    split; [|split].
    + unfold queued. simpl. now rewrite Dict.get_set_same.
    + simpl. now left.
    + intros k st' G'.
      assert (R' : Reachable _) by (eapply Reach_step; [exact R|exact S]).
      exact (proj2 (proj2 (Reachable_stops_ok _ R') _ _ G')).
Qed.

(** ** Each process has at most one wake-up in the heap *)

Definition sched_inv (s : State) : Prop :=
  forall i, (pending i (heap s) <= 1)%nat /\
            (active_process s = Some i -> pending i (heap s) = 0%nat).

Lemma pending_pop i h e r :
  heappop h = Some (e, r) ->
  pending i h = ((if resumes i e then 1 else 0) + pending i r)%nat.
Proof.
  revert e r. induction h as [|x h IH]; simpl; intros e r H; [discriminate|].
  destruct (heappop h) as [[m r']|] eqn:E.
  - specialize (IH _ _ eq_refl).
    destruct (entry_le x m); injection H as <- <-.
    + apply pending_cons.
    + rewrite !pending_cons, IH. lia.
  - injection H as <- <-. destruct h; [apply pending_cons|].
    simpl in E. destruct (heappop h) as [[? ?]|]; [|discriminate].
    destruct (entry_le _ _); discriminate.
Qed.

Lemma sched_inv_step s s' :
  Reachable s -> sched_inv s -> step s = Running s' -> sched_inv s'.
Proof.
  intros R I H. step_cases H R.
  all: intro j; specialize (I j); destruct I as [I1 I2]; simpl.
  all: try match goal with
         | P : heappop (heap _) = Some _ |- _ =>
             apply (pending_pop j) in P; unfold resumes in P
         end.
  all: rewrite ?pending_cons; unfold resumes; simpl.
  all: repeat match goal with
         | E : callback _ = _ |- _ => rewrite E in *
         | E : active_process _ = _ |- _ => rewrite E in *
         end.
  all: try (split; [lia|intro; try discriminate; lia]).
  all: try (split; [exact I1|exact I2]).
  all: try (destruct (Nat.eqb_spec n j) as [->|N];
            [rewrite (I2 eq_refl)|]; (split; [lia|discriminate])).
  destruct (Nat.eqb_spec proc j) as [E|N].
  - split; [lia|intro; lia].
  - split; [lia|intro E; congruence].
Qed.

Lemma sched_inv_start s : run_simulation = Ok s -> sched_inv s.
Proof.
  intro H. apply run_simulation_ok in H. destruct H. intro i.
  rewrite setup_pending0, setup_active0.
  split; [destruct (_ <? _)%nat; lia|discriminate].
Qed.

Lemma Reachable_sched_inv s : Reachable s -> sched_inv s.
Proof.
  apply Reachable_inv.
  - apply sched_inv_start.
  - apply sched_inv_step.
Qed.

(** The time at which a process goes on: the current time while it is
    active, otherwise the time of its wake-up. *)
Definition wakes_at (s : State) (i : nat) (P : Q -> Prop) : Prop :=
  (active_process s = Some i -> P (now s)) /\
  (forall e, In e (heap s) -> resumes i e = true -> P (at_time e)).

(** ** The queue monitor *)

(** The times of the samples recorded for stop [k]. *)
Definition sample_times (k : string) (s : State) : list Q :=
  match Dict.get k (queue_time_series (metrics s)) with
  | Some l => map fst l
  | None => []
  end.

(** The times [0, 1, ..., n-1]. *)
Definition ticks (n : nat) : list Q := map Qnat (seq 0 n).

Definition series_ok (n : nat) (s : State) : Prop :=
  forall k, In k (Dict.keys (stops_map s)) ->
  Forall2 Qeq (sample_times k s) (ticks n).

Definition mon_wakes (n : nat) (s : State) : Prop :=
  forall i, nth_error (procs s) i = Some PMon ->
  wakes_at s i (fun t => t == Qnat n).

Definition mon_unique (s : State) : Prop :=
  forall i j, nth_error (procs s) i = Some PMon ->
  nth_error (procs s) j = Some PMon -> i = j.

Definition mon_inv (s : State) : Prop :=
  exists n, series_ok n s /\ mon_wakes n s /\ mon_unique s.

Lemma ticks_S n : ticks (S n) = ticks n ++ [Qnat n].
Proof. unfold ticks. now rewrite seq_S, map_app. Qed.

Lemma Forall2_Qeq_snoc l n t :
  Forall2 Qeq l (ticks n) -> t == Qnat n -> Forall2 Qeq (l ++ [t]) (ticks (S n)).
Proof.
  intros F E. rewrite ticks_S. apply Forall2_app; [exact F|].
  constructor; [exact E|constructor].
Qed.

(** One round of the monitor appends one sample to the series of each
    stop of [stops_map]. *)
Lemma monitor_fold t (stops : Dict.t Stop) series k :
  NoDup (Dict.keys stops) ->
  (forall k' st, In (k', st) stops -> name st = k') ->
  Dict.get k (fold_left (monitor_record t) (Dict.values stops) series) =
  match Dict.get k stops with
  | Some st =>
      Some (match Dict.get k series with Some l => l | None => [] end
            ++ [(t, List.length (items (queue st)))])
  | None => Dict.get k series
  end.
Proof.
  revert series. induction stops as [|[k0 st0] stops IH]; intros series ND N;
    simpl; [reflexivity|].
  inversion ND as [|? ? NI ND']; subst.
  assert (N0 : name st0 = k0) by (apply N; now left).
  rewrite IH; [|assumption|intros; apply N; now right].
  unfold monitor_record at 1 2. rewrite N0, !Dict.get_set.
  destruct (String.eqb_spec k k0) as [->|D]; [|reflexivity].
  destruct (Dict.get k0 stops) eqn:G; [|reflexivity].
  exfalso. apply NI. apply Dict.get_keys. eauto.
Qed.

Lemma stops_keys_step s s' :
  Reachable s -> step s = Running s' ->
  Dict.keys (stops_map s') = Dict.keys (stops_map s).
Proof.
  intros R H. step_cases H R; simpl; try reflexivity.
  all: eapply Dict.keys_set_present; eassumption.
Qed.

Lemma list_set_mon n p l i :
  p <> PMon -> nth_error (list_set n p l) i = Some PMon ->
  nth_error l i = Some PMon /\ i <> n.
Proof.
  intros N H. apply nth_error_list_set_inv in H.
  destruct H as [[_ E]|[D H]]; [congruence|auto].
Qed.

Lemma mon_inv_step s s' :
  Reachable s -> mon_inv s -> step s = Running s' -> mon_inv s'.
Proof.
  intros R (n & S & W & U) H.
  pose proof (Reachable_sched_inv _ R) as SI.
  step_cases H R.
  all: try match goal with
         | M : nth_error (procs _) _ = Some PMon |- _ => fail 1
         | |- _ =>
             exists n; split; [|split];
             [ intros k Hk; apply (S k); revert Hk; simpl;
               first [ exact (fun x => x)
                     | erewrite Dict.keys_set_present by eassumption;
                       exact (fun x => x) ]
             | intros i Hi; simpl in Hi;
               repeat (apply list_set_mon in Hi; [|discriminate];
                       let D := fresh "D" in destruct Hi as [Hi D]);
               destruct (W i Hi) as [W1 W2]; split; simpl
             | intros i j Hi Hj; simpl in Hi, Hj;
               repeat (apply list_set_mon in Hi; [|discriminate];
                       destruct Hi as [Hi _]);
               repeat (apply list_set_mon in Hj; [|discriminate];
                       destruct Hj as [Hj _]);
               exact (U i j Hi Hj) ]
         end.
  all: try discriminate.
  all: try assumption.
  all: try (intros x [<-|He] Re;
            [ unfold resumes in Re; simpl in Re; try discriminate Re;
              apply Nat.eqb_eq in Re; congruence
            | exact (W2 x He Re) ]).
  all: try match goal with
         | P : heappop (heap _) = Some _ |- _ =>
             solve [ intros x Hx; apply W2;
                     apply (heappop_In _ _ _ x P); now right ]
         end.
  - (* the monitor records one sample per stop and sleeps for one unit *)
    assert (N : now s == Qnat n) by (apply (W n0); assumption).
    exists (Datatypes.S n). split; [|split].
    + intros k Hk. simpl in Hk. unfold sample_times. simpl.
      destruct SO as [ND SN].
      rewrite monitor_fold;
        [|assumption|intros k' st Hin; apply SN; now apply Dict.In_get].
      apply Dict.get_keys in Hk. destruct Hk as [st G]. rewrite G.
      rewrite map_app. simpl. apply Forall2_Qeq_snoc; [|exact N].
      assert (Sk : Forall2 Qeq (sample_times k s) (ticks n))
        by (apply (S k); apply Dict.get_keys; eauto).
      unfold sample_times in Sk.
      destruct (Dict.get k (queue_time_series (metrics s))); exact Sk.
    + intros i Hi. simpl in Hi. rewrite (U i n0 Hi Heqo0). split; simpl.
      * discriminate.
      * intros x [<-|Hx] Re; simpl.
        -- rewrite N. unfold Qnat. rewrite Nat2Z.inj_succ, <- Z.add_1_r.
           rewrite inject_Z_plus. reflexivity.
        -- exfalso. destruct (SI n0) as [_ Z0]. specialize (Z0 Heqo).
           unfold pending in Z0. apply length_zero_iff_nil in Z0.
           assert (Hf : In x (filter (resumes n0) (heap s)))
             by (apply filter_In; auto).
           rewrite Z0 in Hf. exact Hf.
    + exact U.
  - intro E. injection E as <-. apply W2.
    + apply (heappop_In _ _ _ e Heqo0). now left.
    + unfold resumes. rewrite Heqc. apply Nat.eqb_refl.
  - intro E. congruence.
Qed.

Lemma mon_inv_start s : run_simulation = Ok s -> mon_inv s.
Proof.
  intro H. apply run_simulation_ok in H. destruct H. exists 0%nat.
  split; [|split].
  - intros k _. unfold sample_times. rewrite setup_series0. constructor.
  - intros i Hi. split.
    + rewrite setup_active0. discriminate.
    + intros e He Re. unfold resumes in Re.
      destruct (setup_heap_cb0 e He) as [C|[j [C T]]].
      * rewrite C in Re. discriminate.
      * exact T.
  - intros i j Hi Hj. apply setup_mon0 in Hi, Hj. lia.
Qed.

Lemma Reachable_mon_inv s : Reachable s -> mon_inv s.
Proof.
  apply Reachable_inv.
  - apply mon_inv_start.
  - apply mon_inv_step.
Qed.

Lemma Forall2_nth_error {A B} (R0 : A -> B -> Prop) l l' i x :
  Forall2 R0 l l' -> nth_error l i = Some x ->
  exists y, nth_error l' i = Some y /\ R0 x y.
Proof.
  intro F. revert i. induction F as [|a b l l' Hab F IH]; intros [|i] H;
    simpl in *; try discriminate.
  - injection H as <-. eauto.
  - auto.
Qed.

Lemma nth_error_ticks n i y : nth_error (ticks n) i = Some y -> y = Qnat i.
Proof.
  unfold ticks. intro H. rewrite nth_error_map in H.
  destruct (nth_error (seq 0 n) i) as [j|] eqn:E; [|discriminate].
  assert (L : (i < List.length (seq 0 n))%nat)
    by (apply nth_error_Some; congruence).
  rewrite length_seq in L.
  rewrite (nth_error_nth' _ 0%nat) in E by (rewrite length_seq; exact L).
  rewrite seq_nth in E by exact L. simpl in *. congruence.
Qed.

(** C8, as the code has it: the monitor records first and sleeps
    afterwards.  Sample number [i] (counted from 0) of every stop is taken
    at virtual time [i], so the first sample is taken at time 0 and
    successive samples of a stop are one time unit apart; and a round of
    the monitor appends to the series of each stop the current time and
    the current length of its queue. *)
Theorem C8_samples_start_at_zero :
  forall s, Reachable s ->
  (forall k series i t q,
     In k (Dict.keys (stops_map s)) ->
     Dict.get k (queue_time_series (metrics s)) = Some series ->
     nth_error series i = Some (t, q) -> t == Qnat i) /\
  (forall me s' k st,
     active_process s = Some me -> nth_error (procs s) me = Some PMon ->
     step s = Running s' ->
     Dict.get k (stops_map s) = Some st ->
     Dict.get k (queue_time_series (metrics s')) =
     Some (match Dict.get k (queue_time_series (metrics s)) with
           | Some l => l
           | None => []
           end ++ [(now s, List.length (items (queue st)))])).
Proof.
  intros s R. split.
  - intros k series i t q Hk G N.
    destruct (Reachable_mon_inv s R) as (n & S & _).
    specialize (S k Hk). unfold sample_times in S. rewrite G in S.
    assert (N' : nth_error (map fst series) i = Some t)
      by (rewrite nth_error_map, N; reflexivity).
    destruct (Forall2_nth_error _ _ _ _ _ S N') as (y & Y & E).
    apply nth_error_ticks in Y. now rewrite E, Y.
  - intros me s' k st A P H G.
    destruct (Reachable_stops_ok s R) as [ND SN].
    unfold step in H. rewrite A, P in H. unfold monitor in H.
    unfold yield_timeout', yield_timeout in H. simpl in H.
    injection H as <-. simpl.
    rewrite monitor_fold;
      [|assumption|intros k' st' Hin; apply SN; now apply Dict.In_get].
    now rewrite G.
Qed.

(** ** What a transition leaves alone *)

(** The process that performs an observable action. *)
Definition owner (o : Obs) : option nat :=
  match o with
  | ObsPut _ _ => None
  | ObsTake _ i _ | ObsVisit i _ | ObsAlight i _ | ObsBoardStart i _
  | ObsBoard i _ | ObsDwell i | ObsTravel i _ => Some i
  end.

Definition by_proc (i : nat) (o : Obs) : bool :=
  match owner o with
  | Some j => (j =? i)%nat
  | None => false
  end.

(** The history of process [i] (newest first). *)
Definition events_of (i : nat) (tr : list Obs) : list Obs :=
  filter (by_proc i) tr.

(** The times at which process [i] may go on: now if it is active,
    otherwise the time of a wake-up of the heap. *)
Definition wake_time (s : State) (i : nat) (t : Q) : Prop :=
  (active_process s = Some i /\ t = now s) \/
  (exists e, In e (heap s) /\ resumes i e = true /\ t = at_time e).

Lemma events_of_alights i n l tr :
  n <> i ->
  events_of i (rev (map (ObsAlight n) l) ++ tr) = events_of i tr.
Proof.
  intro N. unfold events_of. rewrite filter_app.
  replace (filter _ (rev _)) with (@nil Obs); [reflexivity|].
  apply Nat.eqb_neq in N.
  induction l as [|p l IH]; simpl; [reflexivity|].
  rewrite filter_app, <- IH. simpl. unfold by_proc. simpl.
  now rewrite N.
Qed.

(** A transition in which process [i] does not run changes neither its
    frame nor its history, and gives it no new wake-up time. *)
Lemma step_other i s s' :
  Reachable s -> step s = Running s' -> active_process s <> Some i ->
  nth_error (procs s') i = nth_error (procs s) i /\
  events_of i (trace s') = events_of i (trace s) /\
  (forall t, wake_time s' i t -> wake_time s i t).
Proof.
  intros R H A. step_cases H R.
  all: try match goal with
         | E : active_process _ = Some ?n |- _ =>
             assert (N : n <> i) by congruence;
             pose proof (proj2 (Nat.eqb_neq n i) N) as Nb
         end.
  all: split; [|split].
  all: simpl; rewrite ?nth_error_list_set, ?Nb; try reflexivity.
  all: try (rewrite events_of_alights by assumption; simpl).
  all: unfold by_proc; simpl; rewrite ?Nb; try reflexivity.
  all: unfold wake_time; simpl; intros t [[E T]|(x & Hx & Rx & T)].
  all: try discriminate E.
  all: try (exfalso; congruence).
  all: try (right; exists x; split; [|split]; assumption).
  all: try (destruct Hx as [<-|Hx];
            [ unfold resumes in Rx; simpl in Rx; rewrite ?Nb in Rx;
              discriminate Rx
            | right; exists x; split; [|split]; assumption ]).
  all: try match goal with
         | P : heappop (heap _) = Some _ |- _ =>
             solve [ right; exists x; split;
                     [apply (heappop_In _ _ _ x P); now right
                     |split; assumption] ]
         end.
  injection E as <-. right. exists e. split; [|split].
  - apply (heappop_In _ _ _ e Heqo0). now left.
  - unfold resumes. rewrite Heqc. apply Nat.eqb_refl.
  - exact T.
Qed.

Lemma events_of_own_alights i l tr :
  events_of i (rev (map (ObsAlight i) l) ++ tr) =
  rev (map (ObsAlight i) l) ++ events_of i tr.
Proof.
  unfold events_of. rewrite filter_app. f_equal.
  induction l as [|p l IH]; simpl; [reflexivity|].
  rewrite filter_app, IH. simpl. unfold by_proc. simpl.
  now rewrite Nat.eqb_refl.
Qed.

(** A transition of a generator or of the monitor adds nothing to its
    own history, and the process does not become a bus. *)
Lemma step_not_bus i s s' :
  Reachable s -> step s = Running s' -> active_process s = Some i ->
  (forall b f, nth_error (procs s) i <> Some (PBus b f)) ->
  events_of i (trace s') = events_of i (trace s) /\
  (forall b f, nth_error (procs s') i <> Some (PBus b f)).
Proof.
  intros R H A NB. step_cases H R.
  all: try congruence.
  all: assert (n = i) by congruence; subst n.
  all: try (exfalso; eapply NB; eassumption).
  all: split; [reflexivity|].
  all: simpl; intros b f; rewrite ?nth_error_list_set, ?Nat.eqb_refl.
  all: try match goal with
         | E : nth_error (procs _) _ = Some _ |- _ => rewrite E
         end.
  all: try discriminate.
  all: apply NB.
Qed.

Lemma wake_after_yield s s' i ent t :
  sched_inv s -> active_process s = Some i ->
  active_process s' = None -> heap s' = ent :: heap s ->
  wake_time s' i t -> t = at_time ent.
Proof.
  intros SI A A' Hh [[E _]|(x & Hx & Rx & ->)]; [congruence|].
  rewrite Hh in Hx. destruct Hx as [<-|Hx]; [reflexivity|].
  exfalso. destruct (SI i) as [_ Z0]. specialize (Z0 A).
  unfold pending in Z0. apply length_zero_iff_nil in Z0.
  assert (Hf : In x (filter (resumes i) (heap s))) by (apply filter_In; auto).
  rewrite Z0 in Hf. exact Hf.
Qed.

Lemma wake_while_active s s' i t :
  sched_inv s -> active_process s = Some i ->
  heap s' = heap s -> now s' = now s ->
  wake_time s' i t -> t = now s.
Proof.
  intros SI A Hh Hn [[_ ->]|(x & Hx & Rx & ->)]; [exact Hn|].
  rewrite Hh in Hx.
  exfalso. destruct (SI i) as [_ Z0]. specialize (Z0 A).
  unfold pending in Z0. apply length_zero_iff_nil in Z0.
  assert (Hf : In x (filter (resumes i) (heap s))) by (apply filter_In; auto).
  rewrite Z0 in Hf. exact Hf.
Qed.

(** ** Invariants of one bus and its history *)

Section BusLocal.
(** [T] speaks of the history of a process, [L] ties the frame of a
    bus to its history and its wake-up times. *)
Variable T : list Obs -> Prop.
Variable L : list Obs -> (Q -> Prop) -> Bus -> BusFrame -> Prop.

Hypothesis L_wake :
  forall ev (w w' : Q -> Prop) b f,
  (forall t, w' t -> w t) -> L ev w b f -> L ev w' b f.

Hypothesis T_start : T [].
Hypothesis L_start :
  forall w b f, bus_pc f = L86 -> L [] w b f.

Hypothesis self_step :
  forall s s' i b f,
  Reachable s -> active_process s = Some i ->
  nth_error (procs s) i = Some (PBus b f) ->
  step s = Running s' ->
  T (events_of i (trace s)) ->
  L (events_of i (trace s)) (wake_time s i) b f ->
  T (events_of i (trace s')) /\
  forall b' f', nth_error (procs s') i = Some (PBus b' f') ->
                L (events_of i (trace s')) (wake_time s' i) b' f'.

Definition local_inv (s : State) : Prop :=
  (forall i, T (events_of i (trace s))) /\
  (forall i b f, nth_error (procs s) i = Some (PBus b f) ->
                 L (events_of i (trace s)) (wake_time s i) b f).

Lemma local_inv_step s s' :
  Reachable s -> local_inv s -> step s = Running s' -> local_inv s'.
Proof.
  intros R [IT IL] H.
  assert (C : forall i,
             T (events_of i (trace s')) /\
             forall b f, nth_error (procs s') i = Some (PBus b f) ->
                         L (events_of i (trace s')) (wake_time s' i) b f).
  { intro i.
    assert (D : active_process s = Some i \/ active_process s <> Some i).
    { destruct (active_process s) as [a|]; [|right; discriminate].
      destruct (Nat.eq_dec a i); [left|right]; congruence. }
    destruct D as [A|A].
    - destruct (nth_error (procs s) i) as [[b f|g| |]|] eqn:P.
      + eapply self_step; eauto.
      + destruct (step_not_bus i s s' R H A) as [E NB]; [congruence|].
        rewrite E. split; [apply IT|]. intros b' f' P'. now apply NB in P'.
      + destruct (step_not_bus i s s' R H A) as [E NB]; [congruence|].
        rewrite E. split; [apply IT|]. intros b' f' P'. now apply NB in P'.
      + destruct (step_not_bus i s s' R H A) as [E NB]; [congruence|].
        rewrite E. split; [apply IT|]. intros b' f' P'. now apply NB in P'.
      + destruct (step_not_bus i s s' R H A) as [E NB]; [congruence|].
        rewrite E. split; [apply IT|]. intros b' f' P'. now apply NB in P'.
    - destruct (step_other i s s' R H A) as (EP & EE & EW).
      rewrite EE. split; [apply IT|]. intros b f P. rewrite EP in P.
      eapply L_wake; [exact EW|]. now apply IL. }
  split; intros i; [apply C|]. intros b f. apply C.
Qed.

Lemma local_inv_start s : run_simulation = Ok s -> local_inv s.
Proof.
  intro H. apply run_simulation_ok in H. destruct H. split.
  - intro i. rewrite setup_trace0. exact T_start.
  - intros i b f P. rewrite setup_trace0. apply L_start.
    apply setup_procs0 in P. apply P.
Qed.

Lemma Reachable_local_inv s : Reachable s -> local_inv s.
Proof.
  apply Reachable_inv.
  - apply local_inv_start.
  - apply local_inv_step.
Qed.
End BusLocal.

(** ** Boarding bursts *)

(** In the history of one bus (newest first): the time at which the
    current boarding loop began, and the passenger that boarded last in
    it. *)
Fixpoint burst_start (ev : list Obs) : option Q :=
  match ev with
  | [] => None
  | ObsBoardStart _ t :: _ => Some t
  | _ :: ev' => burst_start ev'
  end.

Fixpoint burst_last (ev : list Obs) : option Passenger :=
  match ev with
  | [] => None
  | ObsBoardStart _ _ :: _ => None
  | ObsBoard _ p :: _ => Some p
  | _ :: ev' => burst_last ev'
  end.

(** The time at which the next passenger of the current boarding loop
    boards: the time at which the loop began, or the board time of the
    passenger before plus [BOARDING_TIME], one addition of the clock
    ([env.now + delay] in [Timeout]); events that succeed at once add a
    delay of 0. *)
Definition next_board (ev : list Obs) (t : Q) : Prop :=
  match burst_last ev with
  | None => exists t0, burst_start ev = Some t0 /\ t == t0
  | Some q =>
      exists bq, board_time q = Some bq /\
                 t == bq + BOARDING_TIME cfg /\ 0 <= BOARDING_TIME cfg
  end.

(** Every boarding of the history happened [BOARDING_TIME] after the
    previous one of its burst, the first one when the burst began. *)
Fixpoint bursts_ok (ev : list Obs) : Prop :=
  match ev with
  | [] => True
  | o :: ev' =>
      match o with
      | ObsBoard _ p => exists bt, board_time p = Some bt /\ next_board ev' bt
      | _ => True
      end /\ bursts_ok ev'
  end.

Definition burst_frame (ev : list Obs) (w : Q -> Prop) (b : Bus) (f : BusFrame)
  : Prop :=
  match bus_pc f with
  | L101 | L102 => forall t, w t -> next_board ev t
  | _ => True
  end.

Lemma next_board_eq ev t t' : t == t' -> next_board ev t -> next_board ev t'.
Proof.
  unfold next_board. intros E H. destruct (burst_last ev).
  - destruct H as (bq & A & B & C). exists bq. rewrite <- E. auto.
  - destruct H as (t0 & A & B). exists t0. rewrite <- E. auto.
Qed.

Lemma L_wake_burst ev (w w' : Q -> Prop) b f :
  (forall t, w' t -> w t) -> burst_frame ev w b f -> burst_frame ev w' b f.
Proof.
  unfold burst_frame. intros W H.
  destruct (bus_pc f); auto.
Qed.

Definition is_alight (o : Obs) : Prop :=
  match o with ObsAlight _ _ => True | _ => False end.

Lemma alights_are_alights i l : Forall is_alight (rev (map (ObsAlight i) l)).
Proof.
  apply Forall_forall. intros o H. apply in_rev, in_map_iff in H.
  destruct H as (p & <- & _). exact Logic.I.
Qed.

Lemma burst_alights pre ev :
  Forall is_alight pre ->
  burst_start (pre ++ ev) = burst_start ev /\
  burst_last (pre ++ ev) = burst_last ev /\
  (bursts_ok ev -> bursts_ok (pre ++ ev)).
Proof.
  induction 1 as [|o pre Ho F IH]; simpl; [auto|].
  destruct o; try contradiction. tauto.
Qed.

Lemma next_board_alights pre ev t :
  Forall is_alight pre -> next_board ev t -> next_board (pre ++ ev) t.
Proof.
  intros F H. unfold next_board in *.
  destruct (burst_alights pre ev F) as (A & B & _). now rewrite A, B.
Qed.

Lemma events_of_cons i o tr :
  events_of i (o :: tr) =
  if by_proc i o then o :: events_of i tr else events_of i tr.
Proof. reflexivity. Qed.

Ltac own_proc P :=
  match goal with
  | E : nth_error (procs _) _ = Some (PBus ?b0 ?f0) |- _ =>
      rewrite P in E; injection E as <- <-
  end.

(** Normal form of the history and of the frame of the bus that made
    the transition. *)
Ltac own_history :=
  repeat match goal with
    | |- context [trace ?X] =>
        lazymatch X with
        | context [set_active] => idtac
        | context [set_proc] => idtac
        end;
        let t := eval simpl in (trace X) in change (trace X) with t
    end;
  rewrite ?events_of_own_alights, ?events_of_cons;
  cbv beta iota delta [by_proc owner]; rewrite ?Nat.eqb_refl.

Ltac norm_now :=
  cbn [at_time];
  repeat match goal with
    | |- context [now ?X] =>
        lazymatch X with context [set_proc] => idtac end;
        let t := eval simpl in (now X) in change (now X) with t
    end.

Ltac own_frame P P' :=
  simpl in P'; rewrite ?nth_error_list_set, ?Nat.eqb_refl, ?P in P';
  first [discriminate P' | injection P' as <- <-].

Lemma burst_self_step s s' i b f :
  Reachable s -> active_process s = Some i ->
  nth_error (procs s) i = Some (PBus b f) ->
  step s = Running s' ->
  bursts_ok (events_of i (trace s)) ->
  burst_frame (events_of i (trace s)) (wake_time s i) b f ->
  bursts_ok (events_of i (trace s')) /\
  forall b' f', nth_error (procs s') i = Some (PBus b' f') ->
                burst_frame (events_of i (trace s')) (wake_time s' i) b' f'.
Proof.
  intros R A P H IT IL.
  pose proof (Reachable_sched_inv _ R) as SI.
  assert (W0 : wake_time s i (now s)) by (left; auto).
  step_cases H R.
  all: try congruence.
  all: assert (n = i) by congruence; subst n.
  all: try (rewrite P in *; discriminate).
  all: own_proc P.
  all: own_history.
  all: (split; [|intros b' f' P'; own_frame P P'; unfold burst_frame; simpl]).
  all: try exact Logic.I.
  all: try exact IT.
  all: try (split; [exact Logic.I|exact IT]).
  all: try (apply burst_alights; [apply alights_are_alights|];
            split; [exact Logic.I|]; split; [exact Logic.I|exact IT]).
  all: unfold burst_frame in IL;
    match goal with E : bus_pc _ = _ |- _ => rewrite E in IL end;
    try specialize (IL _ W0).
  - (* line 99: the loop begins now *)
    intros t Wt.
    apply (wake_while_active s) in Wt; [|exact SI|exact Heqo|reflexivity..].
    unfold next_board. simpl. exists (now s). split; [reflexivity|].
    now rewrite Wt.
  - (* line 102: the get is served at once, with a delay of 0 *)
    intros t Wt.
    eapply (wake_after_yield s) in Wt;
      [|exact SI|exact Heqo|reflexivity|reflexivity].
    apply (next_board_eq _ (now s)); [|exact IL].
    rewrite Wt. norm_now. lra.
  - simpl. split; [|exact IT]. exists (now s). auto.
  - simpl. split; [|exact IT]. exists (now s). auto.
  - (* line 118: the next boarding is [BOARDING_TIME] later *)
    intros t Wt.
    eapply (wake_after_yield s) in Wt;
      [|exact SI|exact Heqo|reflexivity|reflexivity].
    unfold next_board. simpl. exists (now s). split; [reflexivity|].
    split; [rewrite Wt; norm_now; reflexivity|].
    now apply Qlt_bool_false.
Qed.

Lemma Reachable_bursts s :
  Reachable s ->
  local_inv bursts_ok burst_frame s.
Proof.
  apply Reachable_local_inv.
  - apply L_wake_burst.
  - exact Logic.I.
  - intros w b f E. unfold burst_frame. now rewrite E.
  - apply burst_self_step.
Qed.

Lemma bursts_ok_at ev newer i p older :
  bursts_ok ev -> ev = newer ++ ObsBoard i p :: older ->
  exists bt, board_time p = Some bt /\ next_board older bt.
Proof.
  intros H ->. induction newer as [|o newer IH]; simpl in H.
  - apply H.
  - apply IH, H.
Qed.

(** C6, as the code has it: boarding is served one passenger at a time.
    Take any boarding of a bus in a run, and let [older] be the history
    of that bus before it.  If the passenger is the first of its boarding
    loop, it boards at the time [t0] at which the loop began (line 99);
    otherwise it boards at the [board_time] of the passenger before it
    plus [BOARDING_TIME], and [BOARDING_TIME] is not negative: the clock
    takes one addition per passenger, which is what the code computes
    also in floating point, where the sum [t0 + n * BOARDING_TIME] is
    met only up to rounding.  Each boarding (line 102 to 118) ends with
    its own timeout of [BOARDING_TIME]. *)
Theorem C6_boarding_one_at_a_time :
  forall s, Reachable s ->
  (forall i p newer older,
     events_of i (trace s) = newer ++ ObsBoard i p :: older ->
     exists bt,
       board_time p = Some bt /\
       match burst_last older with
       | None => exists t0, burst_start older = Some t0 /\ bt == t0
       | Some q =>
           exists bq, board_time q = Some bq /\
                      bt == bq + BOARDING_TIME cfg /\ 0 <= BOARDING_TIME cfg
       end) /\
  (forall me b f p st,
     active_process s = Some me ->
     nth_error (procs s) me = Some (PBus b f) ->
     bus_pc f = L102 -> sent s = Some p ->
     Dict.get (stop f) (stops_map s) = Some st ->
     Qlt_bool (BOARDING_TIME cfg) 0 = false ->
     exists s' b' f',
       step s = Running s' /\
       nth_error (procs s') me = Some (PBus b' f') /\
       onboard b' = onboard b ++ [set_board_time (now s) p] /\
       boarded f' = (boarded f + 1)%nat /\ bus_pc f' = L101 /\
       active_process s' = None /\
       heap s' = {| at_time := now s + BOARDING_TIME cfg; priority := NORMAL;
                    eid := next_eid s; callback := Resume me None |} :: heap s).
Proof.
  intros s R. split.
  - intros i p newer older E.
    destruct (Reachable_bursts s R) as [IT _].
    exact (bursts_ok_at _ _ _ _ _ (IT i) E).
  - intros me b f p st A P L S G D.
    eexists _, _, _. split.
    + unfold step. rewrite A, P. unfold Bus_run. rewrite L.
      unfold bus_L102. rewrite S, G. unfold yield_timeout', yield_timeout.
      rewrite D. reflexivity.
    + simpl. rewrite (nth_error_list_set_same _ _ _ _ P). auto 10.
Qed.

(** ** Minimum dwell *)

(** In the history of one bus (newest first): how many actions of a kind
    the bus has made since it arrived at the stop of its current visit. *)
Fixpoint visit_count (kind : Obs -> bool) (ev : list Obs) : nat :=
  match ev with
  | [] => 0
  | ObsVisit _ _ :: _ => 0
  | o :: ev' => (if kind o then 1 else 0) + visit_count kind ev'
  end.

Definition alighted_here : list Obs -> nat :=
  visit_count (fun o => match o with ObsAlight _ _ => true | _ => false end).
Definition boarded_here : list Obs -> nat :=
  visit_count (fun o => match o with ObsBoard _ _ => true | _ => false end).
Definition dwelt_here : list Obs -> nat :=
  visit_count (fun o => match o with ObsDwell _ => true | _ => false end).

(** What the claim says of a visit that is over. *)
Definition dwell_iff_idle (ev : list Obs) : Prop :=
  (dwelt_here ev = 1%nat <-> boarded_here ev = 0%nat /\ alighted_here ev = 0%nat)
  /\ (dwelt_here ev <= 1)%nat.

(** Whenever the bus left a stop, the visit had dwelt if and only if
    nobody had boarded or alighted. *)
Fixpoint dwells_ok (ev : list Obs) : Prop :=
  match ev with
  | [] => True
  | o :: ev' =>
      match o with
      | ObsTravel _ _ => dwell_iff_idle ev'
      | _ => True
      end /\ dwells_ok ev'
  end.

Definition dwell_frame (ev : list Obs) (w : Q -> Prop) (b : Bus) (f : BusFrame)
  : Prop :=
  match bus_pc f with
  | L99 =>
      alighted_here ev = List.length (alighting f) /\
      boarded_here ev = 0%nat /\ dwelt_here ev = 0%nat
  | L101 | L102 | L121 =>
      alighted_here ev = List.length (alighting f) /\
      boarded_here ev = boarded f /\ dwelt_here ev = 0%nat
  | L125 => dwell_iff_idle ev
  | _ => True
  end.

Lemma L_wake_dwell ev (w w' : Q -> Prop) b f :
  (forall t, w' t -> w t) -> dwell_frame ev w b f -> dwell_frame ev w' b f.
Proof. intros _ H. exact H. Qed.

Lemma dwell_alights pre ev :
  Forall is_alight pre ->
  alighted_here (pre ++ ev) = (List.length pre + alighted_here ev)%nat /\
  boarded_here (pre ++ ev) = boarded_here ev /\
  dwelt_here (pre ++ ev) = dwelt_here ev /\
  (dwells_ok ev -> dwells_ok (pre ++ ev)).
Proof.
  induction 1 as [|o pre Ho F IH]; simpl; [auto|].
  destruct o; try contradiction.
  destruct IH as (A & B & C & D).
  unfold alighted_here, boarded_here, dwelt_here in *. simpl.
  rewrite A, B, C. repeat split; auto.
Qed.

Lemma dwell_self_step s s' i b f :
  Reachable s -> active_process s = Some i ->
  nth_error (procs s) i = Some (PBus b f) ->
  step s = Running s' ->
  dwells_ok (events_of i (trace s)) ->
  dwell_frame (events_of i (trace s)) (wake_time s i) b f ->
  dwells_ok (events_of i (trace s')) /\
  forall b' f', nth_error (procs s') i = Some (PBus b' f') ->
                dwell_frame (events_of i (trace s')) (wake_time s' i) b' f'.
Proof.
  intros R A P H IT IL.
  step_cases H R.
  all: try congruence.
  all: assert (n = i) by congruence; subst n.
  all: try (rewrite P in *; discriminate).
  all: own_proc P.
  all: own_history.
  all: (split; [|intros b' f' P'; own_frame P P'; unfold dwell_frame; simpl]).
  all: try exact Logic.I.
  all: try exact IT.
  all: try (split; [exact Logic.I|exact IT]).
  all: unfold dwell_frame in IL;
    match goal with E : bus_pc _ = _ |- _ => rewrite E in IL end.
  all: try (destruct (dwell_alights (rev (map (ObsAlight i) l1))
                        (ObsAlight i p1 :: ObsVisit i s0 :: events_of i (trace s))
                        (alights_are_alights i l1)) as (DA & DB & DC & DD)).
  all: try exact IL.
  all: try (split; [exact IL|exact IT]).
  all: try (apply DD; simpl; repeat split; exact IT).
  all: try rewrite DA, DB, DC.
  all: unfold dwell_iff_idle, alighted_here, boarded_here, dwelt_here in *;
    simpl; rewrite ?length_rev, ?length_map.
  all: try (repeat split; try reflexivity; lia).
  all: match goal with
       | C : _ && _ = _ |- _ =>
           first [ apply andb_true_iff in C | apply andb_false_iff in C ];
           rewrite !Nat.eqb_eq in C || rewrite !Nat.eqb_neq in C
       end.
  all: lia.
Qed.

Lemma Reachable_dwells s :
  Reachable s -> local_inv dwells_ok dwell_frame s.
Proof.
  apply Reachable_local_inv.
  - apply L_wake_dwell.
  - exact Logic.I.
  - intros w b f E. unfold dwell_frame. now rewrite E.
  - apply dwell_self_step.
Qed.

Lemma dwells_ok_at ev newer i t older :
  dwells_ok ev -> ev = newer ++ ObsTravel i t :: older -> dwell_iff_idle older.
Proof.
  intros H ->. induction newer as [|o newer IH]; simpl in H.
  - apply H.
  - apply IH, H.
Qed.

(** C4: the minimum dwell is taken exactly by the idle visits.  Whenever
    a bus leaves a stop (it draws the travel time of the next leg), the
    visit it ends contains one minimum-dwell suspension if nobody
    boarded and nobody alighted during it, and none otherwise.  At the
    test of line 121 the counters of the code are those of the visit,
    and the transition suspends the bus for [MIN_DWELL] exactly when
    both are zero. *)
Theorem C4_min_dwell_iff_idle :
  forall s, Reachable s ->
  (forall i t newer older,
     events_of i (trace s) = newer ++ ObsTravel i t :: older ->
     (dwelt_here older = 1%nat <->
      boarded_here older = 0%nat /\ alighted_here older = 0%nat) /\
     (dwelt_here older <= 1)%nat) /\
  (forall me b f,
     active_process s = Some me ->
     nth_error (procs s) me = Some (PBus b f) ->
     bus_pc f = L121 ->
     Qlt_bool (MIN_DWELL cfg) 0 = false ->
     boarded_here (events_of me (trace s)) = boarded f /\
     alighted_here (events_of me (trace s)) = List.length (alighting f) /\
     exists s',
       step s = Running s' /\
       (boarded f = 0%nat /\ List.length (alighting f) = 0%nat ->
        active_process s' = None /\
        heap s' = {| at_time := now s + MIN_DWELL cfg; priority := NORMAL;
                     eid := next_eid s; callback := Resume me None |} :: heap s) /\
       (~ (boarded f = 0%nat /\ List.length (alighting f) = 0%nat) ->
        active_process s' = Some me /\ heap s' = heap s)).
Proof.
  intros s R. destruct (Reachable_dwells s R) as [IT IL]. split.
  - intros i t newer older E. exact (dwells_ok_at _ _ _ _ _ (IT i) E).
  - intros me b f A P L D.
    specialize (IL me b f P). unfold dwell_frame in IL. rewrite L in IL.
    destruct IL as (IA & IB & _). split; [exact IB|]. split; [exact IA|].
    unfold step. rewrite A, P. unfold Bus_run. rewrite L. unfold bus_L121.
    destruct ((boarded f =? 0)%nat && (List.length (alighting f) =? 0)%nat)
      eqn:C.
    + unfold yield_timeout', yield_timeout. rewrite D. simpl.
      eexists. split; [reflexivity|]. simpl. split; [auto|].
      intro N. exfalso. apply N.
      apply andb_true_iff in C. now rewrite !Nat.eqb_eq in C.
    + simpl. eexists. split; [reflexivity|]. simpl. split; [|auto].
      intros [Z1 Z2]. rewrite Z1, Z2 in C. discriminate.
Qed.

(** ** Travel time and destinations *)

(** C5: the travel time of a leg is [max(0.5, draw)], hence at least 0.5
    whatever the draw, negative ones included; this is the value the bus
    stores at line 125, and every travel time of a run obeys the bound. *)
Theorem C5_travel_time_floor :
  (forall draw,
     travel_time draw = py_max (1 # 2) draw /\ 1 # 2 <= travel_time draw /\
     (draw <= 1 # 2 -> travel_time draw = 1 # 2) /\
     (1 # 2 < draw -> travel_time draw = draw)) /\
  (forall s me b f,
     active_process s = Some me ->
     nth_error (procs s) me = Some (PBus b f) ->
     bus_pc f = L125 ->
     exists s' f',
       step s = Running s' /\
       nth_error (procs s') me = Some (PBus b f') /\
       bus_pc f' = L127 /\
       travel_t f' =
         travel_time (random_gauss (rnd s) (travel_mean (route_info b))
                        (travel_sd (route_info b))) /\
       1 # 2 <= travel_t f') /\
  (forall s, Reachable s ->
     forall i t, In (ObsTravel i t) (trace s) -> 1 # 2 <= t).
Proof.
  split; [|split].
  - intro draw. split; [reflexivity|]. split; [apply travel_time_floor|].
    unfold travel_time, py_max. split; intro H.
    + apply Qlt_bool_false in H. now rewrite H.
    + apply Qlt_bool_iff in H. now rewrite H.
  - intros s me b f A P L. eexists _, _. split.
    + unfold step. rewrite A, P. unfold Bus_run. rewrite L. reflexivity.
    + simpl. rewrite (nth_error_list_set_same _ _ _ _ P).
      split; [reflexivity|]. split; [reflexivity|]. split; [reflexivity|].
      apply travel_time_floor.
  - intros s R i t H.
    exact (ti_trace _ (Reachable_times_inv s R) _ H).
Qed.

Lemma list_index_lt x l i : list_index x l = Some i -> (i < List.length l)%nat.
Proof.
  revert i. induction l as [|y l IH]; simpl; intros i H; [discriminate|].
  destruct (String.eqb y x); [injection H as <-; lia|].
  destruct (list_index x l); [|discriminate]. injection H as <-.
  specialize (IH _ eq_refl). lia.
Qed.

(** The destination of a passenger created at the stop named
    [stop_name], found at index [i] of the route, and the passenger that
    the generator puts into the queue. *)
Lemma generated_passenger_destination :
  (forall draws stop_name route i,
     list_index stop_name route = Some i ->
     ((i + 1 < List.length route)%nat ->
      (random_below draws (List.length (skipn (i + 1) route))
       < List.length (skipn (i + 1) route))%nat ->
      exists dest,
        choose_destination draws stop_name route = Ok (dest, 1%nat) /\
        nth_error (skipn (i + 1) route)
          (random_below draws (List.length (skipn (i + 1) route))) = Some dest /\
        In dest (skipn (i + 1) route)) /\
     (~ (i + 1 < List.length route)%nat ->
      S i = List.length route /\
      choose_destination draws stop_name route = Ok (stop_name, 0%nat))) /\
  (forall s me g st dest used,
     Reachable s ->
     active_process s = Some me ->
     nth_error (procs s) me = Some (PGen g) ->
     gen_pc g = G150 ->
     Dict.get (gen_stop g) (stops_map s) = Some st ->
     choose_destination (rnd s) (name st) (route_stops g) = Ok (dest, used) ->
     exists s' p,
       step s = Running s' /\
       queued (gen_stop g) s' = queued (gen_stop g) s ++ [p] /\
       origin p = name st /\ name st = gen_stop g /\
       destination p = dest /\ arrival_time p = now s /\
       board_time p = None /\ alight_time p = None).
Proof.
  split.
  - intros draws stop_name route i E. unfold choose_destination. rewrite E.
    split.
    + intros L B. apply Nat.ltb_lt in L. rewrite L.
      destruct (nth_error _ _) as [dest|] eqn:N.
      * exists dest. split; [reflexivity|]. split; [reflexivity|].
        eapply nth_error_In; eauto.
      * apply nth_error_None in N. lia.
    + intro L. apply list_index_lt in E. split; [lia|].
      apply Nat.ltb_nlt in L. now rewrite L.
  - intros s me g st dest used R A P L G C.
    destruct (Reachable_stops_ok s R) as [_ SN].
    eexists _, _. split.
    + unfold step. rewrite A, P. unfold passenger_generator. rewrite L.
      unfold gen_G150. rewrite G, C.
      rewrite (add_passenger_eq _ _ _ st) by exact G. reflexivity.
    + unfold queued. simpl. rewrite Dict.get_set_same, G. simpl.
      split; [reflexivity|]. split; [reflexivity|].
      split; [apply (SN _ _ G)|]. auto.
Qed.

(** ** Configuration errors *)

(** Every stop of every route is in the map built at lines 173-176. *)
Definition stops_complete (m : Dict.t Stop) : Prop :=
  forall r, In r (Dict.values (ROUTES cfg)) ->
  forall k, In k (stops r) -> exists st, Dict.get k m = Some st.

Lemma create_stops_complete : stops_complete (create_stops (ROUTES cfg)).
Proof.
  unfold stops_complete, create_stops.
  generalize (Dict.values (ROUTES cfg)) as rs.
  assert (keep : forall ks m k,
            (exists st, Dict.get k m = Some st) ->
            exists st, Dict.get k
              (fold_left (fun m k => Dict.set k (new_stop k) m) ks m) = Some st).
  { induction ks as [|k0 ks IH]; simpl; intros m k H; [exact H|].
    apply IH. rewrite Dict.get_set. destruct (String.eqb k k0); eauto. }
  assert (add : forall ks m k, In k ks ->
            exists st, Dict.get k
              (fold_left (fun m k => Dict.set k (new_stop k) m) ks m) = Some st).
  { induction ks as [|k0 ks IH]; simpl; intros m k H; [contradiction|].
    destruct H as [<-|H]; [|auto].
    apply keep. rewrite Dict.get_set_same. eauto. }
  assert (keeps : forall rs m k,
            (exists st, Dict.get k m = Some st) ->
            exists st, Dict.get k
              (fold_left (fun m r => fold_left
                 (fun m k => Dict.set k (new_stop k) m) (stops r) m) rs m)
              = Some st).
  { induction rs as [|r rs IH]; simpl; intros m k H; [exact H|].
    apply IH, keep, H. }
  intro rs. generalize (@nil (string * Stop)).
  induction rs as [|r rs IH]; simpl; intros m r0 H k Hk; [contradiction|].
  destruct H as [<-|H].
  - apply keeps, add, Hk.
  - eapply IH; eauto.
Qed.




(** The states of [run_for] are states of the run. *)
Lemma steps_Reachable n s s' : Reachable s -> steps n s = Running s' -> Reachable s'.
Proof.
  revert s. induction n as [|n IH]; simpl; intros s R H.
  - now injection H as <-.
  - destruct (step s) as [s1| |] eqn:E; try discriminate.
    eapply IH; [|exact H]. eapply Reach_step; eauto.
Qed.

Lemma run_for_Reachable n s : run_for n = Running s -> Reachable s.
Proof.
  unfold run_for. destruct run_simulation as [s0|] eqn:E; [|discriminate].
  apply steps_Reachable. now apply Reach_start.
Qed.

(** ** The processes that the setup starts *)

(** The generator started for an entry of [ARRIVAL_RATES], if any. *)
Definition gen_of (kv : string * Q) : list Proc :=
  match find (fun r => mem (fst kv) (stops r)) (Dict.values (ROUTES cfg)) with
  | None => []
  | Some r =>
      [PGen {| gen_stop := fst kv; rate := snd kv; route_stops := stops r;
               pid := 0; gen_pc := G146 |}]
  end.

(** Bus number [i] (counted from 0) of a route. *)
Definition bus_of (rname : string) (rinfo : Route) (i : nat) : Proc :=
  PBus {| bus_id := rname ++ "-Bus-" ++ str (i + 1); route_name := rname;
          bus_stops := stops rinfo; route_info := rinfo;
          capacity := BUS_CAPACITY cfg; onboard := []; current_index := 0;
          active_minutes := 0; occupied_minutes := 0; trips_completed := 0 |}
       {| start_time := Qnat i * headway rinfo / inject_Z (num_buses rinfo);
          stop := EmptyString; alighting := []; free_space := 0; boarded := 0;
          travel_t := 0; travel_step := 0; bus_pc := L86 |}.

Definition buses_of (kv : string * Route) : list Proc :=
  map (bus_of (fst kv) (snd kv)) (seq 0 (Z.to_nat (num_buses (snd kv)))).

(** The process table, in the order of the process numbers. *)
Definition started : list Proc :=
  flat_map gen_of (ARRIVAL_RATES cfg) ++ flat_map buses_of (ROUTES cfg) ++ [PMon].

Lemma fold_result_flat_map {A B C} (g : A -> list C) (h : B -> list C)
    (f : A -> B -> Result A) l :
  (forall a x a', f a x = Ok a' -> g a' = g a ++ h x) ->
  forall a r, fold_result f l a = Ok r -> g r = g a ++ flat_map h l.
Proof.
  intro Hf. induction l as [|x l IH]; simpl; intros a r H.
  - injection H as <-. now rewrite app_nil_r.
  - destruct (f a x) as [a'|] eqn:E; simpl in H; [|discriminate].
    rewrite (IH _ _ H), (Hf _ _ _ E). now rewrite <- app_assoc.
Qed.

Lemma flat_map_single {A B} (f : A -> B) l :
  flat_map (fun x => [f x]) l = map f l.
Proof. induction l as [|x l IH]; simpl; [reflexivity|now rewrite IH]. Qed.

Lemma start_generator_procs s kv s' :
  start_generator s kv = Ok s' -> procs s' = procs s ++ gen_of kv.
Proof.
  unfold start_generator, gen_of. intro H.
  destruct (find _ _); [|injection H as <-; now rewrite app_nil_r].
  destruct (Dict.get _ _); [|discriminate]. now injection H as <-.
Qed.

Lemma start_bus_procs rname rinfo s i s' :
  start_bus rname rinfo s i = Ok s' -> procs s' = procs s ++ [bus_of rname rinfo i].
Proof.
  unfold start_bus. intro H.
  destruct (_ =? _)%Z; [discriminate|].
  destruct (forallb _ _); [|discriminate]. now injection H as <-.
Qed.

Lemma start_buses_procs s kv s' :
  start_buses s kv = Ok s' -> procs s' = procs s ++ buses_of kv.
Proof.
  unfold start_buses, buses_of. intro H.
  rewrite <- flat_map_single.
  eapply (fold_result_flat_map procs); [|exact H].
  intros a x a'. apply start_bus_procs.
Qed.

Lemma setup_procs_eq s : setup = Ok s -> procs s = started.
Proof.
  unfold setup, started. intro H.
  destruct (fold_result start_generator _ _) as [s1|] eqn:E1; simpl in H;
    [|discriminate].
  destruct (fold_result start_buses _ _) as [s2|] eqn:E2; simpl in H;
    [|discriminate].
  injection H as <-. simpl.
  rewrite (fold_result_flat_map procs buses_of start_buses _
             start_buses_procs _ _ E2).
  rewrite (fold_result_flat_map procs gen_of start_generator _
             start_generator_procs _ _ E1).
  simpl. now rewrite app_assoc.
Qed.

Lemma run_simulation_procs s : run_simulation = Ok s -> procs s = started.
Proof.
  unfold run_simulation. intro H.
  destruct setup as [s0|] eqn:E; simpl in H; [|discriminate].
  unfold env_run_until in H.
  destruct (Qle_bool _ _); [discriminate|]. injection H as <-.
  simpl. now apply setup_procs_eq.
Qed.

(** What a transition never changes: the arguments a process was started
    with.  A process that raised is gone. *)
Definition bus_args (b : Bus) (f : BusFrame) :=
  (bus_id b, route_name b, bus_stops b, route_info b, capacity b, start_time f).

Definition gen_args (g : GenFrame) := (gen_stop g, rate g, route_stops g).

Inductive same_args : Proc -> Proc -> Prop :=
| same_bus b f b' f' :
    bus_args b f = bus_args b' f' -> same_args (PBus b f) (PBus b' f')
| same_gen g g' : gen_args g = gen_args g' -> same_args (PGen g) (PGen g')
| same_mon : same_args PMon PMon
| same_dead p : same_args p PDead.

Lemma same_args_refl p : same_args p p.
Proof. destruct p; constructor; reflexivity. Qed.

Lemma same_args_trans p q r : same_args p q -> same_args q r -> same_args p r.
Proof.
  intros H1 H2. destruct H2; try (inversion H1; subst; constructor; congruence).
Qed.

Lemma Forall2_refl_on {A} (R0 : A -> A -> Prop) l :
  (forall x, R0 x x) -> Forall2 R0 l l.
Proof. intro H. induction l; constructor; auto. Qed.

Lemma Forall2_trans_on {A} (R0 : A -> A -> Prop) l1 l2 l3 :
  (forall x y z, R0 x y -> R0 y z -> R0 x z) ->
  Forall2 R0 l1 l2 -> Forall2 R0 l2 l3 -> Forall2 R0 l1 l3.
Proof.
  intros T F. revert l3. induction F; intros l3 G; inversion G; subst;
    constructor; eauto.
Qed.

Lemma Forall2_list_set {A} (R0 : A -> A -> Prop) l l' i x :
  Forall2 R0 l l' -> (forall y, nth_error l i = Some y -> R0 y x) ->
  Forall2 R0 l (list_set i x l').
Proof.
  intro F. revert i. induction F as [|a b l l' Hab F IH]; intros [|i] H; simpl;
    constructor; auto.
Qed.

Lemma same_args_step s s' :
  Reachable s -> step s = Running s' -> Forall2 same_args (procs s) (procs s').
Proof.
  intros R H. step_cases H R; simpl.
  all: repeat match goal with
         | |- Forall2 _ _ (list_set _ _ _) => apply Forall2_list_set
         end.
  all: try (apply Forall2_refl_on; apply same_args_refl).
  all: intros y Hy;
    match goal with
    | E : nth_error (procs _) _ = Some _ |- _ =>
        rewrite E in Hy; injection Hy as <-
    end.
  all: constructor; reflexivity.
Qed.

Lemma Reachable_same_args s :
  Reachable s -> Forall2 same_args started (procs s).
Proof.
  revert s. apply (Reachable_inv (fun s => Forall2 same_args started (procs s))).
  - intros s0 H. rewrite (run_simulation_procs _ H).
    apply Forall2_refl_on, same_args_refl.
  - intros s0 s' R I H. eapply Forall2_trans_on; [|exact I|].
    + apply same_args_trans.
    + now apply same_args_step.
Qed.

(** ** More about the state in which the event loop starts *)

Lemma setup_preserves (P : State -> Prop) :
  P (set_stops_map (create_stops (ROUTES cfg)) empty_state) ->
  (forall p s, P s -> P (process p s)) ->
  (forall id s, P s ->
     P (set_metrics
          (set_bus_stats (Dict.set id zero_stat (bus_stats (metrics s)))
             (metrics s)) s)) ->
  forall s, setup = Ok s -> P s.
Proof.
  intros P0 Pp Pm s H. unfold setup in H.
  destruct (fold_result start_generator _ _) as [s1|] eqn:E1; simpl in H;
    [|discriminate].
  destruct (fold_result start_buses _ _) as [s2|] eqn:E2; simpl in H;
    [|discriminate].
  injection H as <-. apply Pp.
  eapply fold_result_inv; [| |exact E2].
  - intros a x a' Pa Ha. unfold start_buses in Ha.
    eapply fold_result_inv; [| |exact Ha]; [|exact Pa].
    intros a0 i a1 Pa0 Hb. unfold start_bus, Bus_init in Hb.
    destruct (_ =? _)%Z; [discriminate|].
    destruct (forallb _ _); [|discriminate]. injection Hb as <-.
    apply Pp, Pm, Pa0.
  - eapply fold_result_inv; [| |exact E1]; [|exact P0].
    intros a kv a' Pa Ha. unfold start_generator in Ha.
    destruct (find _ _); [|now injection Ha as <-].
    destruct (Dict.get _ _); [|discriminate]. injection Ha as <-.
    now apply Pp.
Qed.

(** The event loop starts from the state of the setup with the [until]
    event added. *)
Lemma run_simulation_inv s :
  run_simulation = Ok s ->
  exists s0, setup = Ok s0 /\ Qle_bool (SIM_TIME cfg) (now s0) = false /\
             s = schedule URGENT (SIM_TIME cfg - now s0) StopSimulation s0.
Proof.
  unfold run_simulation. intro H.
  destruct setup as [s0|] eqn:E; simpl in H; [|discriminate].
  unfold env_run_until in H.
  destruct (Qle_bool _ _) eqn:L; [discriminate|]. injection H as <-.
  eauto.
Qed.

(** Before the run the metrics hold nothing but a zero entry for each bus. *)
Lemma setup_metrics s :
  run_simulation = Ok s ->
  waiting_times (metrics s) = [] /\ passenger_records (metrics s) = [] /\
  served_per_stop (metrics s) = [] /\
  forall id st, Dict.get id (bus_stats (metrics s)) = Some st -> st = zero_stat.
Proof.
  intro H. apply run_simulation_inv in H. destruct H as (s0 & E & _ & ->).
  simpl. revert s0 E. apply setup_preserves.
  - simpl. repeat split. discriminate.
  - intros p s I. exact I.
  - intros id s (A & B & C & D). simpl. repeat split; auto.
    intros id' st. rewrite Dict.get_set.
    destruct (String.eqb id' id); [congruence|apply D].
Qed.

(** ** One step of the travel loop *)

Lemma py_min_step t :
  0 < t -> 0 < py_min 1 t /\ py_min 1 t <= t /\ py_min 1 t <= 1.
Proof.
  intro H. unfold py_min. destruct (Qlt_bool t 1) eqn:E.
  - apply Qlt_bool_iff in E. lra.
  - apply Qlt_bool_false in E. lra.
Qed.

(** ** Passengers on their way from a queue to a bus *)

Definition by_arrival (p q : Passenger) : Prop := arrival_time p <= arrival_time q.

(** The passengers queued at a stop were created there, and are queued in
    the order of their arrival times; the passenger handed to a bus that
    waits at line 102 comes from the stop the bus is at. *)
Record handoff_inv (s : State) : Prop := {
  ho_queue :
    forall k st p, Dict.get k (stops_map s) = Some st ->
    In p (items (queue st)) -> origin p = k;
  ho_sorted :
    forall k st, Dict.get k (stops_map s) = Some st ->
    StronglySorted by_arrival (items (queue st));
  ho_event :
    forall e i v b f, In e (heap s) -> callback e = Resume i v ->
    nth_error (procs s) i = Some (PBus b f) -> bus_pc f = L102 ->
    exists p, v = Some p /\ origin p = stop f;
  ho_sent :
    forall i b f, active_process s = Some i ->
    nth_error (procs s) i = Some (PBus b f) -> bus_pc f = L102 ->
    exists p, sent s = Some p /\ origin p = stop f
}.

Lemma no_pending s i e :
  sched_inv s -> active_process s = Some i -> In e (heap s) ->
  resumes i e = false.
Proof.
  intros SI A He. destruct (resumes i e) eqn:Re; [|reflexivity].
  exfalso. destruct (SI i) as [_ Z0]. specialize (Z0 A).
  unfold pending in Z0. apply length_zero_iff_nil in Z0.
  assert (Hf : In e (filter (resumes i) (heap s))) by (apply filter_In; auto).
  rewrite Z0 in Hf. exact Hf.
Qed.

Lemma StronglySorted_snoc {A} (R0 : A -> A -> Prop) l x :
  StronglySorted R0 l -> (forall y, In y l -> R0 y x) ->
  StronglySorted R0 (l ++ [x]).
Proof.
  induction 1 as [|a l S IH F]; intro H; simpl.
  - repeat constructor.
  - constructor.
    + apply IH. intros y Hy. apply H. now right.
    + apply Forall_app. split; [exact F|].
      constructor; [|constructor]. apply H. now left.
Qed.

(** The process numbers at which an entry of an updated table is read. *)
Ltac read_procs P :=
  simpl in P;
  repeat match type of P with
    | nth_error (list_set _ _ _) _ = Some _ =>
        apply nth_error_list_set_inv in P;
        let D := fresh "D" in
        destruct P as [[D P]|[D P]];
        [try discriminate P; try (injection P as -> ->); try subst|]
    end.

Lemma handoff_inv_step s s' :
  Reachable s -> handoff_inv s -> step s = Running s' -> handoff_inv s'.
Proof.
  intros R I H.
  pose proof (Reachable_sched_inv _ R) as SI.
  pose proof (Reachable_times_inv _ R) as TI.
  step_cases H R.
  all: constructor; simpl.
  all: try exact (ho_queue _ I).
  all: try exact (ho_sorted _ I).
  (* the queue of a stop changes *)
  all: try match goal with
         | |- forall k st p, Dict.get k (Dict.set ?k0 _ _) = Some st -> _ =>
             intros k st q; rewrite Dict.get_set;
             destruct (String.eqb_spec k k0) as [->|N];
             [|apply (ho_queue _ I)];
             intro E; injection E as <-; simpl; intro Hq
         | |- forall k st, Dict.get k (Dict.set ?k0 _ _) = Some st -> _ =>
             intros k st; rewrite Dict.get_set;
             destruct (String.eqb_spec k k0) as [->|N];
             [|apply (ho_sorted _ I)];
             intro E; injection E as <-; simpl
         end.
  (* the hand-off events *)
  all: try match goal with
         | |- forall e i v b f, _ -> callback e = Resume i v -> _ =>
             intros ent i v b0 f0 He Ce Pi Hpc; read_procs Pi
         end.
  all: try match goal with
         | |- forall i b f, _ = Some i -> _ =>
             intros i b0 f0 Ai Pi Hpc; try discriminate Ai; read_procs Pi
         end.
  all: try discriminate.
  all: try congruence.
  all: try (simpl in Hpc; rewrite ?Heqb in Hpc; discriminate Hpc).
  all: try match goal with
         | P : heappop (heap _) = Some _ |- _ =>
             pose proof (fun x => proj2 (heappop_In _ _ _ x P)) as InH
         end.
  all: try (destruct He as [<-|He]; simpl in Ce).
  all: try discriminate.
  all: try (injection Ce as -> ->).
  all: try congruence.
  all: try solve [eapply (ho_event _ I); eauto].
  all: try match goal with
         | A : active_process _ = Some ?n, He : In ?e (heap _),
           Ce : callback ?e = Resume ?n _ |- _ =>
             exfalso; pose proof (no_pending _ _ _ SI A He) as NP;
             unfold resumes in NP; rewrite Ce, Nat.eqb_refl in NP;
             discriminate NP
         end.
  all: try solve [eapply (ho_event _ I); eauto].
  all: try match goal with
         | E : items (queue ?st) = _ :: _,
           G : Dict.get _ (stops_map _) = Some ?st |- _ =>
             pose proof (fun x => ho_queue _ I _ _ x G) as Q1;
             pose proof (ho_sorted _ I _ _ G) as Q2;
             rewrite E in Q1, Q2; simpl in Q1
         end.
  all: try solve [apply Q1; auto].
  all: try solve [inversion Q2; assumption].
  all: try solve [eexists; split; [reflexivity|]; apply Q1; auto].
  all: try solve [injection Ce as <-; eexists; split; [reflexivity|]; apply Q1; auto].
  - apply in_app_or in Hq. destruct Hq as [Hq|[<-|[]]].
    + eapply (ho_queue _ I); eauto.
    + simpl. apply (proj2 SO _ _ ltac:(eassumption)).
  - apply StronglySorted_snoc; [eapply (ho_sorted _ I); eauto|].
    intros y Hy. unfold by_arrival. simpl.
    eapply (ti_queue _ TI); eauto.
  - eapply (ho_event _ I); eauto.
    injection Ai as <-. eassumption.
Qed.

Lemma handoff_inv_start s : run_simulation = Ok s -> handoff_inv s.
Proof.
  intro H. apply run_simulation_ok in H. destruct H. constructor.
  - intros k st p G. apply setup_stops0 in G. subst. intros [].
  - intros k st G. apply setup_stops0 in G. subst. constructor.
  - intros e i v b f _ _ P E. apply setup_procs0 in P.
    destruct P as (_ & _ & L & _). congruence.
  - rewrite setup_active0. discriminate.
Qed.

Lemma Reachable_handoff_inv s : Reachable s -> handoff_inv s.
Proof.
  revert s. apply (Reachable_inv handoff_inv).
  - apply handoff_inv_start.
  - apply handoff_inv_step.
Qed.
(** ** The records of the boardings *)

(** What line 104 and lines 106-110 store for one boarding. *)
Definition record_ok (w : Q) (r : PassengerRecord) : Prop :=
  exists bt, rec_board r = Some bt /\ w = bt - rec_arrival r /\ 0 <= w /\
             rec_alight r = None.

(** The passengers that boarded, in the order of the run. *)
Fixpoint boardings (tr : list Obs) : list Passenger :=
  match tr with
  | [] => []
  | o :: tr' =>
      boardings tr' ++
      match o with
      | ObsBoard _ p => [p]
      | _ => []
      end
  end.

Definition record_of (r : PassengerRecord) (p : Passenger) : Prop :=
  rec_id r = pass_id p /\ rec_origin r = origin p /\
  rec_destination r = destination p /\ rec_arrival r = arrival_time p /\
  rec_board r = board_time p.

Definition count_origin (k : string) (rs : list PassengerRecord) : nat :=
  List.length (filter (fun r => String.eqb (rec_origin r) k) rs).

(** [metrics["served_per_stop"].get(k, 0)] *)
Definition served (k : string) (m : Metrics) : nat :=
  match Dict.get k (served_per_stop m) with
  | Some n => n
  | None => 0
  end.

Record metrics_inv (s : State) : Prop := {
  mi_records :
    Forall2 record_ok (waiting_times (metrics s)) (passenger_records (metrics s));
  mi_boardings :
    Forall2 record_of (passenger_records (metrics s)) (boardings (trace s));
  mi_served :
    forall k, served k (metrics s) = count_origin k (passenger_records (metrics s));
  mi_total :
    list_sum (Dict.values (served_per_stop (metrics s)))
    = List.length (passenger_records (metrics s))
}.

Lemma list_sum_incr k (d : Dict.t nat) :
  list_sum (Dict.values
              (Dict.set k (S (match Dict.get k d with
                              | Some n => n
                              | None => 0
                              end)) d))
  = S (list_sum (Dict.values d)).
Proof.
  unfold Dict.values.
  induction d as [|[k0 v0] d IH]; simpl; [reflexivity|].
  destruct (String.eqb k k0); simpl; [reflexivity|].
  rewrite IH. lia.
Qed.

Lemma boardings_app a b : boardings (a ++ b) = boardings b ++ boardings a.
Proof.
  induction a as [|o a IH]; simpl; [now rewrite app_nil_r|].
  now rewrite IH, app_assoc.
Qed.

Lemma boardings_alights n l : boardings (rev (map (ObsAlight n) l)) = [].
Proof.
  induction l as [|p l IH]; simpl; [reflexivity|].
  rewrite boardings_app, IH. reflexivity.
Qed.

Lemma metrics_inv_step s s' :
  Reachable s -> metrics_inv s -> step s = Running s' -> metrics_inv s'.
Proof.
  intros R I H.
  pose proof (Reachable_handoff_inv _ R) as HO.
  pose proof (Reachable_times_inv _ R) as TI.
  step_cases H R.
  all: constructor; simpl.
  all: rewrite ?boardings_app, ?boardings_alights; simpl; rewrite ?app_nil_r.
  all: try exact (mi_records _ I).
  all: try exact (mi_boardings _ I).
  all: try exact (mi_served _ I).
  all: try exact (mi_total _ I).
  all: try (rewrite list_sum_incr, length_app, (mi_total _ I); simpl; lia).
  all: match goal with
       | A : active_process _ = Some _, B : nth_error (procs _) _ = Some _,
         L : bus_pc _ = L102, S : sent _ = Some _,
         G : Dict.get _ (stops_map _) = Some _ |- _ =>
           destruct (ho_sent _ HO _ _ _ A B L) as (p' & S' & O);
           rewrite S in S'; injection S' as <-;
           destruct (ti_sent _ TI _ S) as (W1 & W2 & W3);
           pose proof (proj1 (proj2 SO _ _ G)) as N
       end.
  all: try (apply Forall2_app; [apply (mi_records _ I)|];
            constructor; [|constructor];
            exists (now s); simpl; repeat split; auto; lra).
  all: try (apply Forall2_app; [apply (mi_boardings _ I)|];
            constructor; [|constructor]; repeat split).
  all: intro k; unfold served, count_origin; simpl;
    rewrite Dict.get_set, filter_app, length_app; simpl;
    rewrite O, N, (String.eqb_sym k);
    pose proof (mi_served _ I k) as Sk; unfold served, count_origin in Sk;
    destruct (String.eqb_spec (stop f) k) as [<-|D]; simpl; lia.
Qed.

Lemma metrics_inv_start s : run_simulation = Ok s -> metrics_inv s.
Proof.
  intro H. destruct (setup_metrics s H) as (W & P & S & _).
  apply run_simulation_ok in H. destruct H. constructor.
  - rewrite W, P. constructor.
  - rewrite P, setup_trace0. constructor.
  - intro k. unfold served, count_origin. now rewrite S, P.
  - now rewrite S, P.
Qed.

Lemma Reachable_metrics_inv s : Reachable s -> metrics_inv s.
Proof.
  revert s. apply (Reachable_inv metrics_inv).
  - apply metrics_inv_start.
  - apply metrics_inv_step.
Qed.

(** X2: the three records of the boardings agree.  In every state of a
    run [metrics["waiting_times"]] and [metrics["passenger_records"]]
    have one entry per boarding, in the order of the boardings; the
    waiting time of a record is its [board] minus its [arrival] and is
    not negative; the [alight] field of every record is [None], since the
    record is written when the passenger boards; and
    [metrics["served_per_stop"]] counts, for each stop, the records whose
    origin is that stop, so its counts add up to the number of records. *)
Theorem X2_boarding_records_agree :
  forall s, Reachable s ->
  List.length (waiting_times (metrics s)) = total_passengers (metrics s) /\
  total_passengers (metrics s) = List.length (boardings (trace s)) /\
  (forall i w r,
     nth_error (waiting_times (metrics s)) i = Some w ->
     nth_error (passenger_records (metrics s)) i = Some r ->
     exists bt, rec_board r = Some bt /\ w = bt - rec_arrival r /\ 0 <= w /\
                rec_alight r = None) /\
  (forall i r p,
     nth_error (passenger_records (metrics s)) i = Some r ->
     nth_error (boardings (trace s)) i = Some p ->
     rec_id r = pass_id p /\ rec_origin r = origin p /\
     rec_destination r = destination p /\ rec_arrival r = arrival_time p /\
     rec_board r = board_time p) /\
  (forall k, served k (metrics s)
             = count_origin k (passenger_records (metrics s))) /\
  list_sum (Dict.values (served_per_stop (metrics s)))
  = total_passengers (metrics s).
Proof.
  intros s R. destruct (Reachable_metrics_inv s R) as [A B C D].
  unfold total_passengers.
  split; [exact (Forall2_length A)|]. split; [exact (Forall2_length B)|].
  split.
  { intros i w r Hw Hr.
    destruct (Forall2_nth_error _ _ _ _ _ A Hw) as (r' & Hr' & Ok').
    rewrite Hr in Hr'. injection Hr' as <-. exact Ok'. }
  split.
  { intros i r p Hr Hp.
    destruct (Forall2_nth_error _ _ _ _ _ B Hr) as (p' & Hp' & Ok').
    rewrite Hp in Hp'. injection Hp' as <-. exact Ok'. }
  split; [exact C|exact D].
Qed.
(** X3: a stop queue holds its passengers in the order of their arrival.
    In every state of a run the passengers queued at a stop were created
    at that stop, have arrived by now, have neither boarded nor
    alighted, and are queued by non-decreasing arrival time; so the
    passenger at the head, the one a bus takes next, has waited at least
    as long as anyone behind. *)
Theorem X3_queue_in_arrival_order :
  forall s, Reachable s ->
  forall k st, Dict.get k (stops_map s) = Some st ->
  (forall p, In p (items (queue st)) ->
     origin p = k /\ arrival_time p <= now s /\
     board_time p = None /\ alight_time p = None) /\
  StronglySorted (fun p q => arrival_time p <= arrival_time q)
    (items (queue st)) /\
  (forall p rest, items (queue st) = p :: rest ->
     forall q, In q rest -> now s - arrival_time q <= now s - arrival_time p).
Proof.
  intros s R k st G.
  pose proof (Reachable_handoff_inv s R) as HO.
  pose proof (Reachable_times_inv s R) as TI.
  split; [|split].
  - intros p Hp. split; [exact (ho_queue _ HO _ _ _ G Hp)|].
    exact (ti_queue _ TI _ _ _ G Hp).
  - exact (ho_sorted _ HO _ _ G).
  - intros p rest E q Hq. pose proof (ho_sorted _ HO _ _ G) as S.
    rewrite E in S. inversion S as [|? ? _ F]; subst.
    rewrite Forall_forall in F. specialize (F _ Hq). unfold by_arrival in F.
    lra.
Qed.

(** ** The horizon of the run *)

Lemma entry_le_iff a b :
  entry_le a b = true <->
  at_time a < at_time b \/
  (at_time a == at_time b /\
   ((priority a < priority b)%nat \/
    (priority a = priority b /\ (eid a <= eid b)%nat))).
Proof.
  unfold entry_le.
  rewrite orb_true_iff, andb_true_iff, orb_true_iff, andb_true_iff.
  rewrite Qlt_bool_iff, Qle_bool_iff, Nat.ltb_lt, Nat.eqb_eq, Nat.leb_le.
  split.
  - intros [H|[H1 H2]]; [now left|].
    destruct (Qlt_le_dec (at_time a) (at_time b)) as [L|L]; [now left|].
    right. split; [lra|exact H2].
  - intros [H|[H1 H2]]; [now left|]. right. split; [lra|exact H2].
Qed.

Lemma entry_le_total a b : entry_le a b = false -> entry_le b a = true.
Proof.
  intro H. apply entry_le_iff.
  assert (N : ~ (at_time a < at_time b \/
                 (at_time a == at_time b /\
                  ((priority a < priority b)%nat \/
                   (priority a = priority b /\ (eid a <= eid b)%nat)))))
    by (rewrite <- entry_le_iff; congruence).
  destruct (Qlt_le_dec (at_time b) (at_time a)) as [L|L]; [now left|].
  right. split.
  - destruct (Qlt_le_dec (at_time a) (at_time b)) as [L'|L']; [|lra].
    exfalso. apply N. now left.
  - destruct (Qlt_le_dec (at_time a) (at_time b)) as [L'|L'].
    + exfalso. apply N. now left.
    + assert (E : at_time a == at_time b) by lra.
      destruct (Nat.lt_trichotomy (priority a) (priority b)) as [P|[P|P]].
      * exfalso. apply N. right. auto.
      * right. split; [congruence|].
        destruct (Nat.le_gt_cases (eid a) (eid b)); [|lia].
        exfalso. apply N. right. auto.
      * now left.
Qed.

Lemma entry_le_trans a b c :
  entry_le a b = true -> entry_le b c = true -> entry_le a c = true.
Proof.
  rewrite !entry_le_iff. intros [H1|[H1 H1']] [H2|[H2 H2']].
  - left. lra.
  - left. lra.
  - left. lra.
  - right. split; [lra|lia].
Qed.

(** The popped entry is the least one in the order of the heap. *)
Lemma heappop_least h m r :
  heappop h = Some (m, r) -> forall e, In e r -> entry_le m e = true.
Proof.
  revert m r. induction h as [|e h IH]; simpl; intros m r H; [discriminate|].
  destruct (heappop h) as [[m' r']|] eqn:E.
  - specialize (IH _ _ eq_refl).
    destruct (entry_le e m') eqn:L; injection H as <- <-; intros x Hx.
    + apply (heappop_In _ _ _ x E) in Hx. destruct Hx as [->|Hx].
      * exact L.
      * eapply entry_le_trans; [exact L|auto].
    + destruct Hx as [<-|Hx]; [now apply entry_le_total|auto].
  - injection H as <- <-. intros x [].
Qed.

Record horizon_inv (s : State) : Prop := {
  hz_pending : exists e, In e (heap s) /\ callback e = StopSimulation;
  hz_until :
    forall e, In e (heap s) -> callback e = StopSimulation ->
    at_time e == SIM_TIME cfg /\ priority e = URGENT;
  hz_urgent :
    forall e, In e (heap s) -> priority e = URGENT ->
    callback e = StopSimulation \/ at_time e == 0;
  hz_positive : 0 < SIM_TIME cfg;
  hz_now : now s < SIM_TIME cfg
}.

(** An event taken from the heap before the [until] event lies strictly
    before the horizon. *)
Lemma before_horizon s e rest :
  horizon_inv s -> heappop (heap s) = Some (e, rest) ->
  callback e <> StopSimulation ->
  at_time e < SIM_TIME cfg /\
  exists u, In u rest /\ callback u = StopSimulation.
Proof.
  intros [] P N. destruct hz_pending0 as (u & Hu & Cu).
  pose proof (proj1 (heappop_In _ _ _ u P) Hu) as [->|Hr]; [congruence|].
  split; [|eauto].
  destruct (hz_until0 u Hu Cu) as [Tu Pu].
  pose proof (heappop_least _ _ _ P u Hr) as L. apply entry_le_iff in L.
  destruct L as [L|[L1 L2]]; [lra|].
  assert (Pe : priority e = URGENT) by (unfold URGENT in *; lia).
  assert (He : In e (heap s)) by (apply (heappop_In _ _ _ e P); now left).
  destruct (hz_urgent0 e He Pe) as [C|T]; [congruence|lra].
Qed.

Lemma horizon_inv_step s s' :
  Reachable s -> horizon_inv s -> step s = Running s' -> horizon_inv s'.
Proof.
  intros R I H.
  step_cases H R.
  all: try match goal with
         | P : heappop (heap _) = Some (?e, _), C : callback ?e = _ |- _ =>
             let N := fresh "N" in
             assert (N : callback e <> StopSimulation) by (rewrite C; discriminate);
             destruct (before_horizon _ _ _ I P N) as (Lt & u & Hu & Cu);
             pose proof (fun x => proj2 (heappop_In _ _ _ x P)) as InH
         end.
  all: destruct I as [(u0 & Hu0 & Cu0) U1 U2 U3 U4].
  all: constructor; simpl; try assumption.
  all: try solve [exists u0; split; [simpl; auto|assumption]].
  all: try solve [exists u; split; [simpl; auto|assumption]].
  all: try solve [intros x [<-|Hx]; simpl; try discriminate; auto].
  all: try solve [intros x Hx; auto].
Qed.

Lemma horizon_inv_start s : run_simulation = Ok s -> horizon_inv s.
Proof.
  intro H. apply run_simulation_inv in H. destruct H as (s0 & E & L & ->).
  assert (P : now s0 = 0 /\
              forall e, In e (heap s0) ->
              priority e = URGENT /\ at_time e == 0 /\
              callback e <> StopSimulation).
  { revert s0 E L. intros s0 E _. revert s0 E. apply setup_preserves.
    - simpl. split; [reflexivity|]. intros e [].
    - intros p s [N Hh]. simpl. split; [exact N|].
      intros e [<-|He]; simpl; [|auto]. rewrite N.
      split; [reflexivity|]. split; [reflexivity|discriminate].
    - intros id s Hs. exact Hs. }
  destruct P as [N Hh]. rewrite N in *.
  assert (Pos : 0 < SIM_TIME cfg).
  { apply Qnot_le_lt. intro Le. apply Qle_bool_iff in Le. congruence. }
  constructor; simpl.
  - eexists. split; [left; reflexivity|reflexivity].
  - intros e [<-|He] C; simpl.
    + split; [rewrite ?N; lra|reflexivity].
    + exfalso. now apply (Hh e He).
  - intros e [<-|He] _; simpl; [now left|]. right. apply (Hh e He).
  - exact Pos.
  - rewrite N. exact Pos.
Qed.

Lemma Reachable_horizon_inv s : Reachable s -> horizon_inv s.
Proof.
  revert s. apply (Reachable_inv horizon_inv).
  - apply horizon_inv_start.
  - apply horizon_inv_step.
Qed.

(** X4: the run ends at [SIM_TIME] and nowhere else.  While the event
    loop goes on the clock is strictly before [SIM_TIME]; the heap is
    never found empty, since the [until] event of [env.run] stays in it;
    and when the loop stops, it is that event that stops it, the clock
    is at [SIM_TIME] and every event left in the heap is due at
    [SIM_TIME] or later. *)
Theorem X4_run_ends_at_the_horizon :
  forall s, Reachable s ->
  0 <= now s /\ now s < SIM_TIME cfg /\
  (exists e, In e (heap s) /\ callback e = StopSimulation /\
             at_time e == SIM_TIME cfg) /\
  (forall s', step s = Stopped s' ->
     now s' == SIM_TIME cfg /\
     (exists e, heappop (heap s) = Some (e, heap s') /\
                callback e = StopSimulation) /\
     forall e, In e (heap s') -> SIM_TIME cfg <= at_time e).
Proof.
  intros s R. pose proof (Reachable_horizon_inv s R) as I.
  pose proof (Reachable_times_inv s R) as TI.
  split.
  { clear I TI. revert s R. apply (Reachable_inv (fun s => 0 <= now s)).
    - intros s H. apply run_simulation_ok in H.
      rewrite (setup_now _ _ H). lra.
    - intros s s' R I H. pose proof (Reachable_times_inv s R) as TI.
      step_cases H R; simpl; try exact I.
      all: match goal with
           | P : heappop (heap _) = Some _ |- _ =>
               destruct (times_inv_pop _ _ _ TI P) as [L _]; lra
           end. }
  split; [exact (hz_now _ I)|]. split.
  { destruct (hz_pending _ I) as (u & Hu & Cu). exists u.
    split; [exact Hu|]. split; [exact Cu|]. now apply (hz_until _ I). }
  intros s' H. unfold step in H.
  destruct (active_process s) as [me|] eqn:A.
  { destruct (nth_error (procs s) me) as [[b f|g| |]|]; unfold finish in H;
      try discriminate H.
    - destruct (Bus_run me b f s); discriminate H.
    - destruct (passenger_generator me g s); discriminate H. }
  unfold env_step in H.
  destruct (heappop (heap s)) as [[e rest]|] eqn:P.
  - destruct (callback e) eqn:C; try discriminate H. injection H as <-. simpl.
    assert (He : In e (heap s)) by (apply (heappop_In _ _ _ e P); now left).
    destruct (hz_until _ I e He C) as [T _].
    split; [exact T|]. split; [eauto|].
    intros x Hx. rewrite <- T. eapply heappop_min; eauto.
  - exfalso. destruct (hz_pending _ I) as (u & Hu & _).
    destruct (heap s); [exact Hu|]. simpl in P.
    destruct (heappop l) as [[? ?]|]; [|discriminate].
    destruct (entry_le _ _); discriminate.
Qed.
(** ** A bus before its first stop *)

(** Until it has waited for its start offset a bus is as it was created. *)
Definition unused (b : Bus) (f : BusFrame) : Prop :=
  bus_pc f = L86 ->
  onboard b = [] /\ current_index b = 0%nat /\ trips_completed b = 0%nat /\
  active_minutes b = 0 /\ occupied_minutes b = 0.

Lemma started_unused : all_buses unused started.
Proof.
  intros i b f H _. apply nth_error_In in H. unfold started in H.
  apply in_app_or in H. destruct H as [H|H].
  - apply in_flat_map in H. destruct H as (kv & _ & H). unfold gen_of in H.
    destruct (find _ _); [|contradiction]. destruct H as [H|[]]. discriminate.
  - apply in_app_or in H. destruct H as [H|[H|[]]]; [|discriminate].
    apply in_flat_map in H. destruct H as (kv & _ & H). unfold buses_of in H.
    apply in_map_iff in H. destruct H as (j & E & _). unfold bus_of in E.
    injection E as <- <-. simpl. auto.
Qed.

Lemma unused_step s s' :
  Reachable s -> all_buses unused (procs s) -> step s = Running s' ->
  all_buses unused (procs s').
Proof.
  intros R I H. step_cases H R; simpl.
  all: repeat match goal with
              | |- all_buses _ (list_set _ _ _) => apply all_buses_set
              end.
  all: try exact I.
  all: try exact Logic.I.
  all: unfold unused; simpl; intro E; try discriminate E.
  all: match goal with
       | B : nth_error (procs _) _ = Some (PBus _ _) |- _ =>
           apply (I _ _ _ B); congruence
       end.
Qed.

Lemma Reachable_unused s : Reachable s -> all_buses unused (procs s).
Proof.
  revert s. apply (Reachable_inv (fun s => all_buses unused (procs s))).
  - intros s H. rewrite (run_simulation_procs _ H). exact started_unused.
  - apply unused_step.
Qed.

(** ** The round trips of a bus *)

(** The stops a bus has called at, in the order of the run. *)
Fixpoint visits (ev : list Obs) : list string :=
  match ev with
  | [] => []
  | o :: ev' =>
      visits ev' ++
      match o with
      | ObsVisit _ k => [k]
      | _ => []
      end
  end.

(** The first [n] stops of the round trips over [route]. *)
Definition round_trips (route : list string) (n : nat) : list string :=
  map (fun j => nth (j mod List.length route) route EmptyString) (seq 0 n).

Definition route_frame (ev : list Obs) (w : Q -> Prop) (b : Bus) (f : BusFrame)
  : Prop :=
  visits ev = round_trips (bus_stops b) (List.length (visits ev)) /\
  match bus_pc f with
  | L86 => ev = []
  | L88 =>
      List.length (visits ev)
      = (trips_completed b * List.length (bus_stops b) + current_index b)%nat /\
      (current_index b < List.length (bus_stops b)
       \/ bus_stops b = [] /\ ev = [])%nat
  | _ =>
      List.length (visits ev)
      = (trips_completed b * List.length (bus_stops b) + current_index b + 1)%nat /\
      nth_error (bus_stops b) (current_index b) = Some (stop f)
  end.

Lemma visits_app a b : visits (a ++ b) = visits b ++ visits a.
Proof.
  induction a as [|o a IH]; simpl; [now rewrite app_nil_r|].
  now rewrite IH, app_assoc.
Qed.

Lemma visits_alights pre ev : Forall is_alight pre -> visits (pre ++ ev) = visits ev.
Proof.
  induction 1 as [|o pre Ho F IH]; simpl; [reflexivity|].
  destruct o; try contradiction. now rewrite IH, app_nil_r.
Qed.

Lemma round_trips_S route n :
  round_trips route (S n)
  = round_trips route n ++ [nth (n mod List.length route) route EmptyString].
Proof. unfold round_trips. now rewrite seq_S, map_app. Qed.

Lemma length_round_trips route n : List.length (round_trips route n) = n.
Proof. unfold round_trips. now rewrite length_map, length_seq. Qed.

Lemma mod_index t l i : (i < l -> (t * l + i) mod l = i)%nat.
Proof.
  intro H. rewrite Nat.add_comm, Nat.Div0.mod_add. now apply Nat.mod_small.
Qed.

Lemma next_index_wrap l i : (i < l -> (i + 1) mod l = 0 -> i + 1 = l)%nat.
Proof.
  intros H E. destruct (Nat.eq_dec (i + 1) l) as [D|D]; [exact D|].
  rewrite Nat.mod_small in E by lia. lia.
Qed.

Lemma next_index_step l i :
  (i < l -> (i + 1) mod l <> 0 -> (i + 1) mod l = i + 1)%nat.
Proof.
  intros H E. destruct (Nat.eq_dec (i + 1) l) as [D|D].
  - rewrite D, Nat.Div0.mod_same in E. congruence.
  - apply Nat.mod_small. lia.
Qed.

Lemma route_self_step s s' i b f :
  Reachable s -> active_process s = Some i ->
  nth_error (procs s) i = Some (PBus b f) ->
  step s = Running s' ->
  True ->
  route_frame (events_of i (trace s)) (wake_time s i) b f ->
  True /\
  forall b' f', nth_error (procs s') i = Some (PBus b' f') ->
                route_frame (events_of i (trace s')) (wake_time s' i) b' f'.
Proof.
  intros R A P H _ IL.
  pose proof (Reachable_unused s R i b f P) as U.
  step_cases H R.
  all: try congruence.
  all: assert (n = i) by congruence; subst n.
  all: try (rewrite P in *; discriminate).
  all: own_proc P.
  all: own_history.
  all: (split; [|intros b' f' P'; own_frame P P'; unfold route_frame; simpl]).
  all: try exact Logic.I.
  all: unfold route_frame in IL;
    match goal with E : bus_pc _ = _ |- _ => rewrite E in IL end;
    destruct IL as [V IL].
  all: rewrite ?visits_alights by apply alights_are_alights; simpl;
    rewrite ?app_nil_r.
  all: try (split; [exact V|exact IL]).
  all: repeat match goal with
         | |- context [(?n - snd (Nat.divmod ?x ?n 0 ?n))%nat] =>
             change (n - snd (Nat.divmod x n 0 n))%nat with (x mod (S n))%nat
         | H : context [(?n - snd (Nat.divmod ?x ?n 0 ?n))%nat] |- _ =>
             change (n - snd (Nat.divmod x n 0 n))%nat with (x mod (S n))%nat in H
         end.
  all: try match type of IL with _ /\ _ => destruct IL as [N IL] end.
  all: try match goal with
         | E : nth_error (bus_stops ?b0) (current_index ?b0) = Some _ |- _ =>
             assert (Lt : (current_index b0 < List.length (bus_stops b0))%nat)
               by (apply nth_error_Some; congruence)
         end.
  - (* the start offset is over *)
    destruct (U ltac:(assumption)) as (_ & U1 & U2 & _). rewrite IL, U1, U2. simpl.
    split; [reflexivity|]. split; [reflexivity|].
    destruct (bus_stops b); [right; auto|left; simpl; lia].
  - (* a visit begins *)
    rewrite length_app, Nat.add_1_r, round_trips_S, <- V, N. simpl.
    rewrite mod_index by exact Lt.
    rewrite (nth_error_nth _ _ _ ltac:(eassumption)). repeat split; [lia|assumption].
  - rewrite length_app, Nat.add_1_r, round_trips_S, <- V, N. simpl.
    rewrite mod_index by exact Lt.
    rewrite (nth_error_nth _ _ _ ltac:(eassumption)). repeat split; [lia|assumption].
  - (* the last stop of the route: a trip is completed *)
    match goal with
    | E : List.length _ = S _, B : (_ =? 0)%nat = true |- _ =>
        rewrite <- E in *; apply Nat.eqb_eq in B;
        pose proof (next_index_wrap _ _ Lt B) as W; rewrite B
    end.
    split; [exact V|]. split; [lia|left; lia].
  - match goal with
    | E : List.length _ = S _, B : (_ =? 0)%nat = false |- _ =>
        rewrite <- E in *; apply Nat.eqb_neq in B;
        pose proof (next_index_step _ _ Lt B) as W; rewrite W;
        split; [exact V|]; split; [lia|left];
        destruct (Nat.eq_dec (current_index b + 1) (List.length (bus_stops b)))
          as [D|D]; [|lia];
        rewrite D, Nat.Div0.mod_same in B; congruence
    end.
Qed.

Lemma Reachable_route s : Reachable s -> local_inv (fun _ => True) route_frame s.
Proof.
  apply Reachable_local_inv.
  - intros ev w w' b f _ H. exact H.
  - exact Logic.I.
  - intros w b f E. unfold route_frame. rewrite E. split; reflexivity.
  - apply route_self_step.
Qed.


(** X5: a bus calls at the stops of its route in order, round after
    round.  In every state of a run the j-th stop a bus has called at
    (counted from 0) is stop number [j mod len(stops)] of its route;
    [current_index] stays below the number of stops; and
    [trips_completed] counts the rounds: the number of calls made is
    [trips_completed * len(stops) + current_index], plus one while the
    bus is at a stop or on its way to the next one, and during that time
    the stop of the current call is [stops[current_index]]. *)
Theorem X5_round_trips :
  forall s, Reachable s ->
  forall i b f, nth_error (procs s) i = Some (PBus b f) ->
  (forall j k, nth_error (visits (events_of i (trace s))) j = Some k ->
     nth_error (bus_stops b) (j mod List.length (bus_stops b)) = Some k) /\
  ((current_index b < List.length (bus_stops b))%nat \/
   bus_stops b = [] /\ visits (events_of i (trace s)) = []) /\
  List.length (visits (events_of i (trace s)))
  = (trips_completed b * List.length (bus_stops b) + current_index b +
     match bus_pc f with L86 | L88 => 0 | _ => 1 end)%nat /\
  (bus_pc f <> L86 -> bus_pc f <> L88 ->
   nth_error (bus_stops b) (current_index b) = Some (stop f)).
Proof.
  intros s R i b f P.
  destruct (Reachable_route s R) as [_ IL]. specialize (IL i b f P).
  pose proof (Reachable_unused s R i b f P) as U.
  destruct IL as [V IL].
  assert (E0 : bus_stops b = [] -> visits (events_of i (trace s)) = []).
  { intro E. destruct (bus_pc f); try (now rewrite IL);
      try (destruct IL as [_ [Lt|[_ ->]]]; [rewrite E in Lt; simpl in Lt; lia
                                           |reflexivity]).
    all: destruct IL as [_ IL]; rewrite E in IL;
      destruct (current_index b); discriminate IL. }
  split; [|split; [|split]].
  - intros j k Hj. rewrite V in Hj. unfold round_trips in Hj.
    rewrite nth_error_map in Hj.
    destruct (nth_error (seq 0 _) j) as [j'|] eqn:Ej; [|discriminate].
    assert (Lj : (j < List.length
                        (seq 0 (List.length (visits (events_of i (trace s))))))%nat)
      by (apply nth_error_Some; congruence).
    rewrite length_seq in Lj.
    rewrite (nth_error_nth' _ 0%nat) in Ej by (rewrite length_seq; exact Lj).
    rewrite seq_nth in Ej by exact Lj. simpl in Ej, Hj.
    injection Ej as <-. injection Hj as <-.
    apply nth_error_nth'. apply Nat.mod_upper_bound.
    intro Z0. apply length_zero_iff_nil in Z0. rewrite (E0 Z0) in Lj.
    simpl in Lj. lia.
  - destruct (bus_pc f) eqn:E.
    + destruct (U E) as (_ & U1 & _). rewrite U1, IL. simpl.
      destruct (bus_stops b); [right; auto|left; simpl; lia].
    + destruct IL as [_ [Lt|[Z0 ->]]]; [now left|right; auto].
    + left. apply nth_error_Some. destruct IL as [_ ->]. discriminate.
    + left. apply nth_error_Some. destruct IL as [_ ->]. discriminate.
    + left. apply nth_error_Some. destruct IL as [_ ->]. discriminate.
    + left. apply nth_error_Some. destruct IL as [_ ->]. discriminate.
    + left. apply nth_error_Some. destruct IL as [_ ->]. discriminate.
    + left. apply nth_error_Some. destruct IL as [_ ->]. discriminate.
    + left. apply nth_error_Some. destruct IL as [_ ->]. discriminate.
    + left. apply nth_error_Some. destruct IL as [_ ->]. discriminate.
  - destruct (bus_pc f) eqn:E.
    1: destruct (U E) as (_ & U1 & U2 & _); rewrite IL, U1, U2; simpl; lia.
    all: destruct IL as [-> _]; lia.
  - intros N1 N2. destruct (bus_pc f); try congruence; apply IL.
Qed.
(** ** Where passengers board and alight *)

(** The stop of the latest call in the history of a bus. *)
Fixpoint called_at (ev : list Obs) : option string :=
  match ev with
  | [] => None
  | ObsVisit _ k :: _ => Some k
  | _ :: ev' => called_at ev'
  end.

Fixpoint places_ok (ev : list Obs) : Prop :=
  match ev with
  | [] => True
  | o :: ev' =>
      match o with
      | ObsAlight _ p => called_at ev' = Some (destination p)
      | ObsBoard _ p => called_at ev' = Some (origin p)
      | ObsTake k _ p => called_at ev' = Some k /\ origin p = k
      | _ => True
      end /\ places_ok ev'
  end.

Definition place_frame (ev : list Obs) (w : Q -> Prop) (b : Bus) (f : BusFrame)
  : Prop :=
  match bus_pc f with
  | L86 | L88 => True
  | _ => called_at ev = Some (stop f)
  end.

Lemma places_alights i k l ev :
  (forall p, In p l -> destination p = k) ->
  called_at ev = Some k -> places_ok ev ->
  called_at (rev (map (ObsAlight i) l) ++ ev) = Some k /\
  places_ok (rev (map (ObsAlight i) l) ++ ev).
Proof.
  intros D C O. induction l as [|p l IH] using rev_ind; simpl; [auto|].
  rewrite map_app, rev_app_distr. simpl.
  destruct IH as [IH1 IH2]; [intros q Hq; apply D, in_or_app; now left|].
  split; [exact IH1|]. split; [|exact IH2].
  rewrite IH1. f_equal. symmetry. apply D, in_or_app. right. now left.
Qed.

Lemma place_self_step s s' i b f :
  Reachable s -> active_process s = Some i ->
  nth_error (procs s) i = Some (PBus b f) ->
  step s = Running s' ->
  places_ok (events_of i (trace s)) ->
  place_frame (events_of i (trace s)) (wake_time s i) b f ->
  places_ok (events_of i (trace s')) /\
  forall b' f', nth_error (procs s') i = Some (PBus b' f') ->
                place_frame (events_of i (trace s')) (wake_time s' i) b' f'.
Proof.
  intros R A P H IT IL.
  pose proof (Reachable_handoff_inv s R) as HO.
  step_cases H R.
  all: try congruence.
  all: assert (n = i) by congruence; subst n.
  all: try (rewrite P in *; discriminate).
  all: own_proc P.
  all: own_history.
  all: (split; [|intros b' f' P'; own_frame P P'; unfold place_frame; simpl]).
  all: try exact Logic.I.
  all: try exact IT.
  all: unfold place_frame in IL;
    match goal with E : bus_pc _ = _ |- _ => rewrite E in IL end.
  all: try exact IL.
  all: try (split; [exact Logic.I|exact IT]).
  all: try reflexivity.
  all: try match goal with
         | E : alight_loop _ _ _ = Some (?q :: ?l, _),
           G : Dict.get ?k (stops_map _) = Some ?st |- _ =>
             apply alight_loop_spec in E; destruct E as [E _];
             pose proof (proj1 (proj2 SO _ _ G)) as N;
             assert (D : forall x, In x (q :: l) -> destination x = k)
               by (intros x Hx; rewrite E in Hx; apply in_map_iff in Hx;
                   destruct Hx as (y & <- & Hy); apply filter_In in Hy;
                   destruct Hy as [_ Hy]; apply String.eqb_eq in Hy;
                   simpl; congruence);
             destruct (places_alights i k l
                         (ObsAlight i q :: ObsVisit i k :: events_of i (trace s)))
               as [PA1 PA2];
             [ intros x Hx; apply D; now right
             | reflexivity
             | simpl; split; [f_equal; symmetry; apply D; now left|];
               split; [exact Logic.I|exact IT]
             | ]
         end.
  all: try assumption.
  all: simpl; split; try exact IT.
  - split; [exact IL|].
    match goal with
    | E : items _ = _ :: _, G : Dict.get _ (stops_map _) = Some _ |- _ =>
        apply (ho_queue _ HO _ _ _ G); rewrite E; now left
    end.
  - destruct (ho_sent _ HO _ _ _ Heqo P ltac:(assumption)) as (q & S & O).
    rewrite IL. f_equal. congruence.
  - destruct (ho_sent _ HO _ _ _ Heqo P ltac:(assumption)) as (q & S & O).
    rewrite IL. f_equal. congruence.
Qed.

Lemma Reachable_places s : Reachable s -> local_inv places_ok place_frame s.
Proof.
  apply Reachable_local_inv.
  - intros ev w w' b f _ H. exact H.
  - exact Logic.I.
  - intros w b f E. unfold place_frame. now rewrite E.
  - apply place_self_step.
Qed.

Lemma places_ok_at ev newer o older :
  places_ok ev -> ev = newer ++ o :: older -> places_ok (o :: older).
Proof.
  intros H ->. induction newer as [|x newer IH]; simpl in H.
  - exact H.
  - apply IH, H.
Qed.

(** X8: passengers board at their origin and alight at their
    destination.  Take any action of a bus in a run and the stop of the
    latest call the bus had made before it: a passenger the bus takes
    from a queue is taken from the queue of that stop and was created
    there, a passenger that boards has that stop as origin, and a
    passenger that alights has that stop as destination. *)
Theorem X8_board_at_origin_alight_at_destination :
  forall s, Reachable s ->
  forall i newer older,
  (forall k p, events_of i (trace s) = newer ++ ObsTake k i p :: older ->
     called_at older = Some k /\ origin p = k) /\
  (forall p, events_of i (trace s) = newer ++ ObsBoard i p :: older ->
     called_at older = Some (origin p)) /\
  (forall p, events_of i (trace s) = newer ++ ObsAlight i p :: older ->
     called_at older = Some (destination p)).
Proof.
  intros s R i newer older. destruct (Reachable_places s R) as [IT _].
  specialize (IT i). repeat split.
  - apply (places_ok_at _ _ _ _ IT H).
  - apply (places_ok_at _ _ _ _ IT H).
  - intros p H. apply (places_ok_at _ _ _ _ IT H).
  - intros p H. apply (places_ok_at _ _ _ _ IT H).
Qed.
(** ** Identifiers: [f"{route_name}-Bus-{i+1}"] and [f"{stop.name}-{pid}"] *)

Fixpoint has_dash (s : string) : bool :=
  match s with
  | EmptyString => false
  | String c s' => Ascii.eqb c "-" || has_dash s'
  end.

Lemma has_dash_app a b : has_dash (a ++ b) = has_dash a || has_dash b.
Proof.
  induction a as [|c a IH]; simpl; [reflexivity|].
  now rewrite IH, orb_assoc.
Qed.

Lemma digits_no_dash d : has_dash (NilEmpty.string_of_uint d) = false.
Proof. induction d; simpl; auto. Qed.

Lemma str_no_dash n : has_dash (str n) = false.
Proof.
  unfold str, NilZero.string_of_uint.
  destruct (Nat.to_uint n); try reflexivity; apply digits_no_dash.
Qed.

Lemma to_uint_not_nil n : Nat.to_uint n <> Decimal.Nil.
Proof.
  intro E. pose proof (Unsigned.of_to n) as H. rewrite E in H.
  simpl in H. subst n. discriminate E.
Qed.

Lemma str_inj n m : str n = str m -> n = m.
Proof.
  unfold str. intro H. apply Unsigned.to_uint_inj.
  pose proof (NilZero.usu _ (to_uint_not_nil n)) as Hn.
  pose proof (NilZero.usu _ (to_uint_not_nil m)) as Hm.
  rewrite H in Hn. congruence.
Qed.

(** A text that ends with a dash and a dash-free word is split at that
    dash in one way only. *)
Lemma last_dash_unique a b x y :
  (a ++ String "-" x = b ++ String "-" y)%string ->
  has_dash x = false -> has_dash y = false -> a = b /\ x = y.
Proof.
  revert b. induction a as [|c a IH]; intros [|d b] H Hx Hy; simpl in H.
  - injection H as <-. auto.
  - injection H as <- ->. rewrite has_dash_app in Hx. simpl in Hx.
    rewrite orb_true_r in Hx. discriminate.
  - injection H as -> <-. rewrite has_dash_app in Hy. simpl in Hy.
    rewrite orb_true_r in Hy. discriminate.
  - injection H as -> H. destruct (IH _ H Hx Hy) as [-> ->]. auto.
Qed.

Lemma append_assoc (a b c : string) : ((a ++ b) ++ c = a ++ (b ++ c))%string.
Proof. induction a as [|x a IH]; simpl; [reflexivity|now rewrite IH]. Qed.

Lemma append_inv_tail (a b c : string) : (a ++ c = b ++ c)%string -> a = b.
Proof.
  intro H.
  assert (L : forall u v : string,
            list_ascii_of_string (u ++ v)
            = (list_ascii_of_string u ++ list_ascii_of_string v)%list).
  { induction u as [|x u IHu]; intro v; simpl; [reflexivity|now rewrite IHu]. }
  apply (f_equal list_ascii_of_string) in H. rewrite !L in H.
  apply app_inv_tail in H.
  rewrite <- (string_of_list_ascii_of_string a),
          <- (string_of_list_ascii_of_string b).
  now rewrite H.
Qed.

Lemma bus_id_inj r n r' n' :
  (r ++ "-Bus-" ++ str n = r' ++ "-Bus-" ++ str n')%string -> r = r' /\ n = n'.
Proof.
  intro H.
  change (r ++ "-Bus-" ++ str n)%string
    with (r ++ "-Bus" ++ String "-" (str n))%string in H.
  change (r' ++ "-Bus-" ++ str n')%string
    with (r' ++ "-Bus" ++ String "-" (str n'))%string in H.
  rewrite <- !append_assoc in H.
  apply last_dash_unique in H; [|apply str_no_dash..].
  destruct H as [H1 H2]. split; [|now apply str_inj].
  now apply append_inv_tail in H1.
Qed.

Lemma passenger_id_inj k n k' n' :
  (k ++ "-" ++ str n = k' ++ "-" ++ str n')%string -> k = k' /\ n = n'.
Proof.
  intro H. apply last_dash_unique in H; [|apply str_no_dash..].
  destruct H as [H1 H2]. split; [exact H1|now apply str_inj].
Qed.

(** *** The Route column of the bus table *)

Lemma py_split_cons sep s : exists w ws, py_split sep s = w :: ws.
Proof.
  induction s as [|c s IH]; simpl; [eauto|].
  destruct (Ascii.eqb c sep); [eauto|].
  destruct IH as (w & ws & ->). eauto.
Qed.

(** The first field of a text, [s.split("-")[0]]. *)
Definition first_field (s : string) : string := hd EmptyString (py_split "-" s).

Lemma route_column_first s : route_column s = Ok (first_field s).
Proof.
  unfold route_column, first_field.
  destruct (py_split_cons "-" s) as (w & ws & ->). reflexivity.
Qed.

Lemma first_field_app a x :
  first_field (a ++ String "-" x) = first_field a.
Proof.
  unfold first_field. induction a as [|c a IH]; simpl; [reflexivity|].
  destruct (Ascii.eqb c "-"); [reflexivity|].
  destruct (py_split_cons "-" (a ++ String "-" x)) as (w & ws & E).
  destruct (py_split_cons "-" a) as (w' & ws' & E').
  rewrite E, E' in *. simpl in *. now rewrite IH.
Qed.

Lemma py_split_no_dash a : has_dash a = false -> py_split "-" a = [a].
Proof.
  induction a as [|c a IH]; simpl; [reflexivity|].
  intro H. apply orb_false_iff in H. destruct H as [H1 H2].
  rewrite H1, (IH H2). reflexivity.
Qed.

(** The Route column ([bus.split("-")[0]], line 224) of an id built at
    line 189. *)
Lemma route_column_of_bus_id :
  forall rname i,
  let bus := (rname ++ "-Bus-" ++ str (i + 1))%string in
  route_column bus = route_column rname /\
  (exists w, route_column bus = Ok w) /\
  (has_dash rname = false -> route_column bus = Ok rname) /\
  (has_dash rname = true ->
   exists w, route_column bus = Ok w /\ w <> rname /\
             String.length w < String.length rname)%nat /\
  (forall rname' i',
     bus = (rname' ++ "-Bus-" ++ str (i' + 1))%string ->
     rname = rname' /\ i = i').
Proof.
  intros rname i bus.
  assert (E : route_column bus = route_column rname).
  { rewrite !route_column_first. f_equal. unfold bus.
    change (rname ++ "-Bus-" ++ str (i + 1))%string
      with (rname ++ String "-" ("Bus-" ++ str (i + 1)))%string.
    apply first_field_app. }
  split; [exact E|]. split; [rewrite route_column_first; eauto|].
  split.
  { intro H. rewrite E, route_column_first. unfold first_field.
    now rewrite py_split_no_dash. }
  split.
  { intro H. rewrite E, route_column_first. eexists. split; [reflexivity|].
    assert (L : forall s, has_dash s = true ->
                (String.length (first_field s) < String.length s)%nat).
    { unfold first_field. induction s as [|c s IH]; simpl; [discriminate|].
      destruct (Ascii.eqb c "-"); simpl; [lia|]. intro Hs.
      specialize (IH Hs).
      destruct (py_split_cons "-" s) as (w & ws & Es). rewrite Es in *.
      simpl in *. lia. }
    specialize (L _ H). split; [|exact L].
    intro Eq. rewrite Eq in L. lia. }
  intros rname' i' H. unfold bus in H. apply bus_id_inj in H.
  destruct H as [H1 H2]. split; [exact H1|lia].
Qed.

(** ** The buses and generators of a run *)

Definition distinct_by {A K} (key : A -> option K) (l : list A) : Prop :=
  forall i j x y k,
  nth_error l i = Some x -> nth_error l j = Some y ->
  key x = Some k -> key y = Some k -> i = j.

Lemma distinct_by_app {A K} (key : A -> option K) l1 l2 :
  distinct_by key l1 -> distinct_by key l2 ->
  (forall x y k, In x l1 -> In y l2 -> key x = Some k -> key y = Some k -> False) ->
  distinct_by key (l1 ++ l2).
Proof.
  intros D1 D2 X i j x y k Hi Hj Kx Ky.
  destruct (Nat.lt_ge_cases i (List.length l1)) as [Li|Li];
    destruct (Nat.lt_ge_cases j (List.length l1)) as [Lj|Lj].
  - rewrite nth_error_app1 in Hi, Hj by assumption. eapply D1; eauto.
  - rewrite nth_error_app1 in Hi by assumption.
    rewrite nth_error_app2 in Hj by assumption.
    exfalso. eapply X; eauto using nth_error_In.
  - rewrite nth_error_app2 in Hi by assumption.
    rewrite nth_error_app1 in Hj by assumption.
    exfalso. eapply X; eauto using nth_error_In.
  - rewrite nth_error_app2 in Hi, Hj by assumption.
    assert (i - List.length l1 = j - List.length l1)%nat by (eapply D2; eauto).
    lia.
Qed.

Lemma distinct_by_flat_map {A B K T} (key : A -> option K) (h : B -> list A)
    (tag : B -> T) l :
  NoDup (map tag l) ->
  (forall b, distinct_by key (h b)) ->
  (forall b b' x y k, In x (h b) -> In y (h b') ->
                      key x = Some k -> key y = Some k -> tag b = tag b') ->
  distinct_by key (flat_map h l).
Proof.
  intros ND D X. induction l as [|b l IH]; simpl.
  - intros [|i] j x y k Hi; discriminate Hi.
  - inversion ND as [|? ? NI ND']; subst.
    apply distinct_by_app; [apply D|now apply IH|].
    intros x y k Hx Hy Kx Ky. apply in_flat_map in Hy.
    destruct Hy as (b' & Hb' & Hy). apply NI.
    rewrite (X b b' x y k Hx Hy Kx Ky). now apply in_map.
Qed.

Definition bus_key (p : Proc) : option string :=
  match p with
  | PBus b _ => Some (bus_id b)
  | _ => None
  end.

Definition gen_key (p : Proc) : option string :=
  match p with
  | PGen g => Some (gen_stop g)
  | _ => None
  end.

Lemma in_gen_of kv p :
  In p (gen_of kv) ->
  exists r, find (fun r => mem (fst kv) (stops r)) (Dict.values (ROUTES cfg))
            = Some r /\
            p = PGen {| gen_stop := fst kv; rate := snd kv;
                        route_stops := stops r; pid := 0; gen_pc := G146 |}.
Proof.
  unfold gen_of. destruct (find _ _) as [r|]; [|contradiction].
  intros [<-|[]]. eauto.
Qed.

Lemma in_buses_of kv p :
  In p (buses_of kv) ->
  exists j, (j < Z.to_nat (num_buses (snd kv)))%nat /\
            p = bus_of (fst kv) (snd kv) j.
Proof.
  unfold buses_of. intro H. apply in_map_iff in H.
  destruct H as (j & <- & Hj). apply in_seq in Hj. exists j. split; [lia|auto].
Qed.

Lemma started_buses_distinct :
  NoDup (Dict.keys (ROUTES cfg)) -> distinct_by bus_key started.
Proof.
  intro ND. unfold started. apply distinct_by_app; [|apply distinct_by_app|].
  - intros i j x y k Hi _ Kx. apply nth_error_In, in_flat_map in Hi.
    destruct Hi as (kv & _ & Hx). apply in_gen_of in Hx.
    destruct Hx as (r & _ & ->). discriminate.
  - apply (distinct_by_flat_map bus_key buses_of fst); [exact ND| |].
    + intros kv i j x y k Hi Hj Kx Ky. unfold buses_of in Hi, Hj.
      rewrite nth_error_map in Hi, Hj.
      destruct (nth_error (seq 0 _) i) as [i'|] eqn:Ei; [|discriminate].
      destruct (nth_error (seq 0 _) j) as [j'|] eqn:Ej; [|discriminate].
      assert (Li : (i < List.length (seq 0 (Z.to_nat (num_buses (snd kv)))))%nat)
        by (apply nth_error_Some; congruence).
      assert (Lj : (j < List.length (seq 0 (Z.to_nat (num_buses (snd kv)))))%nat)
        by (apply nth_error_Some; congruence).
      rewrite length_seq in Li, Lj.
      rewrite (nth_error_nth' _ 0%nat) in Ei by (rewrite length_seq; assumption).
      rewrite (nth_error_nth' _ 0%nat) in Ej by (rewrite length_seq; assumption).
      rewrite seq_nth in Ei, Ej by assumption.
      simpl in Ei, Ej, Hi, Hj. injection Ei as <-. injection Ej as <-.
      injection Hi as <-. injection Hj as <-. simpl in Kx, Ky.
      rewrite <- Ky in Kx. injection Kx as Kx. apply bus_id_inj in Kx. lia.
    + intros kv kv' x y k Hx Hy Kx Ky. apply in_buses_of in Hx, Hy.
      destruct Hx as (j & _ & ->). destruct Hy as (j' & _ & ->).
      simpl in Kx, Ky. rewrite <- Ky in Kx. injection Kx as Kx.
      now apply bus_id_inj in Kx.
  - intros [|[|i]] j x y k Hi; simpl in Hi; try discriminate Hi.
    injection Hi as <-. discriminate.
  - intros x y k _ [<-|[]] _. discriminate.
  - intros x y k Hx _ Kx. apply in_flat_map in Hx.
    destruct Hx as (kv & _ & Hx). apply in_gen_of in Hx.
    destruct Hx as (r & _ & ->). discriminate.
Qed.

Lemma started_gens_distinct :
  NoDup (Dict.keys (ARRIVAL_RATES cfg)) -> distinct_by gen_key started.
Proof.
  intro ND. unfold started. apply distinct_by_app; [|apply distinct_by_app|].
  - apply (distinct_by_flat_map gen_key gen_of fst); [exact ND| |].
    + intros kv i j x y k Hi Hj _ _. unfold gen_of in Hi, Hj.
      destruct (find _ _); [|destruct i; discriminate].
      destruct i as [|[|i]]; try discriminate Hi.
      destruct j as [|[|j]]; try discriminate Hj. reflexivity.
    + intros kv kv' x y k Hx Hy Kx Ky. apply in_gen_of in Hx, Hy.
      destruct Hx as (r & _ & ->). destruct Hy as (r' & _ & ->).
      simpl in Kx, Ky. congruence.
  - intros i j x y k Hi _ Kx. apply nth_error_In, in_flat_map in Hi.
    destruct Hi as (kv & _ & Hx). apply in_buses_of in Hx.
    destruct Hx as (j' & _ & ->). discriminate.
  - intros [|[|i]] j x y k Hi; simpl in Hi; try discriminate Hi.
    injection Hi as <-. discriminate.
  - intros x y k _ [<-|[]] _. discriminate.
  - intros x y k _ Hy _ Ky. apply in_app_or in Hy. destruct Hy as [Hy|[<-|[]]].
    + apply in_flat_map in Hy. destruct Hy as (kv & _ & Hy).
      apply in_buses_of in Hy. destruct Hy as (j' & _ & ->). discriminate.
    + discriminate.
Qed.

Lemma Forall2_nth_error_r {A B} (R0 : A -> B -> Prop) l l' i y :
  Forall2 R0 l l' -> nth_error l' i = Some y ->
  exists x, nth_error l i = Some x /\ R0 x y.
Proof.
  intro F. revert i. induction F as [|a b l l' Hab F IH]; intros [|i] H;
    simpl in *; try discriminate.
  - injection H as <-. eauto.
  - auto.
Qed.

(** A bus of a run is one of the buses that the setup started. *)
Lemma bus_is_started s i b f :
  Reachable s -> nth_error (procs s) i = Some (PBus b f) ->
  exists kv j b0 f0,
    In kv (ROUTES cfg) /\ (j < Z.to_nat (num_buses (snd kv)))%nat /\
    nth_error started i = Some (PBus b0 f0) /\
    PBus b0 f0 = bus_of (fst kv) (snd kv) j /\
    bus_args b0 f0 = bus_args b f.
Proof.
  intros R P.
  destruct (Forall2_nth_error_r _ _ _ _ _ (Reachable_same_args s R) P)
    as (p0 & P0 & S).
  inversion S as [b0 f0 ? ? E| | |]; subst.
  pose proof (nth_error_In _ _ P0) as H. unfold started in H.
  apply in_app_or in H. destruct H as [H|H].
  { apply in_flat_map in H. destruct H as (kv & _ & H).
    apply in_gen_of in H. destruct H as (r & _ & H). discriminate. }
  apply in_app_or in H. destruct H as [H|[H|[]]]; [|discriminate].
  apply in_flat_map in H. destruct H as (kv & Hkv & H).
  apply in_buses_of in H. destruct H as (j & Lj & H).
  exists kv, j, b0, f0. auto.
Qed.

(** A generator of a run is one of the generators that the setup started. *)
Lemma gen_is_started s i g :
  Reachable s -> nth_error (procs s) i = Some (PGen g) ->
  exists kv r,
    In kv (ARRIVAL_RATES cfg) /\
    find (fun r => mem (fst kv) (stops r)) (Dict.values (ROUTES cfg)) = Some r /\
    nth_error started i
    = Some (PGen {| gen_stop := fst kv; rate := snd kv; route_stops := stops r;
                    pid := 0; gen_pc := G146 |}) /\
    gen_args g = (fst kv, snd kv, stops r).
Proof.
  intros R P.
  destruct (Forall2_nth_error_r _ _ _ _ _ (Reachable_same_args s R) P)
    as (p0 & P0 & S).
  inversion S as [|g0 ? E| |]; subst.
  pose proof (nth_error_In _ _ P0) as H. unfold started in H.
  apply in_app_or in H. destruct H as [H|H].
  - apply in_flat_map in H. destruct H as (kv & Hkv & H).
    apply in_gen_of in H. destruct H as (r & F & H).
    exists kv, r. rewrite <- H. split; [exact Hkv|]. split; [exact F|].
    split; [exact P0|]. rewrite <- E. injection H as ->. reflexivity.
  - apply in_app_or in H. destruct H as [H|[H|[]]]; [|discriminate].
    apply in_flat_map in H. destruct H as (kv & _ & H).
    apply in_buses_of in H. destruct H as (j & _ & H). discriminate.
Qed.

Lemma bus_ids_distinct s i j b f b' f' :
  NoDup (Dict.keys (ROUTES cfg)) -> Reachable s ->
  nth_error (procs s) i = Some (PBus b f) ->
  nth_error (procs s) j = Some (PBus b' f') ->
  bus_id b = bus_id b' -> i = j.
Proof.
  intros ND R Pi Pj E.
  destruct (bus_is_started s i b f R Pi) as (_ & _ & b0 & f0 & _ & _ & Si & _ & Ai).
  destruct (bus_is_started s j b' f' R Pj) as (_ & _ & b1 & f1 & _ & _ & Sj & _ & Aj).
  apply (started_buses_distinct ND i j _ _ (bus_id b) Si Sj); simpl.
  - injection Ai as Ai _ _ _ _ _. congruence.
  - injection Aj as Aj _ _ _ _ _. congruence.
Qed.

Lemma gen_stops_distinct s i j g g' :
  NoDup (Dict.keys (ARRIVAL_RATES cfg)) -> Reachable s ->
  nth_error (procs s) i = Some (PGen g) ->
  nth_error (procs s) j = Some (PGen g') ->
  gen_stop g = gen_stop g' -> i = j.
Proof.
  intros ND R Pi Pj E.
  destruct (gen_is_started s i g R Pi) as (kv & r & _ & _ & Si & Ai).
  destruct (gen_is_started s j g' R Pj) as (kv' & r' & _ & _ & Sj & Aj).
  apply (started_gens_distinct ND i j _ _ (gen_stop g) Si Sj); simpl.
  - injection Ai as Ai _ _. congruence.
  - injection Aj as Aj _ _. congruence.
Qed.
(** ** The bus statistics follow the buses *)

Lemma setup_cases (P : State -> Prop) :
  P (set_stops_map (create_stops (ROUTES cfg)) empty_state) ->
  (forall g s, P s -> P (process (PGen g) s)) ->
  (forall bid rname sts rinfo start s,
     P s -> P (Bus_init bid rname sts rinfo start s)) ->
  (forall s, P s -> P (process PMon s)) ->
  forall s, setup = Ok s -> P s.
Proof.
  intros P0 Pg Pb Pm s H. unfold setup in H.
  destruct (fold_result start_generator _ _) as [s1|] eqn:E1; simpl in H;
    [|discriminate].
  destruct (fold_result start_buses _ _) as [s2|] eqn:E2; simpl in H;
    [|discriminate].
  injection H as <-. apply Pm.
  eapply fold_result_inv; [| |exact E2].
  - intros a x a' Pa Ha. unfold start_buses in Ha.
    eapply fold_result_inv; [| |exact Ha]; [|exact Pa].
    intros a0 i a1 Pa0 Hb. unfold start_bus in Hb.
    destruct (_ =? _)%Z; [discriminate|].
    destruct (forallb _ _); [|discriminate]. injection Hb as <-.
    apply Pb, Pa0.
  - eapply fold_result_inv; [| |exact E1]; [|exact P0].
    intros a kv a' Pa Ha. unfold start_generator in Ha.
    destruct (find _ _); [|now injection Ha as <-].
    destruct (Dict.get _ _); [|discriminate]. injection Ha as <-.
    now apply Pg.
Qed.

(** Every bus has its entry in [metrics["bus_stats"]]. *)
Definition stats_present (s : State) : Prop :=
  forall i b f, nth_error (procs s) i = Some (PBus b f) ->
  exists st, Dict.get (bus_id b) (bus_stats (metrics s)) = Some st.

Lemma nth_error_snoc {A} (l : list A) x i y :
  nth_error (l ++ [x]) i = Some y ->
  nth_error l i = Some y \/ (i = List.length l /\ y = x).
Proof.
  intro H. destruct (Nat.lt_ge_cases i (List.length l)) as [L|L].
  - rewrite nth_error_app1 in H by assumption. now left.
  - rewrite nth_error_app2 in H by assumption.
    destruct (i - List.length l)%nat as [|[|?]] eqn:E; simpl in H;
      try discriminate.
    injection H as <-. right. split; [lia|reflexivity].
Qed.

Lemma stats_present_start s : run_simulation = Ok s -> stats_present s.
Proof.
  intro H. apply run_simulation_inv in H. destruct H as (s0 & E & _ & ->).
  unfold stats_present. simpl. revert s0 E.
  apply (setup_cases
           (fun s0 => forall i b f, nth_error (procs s0) i = Some (PBus b f) ->
              exists st, Dict.get (bus_id b) (bus_stats (metrics s0)) = Some st)).
  - intros [|i] b f H; discriminate H.
  - intros g s I i b f H. simpl in H. apply nth_error_snoc in H.
    destruct H as [H|[_ H]]; [eauto|discriminate].
  - intros bid rname sts rinfo start s I i b f H. unfold Bus_init in *.
    simpl in *. apply nth_error_snoc in H. rewrite Dict.get_set.
    destruct H as [H|[_ H]].
    + destruct (String.eqb _ bid); eauto.
    + injection H as -> _. simpl. rewrite String.eqb_refl. eauto.
  - intros s I i b f H. simpl in H. apply nth_error_snoc in H.
    destruct H as [H|[_ H]]; [eauto|discriminate].
Qed.

Lemma stats_present_step s s' :
  Reachable s -> stats_present s -> step s = Running s' -> stats_present s'.
Proof.
  intros R I H. step_cases H R.
  all: intros i' b' f' P'; read_procs P'; simpl.
  all: rewrite ?Dict.get_set.
  all: repeat match goal with
         | |- context [String.eqb ?a ?b] => destruct (String.eqb a b)
         end.
  all: eauto.
Qed.

Lemma Reachable_stats_present s : Reachable s -> stats_present s.
Proof.
  revert s. apply (Reachable_inv stats_present).
  - apply stats_present_start.
  - apply stats_present_step.
Qed.

Definition stat_of (b : Bus) : BusStat :=
  {| stat_active_minutes := active_minutes b;
     stat_occupied_minutes := occupied_minutes b;
     stat_trips_completed := trips_completed b |}.

Definition mirror_inv (s : State) : Prop :=
  forall i b f, nth_error (procs s) i = Some (PBus b f) ->
  Dict.get (bus_id b) (bus_stats (metrics s)) = Some (stat_of b).

Lemma mirror_inv_step s s' :
  NoDup (Dict.keys (ROUTES cfg)) ->
  Reachable s -> mirror_inv s -> step s = Running s' -> mirror_inv s'.
Proof.
  intros ND R I H.
  pose proof (bus_ids_distinct s) as BD.
  step_cases H R.
  all: try match goal with
         | A : active_process _ = Some ?n,
           B : nth_error (procs _) ?n = Some (PBus _ _) |- _ =>
             pose proof (I _ _ _ B) as Iself
         end.
  all: try match goal with
         | G : Dict.get (bus_id _) (bus_stats _) = Some _ |- _ =>
             rewrite Iself in G; injection G as <-
         end.
  all: intros i' b' f' P'; read_procs P'; simpl.
  all: try solve [eapply I; eauto].
  all: try exact Iself.
  all: rewrite ?Dict.get_set.
  all: try (rewrite String.eqb_refl; reflexivity).
  all: try congruence.
  all: match goal with
       | |- context [String.eqb ?a ?b] =>
           destruct (String.eqb_spec a b) as [E|E]; [|eapply I; eauto]
       end.
  all: exfalso.
  all: match goal with
       | D : ?n <> ?i', B : nth_error (procs _) ?n = Some _,
         B' : nth_error (procs _) ?i' = Some _ |- _ =>
           apply D; symmetry; eapply (BD _ _ _ _ _ _ ND R B' B E)
       end.
Qed.

Lemma mirror_inv_start s : run_simulation = Ok s -> mirror_inv s.
Proof.
  intros H i b f P.
  destruct (stats_present_start s H i b f P) as [st G].
  rewrite G. f_equal.
  rewrite (proj2 (proj2 (proj2 (setup_metrics s H))) _ _ G).
  rewrite (run_simulation_procs _ H) in P.
  destruct (started_unused i b f P) as (_ & _ & T & A & O).
  - apply nth_error_In in P. unfold started in P.
    apply in_app_or in P. destruct P as [P|P].
    + apply in_flat_map in P. destruct P as (kv & _ & P).
      apply in_gen_of in P. destruct P as (r & _ & P). discriminate.
    + apply in_app_or in P. destruct P as [P|[P|[]]]; [|discriminate].
      apply in_flat_map in P. destruct P as (kv & _ & P).
      apply in_buses_of in P. destruct P as (j & _ & P).
      unfold bus_of in P. injection P as _ ->. reflexivity.
  - unfold stat_of, zero_stat. now rewrite T, A, O.
Qed.

Lemma Reachable_mirror_inv s :
  NoDup (Dict.keys (ROUTES cfg)) -> Reachable s -> mirror_inv s.
Proof.
  intro ND. revert s. apply (Reachable_inv mirror_inv).
  - apply mirror_inv_start.
  - intros. eapply mirror_inv_step; eauto.
Qed.

(** X9: the buses of a run are those of the configuration.  Every bus of
    every state of a run is bus number [j] (counted from 0) of a route of
    [ROUTES], for some [j] below [num_buses]: its id is
    [f"{route_name}-Bus-{j+1}"], it serves the stops of that route with
    the capacity [BUS_CAPACITY], and its start offset is
    [j * headway / num_buses], which lies in [0, headway) when the
    headway is positive.  The Route column of the bus table
    ([bus.split("-")[0]], line 224) is the first dash-separated field of
    the route name, hence the route name when it has no dash.  Distinct
    buses have distinct ids. *)
Theorem X9_buses_of_a_run :
  NoDup (Dict.keys (ROUTES cfg)) ->
  forall s, Reachable s ->
  forall i b f, nth_error (procs s) i = Some (PBus b f) ->
  (exists j,
     (Z.of_nat j < num_buses (route_info b))%Z /\
     bus_id b = (route_name b ++ "-Bus-" ++ str (j + 1))%string /\
     start_time f
     = Qnat j * headway (route_info b) / inject_Z (num_buses (route_info b))) /\
  (0 < headway (route_info b) ->
   0 <= start_time f /\ start_time f < headway (route_info b)) /\
  In (route_name b, route_info b) (ROUTES cfg) /\
  bus_stops b = stops (route_info b) /\
  capacity b = BUS_CAPACITY cfg /\
  route_column (bus_id b) = route_column (route_name b) /\
  (has_dash (route_name b) = false ->
   route_column (bus_id b) = Ok (route_name b)) /\
  (forall i' b' f', nth_error (procs s) i' = Some (PBus b' f') ->
                    bus_id b' = bus_id b -> i' = i).
Proof.
  intros ND s R i b f P.
  assert (U : forall i' b' f', nth_error (procs s) i' = Some (PBus b' f') ->
                               bus_id b' = bus_id b -> i' = i).
  { intros i' b' f' P' E. symmetry.
    exact (bus_ids_distinct s i i' _ _ _ _ ND R P P' (eq_sym E)). }
  destruct (bus_is_started s i b f R P)
    as ([rname rinfo] & j & b0 & f0 & Hkv & Lj & _ & E & A).
  unfold bus_of in E. injection E as -> ->. simpl in *.
  revert U. injection A as <- <- <- <- <- <-. intro U.
  assert (Nj : (Z.of_nat j < num_buses rinfo)%Z) by lia.
  split; [exists j; auto|].
  split.
  { intro Hp.
    assert (Np : 0 < inject_Z (num_buses rinfo))
      by (change 0 with (inject_Z 0); rewrite <- Zlt_Qlt; lia).
    assert (J0 : 0 <= Qnat j)
      by (unfold Qnat; change 0 with (inject_Z 0); rewrite <- Zle_Qle; lia).
    assert (J1 : Qnat j < inject_Z (num_buses rinfo))
      by (unfold Qnat; now rewrite <- Zlt_Qlt).
    split.
    - apply Qle_shift_div_l; [exact Np|]. nra.
    - apply Qlt_shift_div_r; [exact Np|]. nra. }
  split; [exact Hkv|]. split; [reflexivity|]. split; [reflexivity|].
  destruct (route_column_of_bus_id rname j) as (C1 & _ & C2 & _).
  split; [exact C1|]. split; [exact C2|exact U].
Qed.

(** X10: [metrics["bus_stats"]] mirrors the buses.  Every bus has its
    entry under its id from the start, so the updates of lines 131, 132
    and 140 never raise [KeyError]; and since ids are distinct, the
    entry holds in every state of a run exactly the [active_minutes],
    [occupied_minutes] and [trips_completed] of the bus object. *)
Theorem X10_bus_stats_mirror_the_bus :
  NoDup (Dict.keys (ROUTES cfg)) ->
  forall s, Reachable s ->
  forall i b f, nth_error (procs s) i = Some (PBus b f) ->
  Dict.get (bus_id b) (bus_stats (metrics s))
  = Some {| stat_active_minutes := active_minutes b;
            stat_occupied_minutes := occupied_minutes b;
            stat_trips_completed := trips_completed b |}.
Proof.
  intros ND s R i b f P. exact (Reachable_mirror_inv s ND R i b f P).
Qed.
(** ** Passenger ids *)

(** The passengers created in a run, in order. *)
Fixpoint generated (tr : list Obs) : list Passenger :=
  match tr with
  | [] => []
  | o :: tr' =>
      generated tr' ++
      match o with
      | ObsPut _ p => [p]
      | _ => []
      end
  end.

(** The ids [k-1], ..., [k-n]. *)
Definition ids_of (k : string) (n : nat) : list string :=
  map (fun j => (k ++ "-" ++ str j)%string) (seq 1 n).

Record ids_inv (s : State) : Prop := {
  id_puts :
    forall k, map pass_id (puts k (trace s))
              = ids_of k (List.length (puts k (trace s)));
  id_gen :
    forall i g, nth_error (procs s) i = Some (PGen g) ->
    pid g = List.length (puts (gen_stop g) (trace s));
  id_start :
    forall i g, nth_error (procs s) i = Some (PGen g) -> gen_pc g = G146 ->
    pid g = 0%nat;
  id_nodup : NoDup (map pass_id (generated (trace s)));
  id_known :
    forall p, In p (generated (trace s)) ->
    exists k j, pass_id p = (k ++ "-" ++ str j)%string /\
                (j <= List.length (puts k (trace s)))%nat
}.

Lemma generated_app a b : generated (a ++ b) = generated b ++ generated a.
Proof.
  induction a as [|o a IH]; simpl; [now rewrite app_nil_r|].
  now rewrite IH, app_assoc.
Qed.

Lemma generated_alights n l : generated (rev (map (ObsAlight n) l)) = [].
Proof.
  induction l as [|p l IH]; simpl; [reflexivity|].
  rewrite generated_app, IH. reflexivity.
Qed.

Lemma ids_of_S k n : ids_of k (S n) = ids_of k n ++ [(k ++ "-" ++ str (n + 1))%string].
Proof.
  unfold ids_of. rewrite seq_S, map_app. simpl. now rewrite Nat.add_comm.
Qed.

Lemma puts_past_alights k n l tr :
  puts k (rev (map (ObsAlight n) l) ++ tr) = puts k tr.
Proof. now rewrite puts_app, puts_alights, app_nil_r. Qed.

Lemma generated_past_alights n l tr :
  generated (rev (map (ObsAlight n) l) ++ tr) = generated tr.
Proof. now rewrite generated_app, generated_alights, app_nil_r. Qed.

Lemma ids_inv_step s s' :
  NoDup (Dict.keys (ARRIVAL_RATES cfg)) ->
  Reachable s -> ids_inv s -> step s = Running s' -> ids_inv s'.
Proof.
  intros ND R I H.
  pose proof (gen_stops_distinct s) as GD.
  step_cases H R.
  all: constructor; simpl; intros.
  all: rewrite ?puts_past_alights, ?generated_past_alights in *.
  all: try match goal with
         | P' : nth_error (list_set _ _ _) _ = Some (PGen _) |- _ =>
             read_procs P'; try congruence;
             try match goal with
               | E : PGen _ = PGen _ |- _ => injection E as ->
               end
         end.
  all: try match goal with
         | K : In _ _ |- exists k j, _ =>
             simpl in K; rewrite ?app_nil_r in K
         end.
  all: try match goal with
         | K : In ?q (generated (trace _)) |- exists k j, _ =>
             destruct (id_known _ I _ K) as (k1 & j1 & E1 & L1);
             exists k1, j1; split; [exact E1|];
             rewrite ?puts_past_alights; simpl; rewrite ?length_app; lia
         end.
  all: simpl; rewrite ?app_nil_r.
  all: try apply (id_puts _ I).
  all: try exact (id_nodup _ I).
  all: try solve [eapply (id_gen _ I); eauto].
  all: try solve [eapply (id_start _ I); eauto].
  all: try discriminate.
  all: try match goal with
         | G : Dict.get (gen_stop _) (stops_map _) = Some _ |- _ =>
             pose proof (proj1 (proj2 SO _ _ G)) as N; rewrite N in *
         end.
  all: try match goal with
         | B : nth_error (procs _) _ = Some (PGen ?g0), A : active_process _ = _
           |- _ =>
             pose proof (id_gen _ I _ _ B) as Ig
         end.
  - (* line 146 *)
    rewrite <- Ig. symmetry. eapply (id_start _ I); eauto.
  - (* the ids of the stop that gets the passenger *)
    destruct (String.eqb_spec (gen_stop g) k) as [<-|D];
      [|rewrite app_nil_r; apply (id_puts _ I)].
    rewrite map_app, length_app, (id_puts _ I). simpl.
    rewrite Ig, !Nat.add_1_r, ids_of_S, Nat.add_1_r. reflexivity.
  - rewrite String.eqb_refl, length_app. simpl. lia.
  - destruct (String.eqb_spec (gen_stop g) (gen_stop g0)) as [E|D'].
    + exfalso. apply D. eapply (GD _ _ _ _ ND R); eauto.
    + rewrite app_nil_r. eapply (id_gen _ I); eauto.
  - rewrite map_app. simpl. apply NoDup_app; [apply (id_nodup _ I)| |].
    + repeat constructor. intros [].
    + intros x Hx [<-|[]]. apply in_map_iff in Hx. destruct Hx as (q & Eq & Hq).
      destruct (id_known _ I _ Hq) as (k1 & j1 & E1 & L1).
      rewrite E1 in Eq. apply passenger_id_inj in Eq. destruct Eq as [-> ->].
      lia.
  - apply in_app_or in H. destruct H as [H|[<-|[]]].
    + destruct (id_known _ I _ H) as (k1 & j1 & E1 & L1).
      exists k1, j1. split; [exact E1|]. rewrite length_app. lia.
    + exists (gen_stop g), (pid g + 1)%nat. split; [reflexivity|].
      rewrite String.eqb_refl, length_app. simpl. lia.
Qed.

Lemma ids_inv_start s : run_simulation = Ok s -> ids_inv s.
Proof.
  intro H. pose proof (run_simulation_procs _ H) as P.
  apply run_simulation_ok in H. destruct H.
  assert (G : forall i g, nth_error started i = Some (PGen g) -> pid g = 0%nat).
  { intros i g Hg. apply nth_error_In in Hg. unfold started in Hg.
    apply in_app_or in Hg. destruct Hg as [Hg|Hg].
    - apply in_flat_map in Hg. destruct Hg as (kv & _ & Hg).
      apply in_gen_of in Hg. destruct Hg as (r & _ & Hg).
      injection Hg as ->. reflexivity.
    - apply in_app_or in Hg. destruct Hg as [Hg|[Hg|[]]]; [|discriminate].
      apply in_flat_map in Hg. destruct Hg as (kv & _ & Hg).
      apply in_buses_of in Hg. destruct Hg as (j & _ & Hg). discriminate. }
  constructor; rewrite ?setup_trace0; simpl.
  - reflexivity.
  - intros i g Hg. rewrite P in Hg. eauto.
  - intros i g Hg _. rewrite P in Hg. eauto.
  - constructor.
  - intros p [].
Qed.

Lemma Reachable_ids_inv s :
  NoDup (Dict.keys (ARRIVAL_RATES cfg)) -> Reachable s -> ids_inv s.
Proof.
  intro ND. revert s. apply (Reachable_inv ids_inv).
  - apply ids_inv_start.
  - intros. eapply ids_inv_step; eauto.
Qed.

(** X11: passenger ids are consecutive at each stop and unique in the
    run.  The passengers created at a stop carry, in the order of their
    creation, the ids [f"{stop}-1"], [f"{stop}-2"], ...: the [pid] of
    the one generator of the stop counts them; and no two passengers
    created in a run have the same id, whatever the stop names are. *)
Theorem X11_passenger_ids_are_unique :
  NoDup (Dict.keys (ARRIVAL_RATES cfg)) ->
  forall s, Reachable s ->
  (forall k j p, nth_error (puts k (trace s)) j = Some p ->
     pass_id p = (k ++ "-" ++ str (j + 1))%string) /\
  (forall i g, nth_error (procs s) i = Some (PGen g) ->
     pid g = List.length (puts (gen_stop g) (trace s))) /\
  NoDup (map pass_id (generated (trace s))).
Proof.
  intros ND s R. destruct (Reachable_ids_inv s ND R) as [A B _ C _].
  split; [|split; [exact B|exact C]].
  intros k j p Hj.
  assert (Hm : nth_error (map pass_id (puts k (trace s))) j = Some (pass_id p))
    by (rewrite nth_error_map, Hj; reflexivity).
  rewrite A in Hm. unfold ids_of in Hm. rewrite nth_error_map in Hm.
  destruct (nth_error (seq 1 _) j) as [j'|] eqn:Ej; [|discriminate].
  assert (Lj : (j < List.length (seq 1 (List.length (puts k (trace s)))))%nat)
    by (apply nth_error_Some; congruence).
  rewrite length_seq in Lj.
  rewrite (nth_error_nth' _ 0%nat) in Ej by (rewrite length_seq; exact Lj).
  rewrite seq_nth in Ej by exact Lj. injection Ej as <-.
  injection Hm as <-. now rewrite Nat.add_comm.
Qed.
(** ** A run that does not fail *)

Lemma Reachable_stops_keys s :
  Reachable s -> Dict.keys (stops_map s) = Dict.keys (create_stops (ROUTES cfg)).
Proof.
  revert s.
  apply (Reachable_inv
           (fun s => Dict.keys (stops_map s)
                     = Dict.keys (create_stops (ROUTES cfg)))).
  - intros s H. apply run_simulation_inv in H. destruct H as (s0 & E & _ & ->).
    simpl. f_equal. revert s0 E.
    apply (setup_cases (fun s0 => stops_map s0 = create_stops (ROUTES cfg)));
      auto.
  - intros s s' R I H. now rewrite (stops_keys_step s s' R H).
Qed.

Lemma stop_present s r k :
  Reachable s -> In r (Dict.values (ROUTES cfg)) -> In k (stops r) ->
  exists st, Dict.get k (stops_map s) = Some st.
Proof.
  intros R Hr Hk. apply Dict.get_keys. rewrite (Reachable_stops_keys s R).
  apply Dict.get_keys. exact (create_stops_complete r Hr k Hk).
Qed.

(** The loop of lines 92-94 removes passengers that are on board. *)
Inductive subseq {A} : list A -> list A -> Prop :=
| subseq_nil l : subseq [] l
| subseq_take x l1 l2 : subseq l1 l2 -> subseq (x :: l1) (x :: l2)
| subseq_skip x l1 l2 : subseq l1 l2 -> subseq l1 (x :: l2).

Lemma subseq_filter {A} (P : A -> bool) l : subseq (filter P l) l.
Proof.
  induction l as [|x l IH]; simpl; [constructor|].
  destruct (P x); now constructor.
Qed.

Lemma subseq_tail {A} (x : A) l m : subseq (x :: l) m -> subseq l m.
Proof.
  intro H. remember (x :: l) as xl eqn:E. revert x l E.
  induction H as [m|y l1 l2 H IH|y l1 l2 H IH]; intros x l E.
  - discriminate.
  - injection E as -> ->. now constructor.
  - constructor. eapply IH; eauto.
Qed.

Lemma list_remove_subseq p rest onb :
  subseq (p :: rest) onb ->
  exists onb', list_remove p onb = Some onb' /\ subseq rest onb'.
Proof.
  intro H. remember (p :: rest) as pl eqn:E. revert p rest E.
  induction H as [m|y l1 l2 H IH|y l1 l2 H IH]; intros p rest E.
  - discriminate.
  - injection E as -> ->. simpl. rewrite String.eqb_refl. eauto.
  - subst l1. simpl. destruct (String.eqb (pass_id y) (pass_id p)).
    + eexists. split; [reflexivity|]. eapply subseq_tail; eauto.
    + destruct (IH _ _ eq_refl) as (onb' & -> & S). eexists.
      split; [reflexivity|]. now constructor.
Qed.

Lemma alight_loop_defined t al onb :
  subseq al onb -> exists done rest, alight_loop t al onb = Some (done, rest).
Proof.
  revert onb. induction al as [|p al IH]; intros onb H; simpl; [eauto|].
  destruct (list_remove_subseq _ _ _ H) as (onb' & -> & S).
  destruct (IH _ S) as (done & rest & ->). eauto.
Qed.

Lemma list_index_found x l : In x l -> exists i, list_index x l = Some i.
Proof.
  induction l as [|y l IH]; simpl; [contradiction|].
  intros [->|H].
  - rewrite String.eqb_refl. eauto.
  - destruct (String.eqb y x); [eauto|].
    destruct (IH H) as [i ->]. eauto.
Qed.

(** A configuration with which nothing can go wrong: no negative time,
    positive arrival rates, and at least one stop on a route that has
    buses. *)
Record valid_config : Prop := {
  valid_boarding : 0 <= BOARDING_TIME cfg;
  valid_alighting : 0 <= ALIGHTING_TIME cfg;
  valid_dwell : 0 <= MIN_DWELL cfg;
  valid_routes :
    forall kv, In kv (ROUTES cfg) ->
    0 <= headway (snd kv) /\
    ((0 < num_buses (snd kv))%Z -> stops (snd kv) <> []);
  valid_rates : forall kv, In kv (ARRIVAL_RATES cfg) -> 0 < snd kv
}.

(** Draws as the libraries make them: an exponential draw is not
    negative, and [random.choice] picks an index inside the sequence. *)
Definition valid_draws : Prop :=
  (forall n scale, 0 <= scale -> 0 <= np_exponential n scale) /\
  (forall n len, (0 < len)%nat -> (random_below n len < len)%nat).

Lemma not_negative x : 0 <= x -> Qlt_bool x 0 = true -> False.
Proof. intros H E. apply Qlt_bool_iff in E. lra. Qed.

Lemma Qnat_nonneg n : 0 <= Qnat n.
Proof.
  unfold Qnat. change 0 with (inject_Z 0). rewrite <- Zle_Qle. lia.
Qed.

Record safe_inv (s : State) : Prop := {
  safe_procs : forall i, nth_error (procs s) i <> Some PDead;
  safe_heap : forall e err, In e (heap s) -> callback e <> Raise err
}.

Lemma safe_inv_step s s' :
  valid_config -> valid_draws ->
  Reachable s -> safe_inv s -> step s = Running s' -> safe_inv s'.
Proof.
  intros V [D1 D2] R I H.
  pose proof (Reachable_handoff_inv _ R) as HO.
  pose proof (Reachable_stats_present _ R) as SP.
  pose proof (Reachable_route _ R) as [_ RF].
  step_cases H R.
  all: try match goal with
         | A : active_process _ = Some ?n,
           B : nth_error (procs _) ?n = Some (PBus ?b ?f) |- _ =>
             specialize (RF _ _ _ B); unfold route_frame in RF;
             destruct (bus_is_started _ _ _ _ R B)
               as ([rname rinfo] & j & b0 & f0 & Hkv & Lj & _ & Eb & Ab);
             unfold bus_of in Eb; injection Eb as -> ->;
             injection Ab as Ab1 Ab2 Ab3 Ab4 Ab5 Ab6; simpl in *;
             destruct (valid_routes V _ Hkv) as [Vh Vs]; simpl in *;
             destruct (SP _ _ _ B) as [st' SB]
         | A : active_process _ = Some ?n,
           B : nth_error (procs _) ?n = Some (PGen ?g) |- _ =>
             destruct (gen_is_started _ _ _ R B)
               as ([k0 rate0] & r0 & Hkv & Fr & _ & Ag);
             injection Ag as Ag1 Ag2 Ag3; simpl in *;
             pose proof (valid_rates V _ Hkv) as Vr; simpl in *
         end.
  all: try match goal with
         | E : bus_pc _ = _ |- _ => rewrite E in RF
         end.
  (* the transitions that raise nothing *)
  all: try (lazymatch goal with
            | |- context [Raise] => fail
            | |- _ => idtac
            end;
            destruct I as [I1 I2];
            try match goal with
              | P : heappop (heap _) = Some _ |- _ =>
                  pose proof (fun x => proj2 (heappop_In _ _ _ x P)) as InH
              end;
            constructor; simpl;
            [ intros i' P'; read_procs P'; try discriminate P';
              try congruence; eapply I1; eauto
            | intros e' err He';
              try (destruct He' as [<-|He']; [simpl; discriminate|]);
              eauto ]).
  all: exfalso.
  (* no delay is negative *)
  all: try solve [eapply not_negative; [|eassumption];
                  first [ apply (valid_boarding V) | apply (valid_dwell V)
                        | apply Qmult_le_0_compat;
                          [apply Qnat_nonneg|apply (valid_alighting V)]
                        | apply Qlt_le_weak, py_min_step;
                          now apply Qlt_bool_iff
                        | lra ]].
  (* the entry of the bus statistics is there *)
  all: try congruence.
  (* the bus numbers of a route *)
  all: try match goal with
         | Lj : (_ < Z.to_nat (num_buses ?r))%nat |- _ =>
             assert (Np : (0 < num_buses r)%Z) by lia;
             pose proof (Vs Np) as Ne;
             assert (Hr : In r (Dict.values (ROUTES cfg)))
               by (unfold Dict.values; change r with (snd (rname, r));
                   now apply in_map)
         end.
  (* the stop of the bus is in the map *)
  all: try match goal with
         | E : nth_error (bus_stops _) _ = Some ?k,
           G : Dict.get ?k (stops_map _) = None |- _ =>
             apply nth_error_In in E; rewrite <- Ab3 in E;
             destruct (stop_present s _ _ R Hr E) as [? G']; congruence
         | G : Dict.get (stop _) (stops_map _) = None |- _ =>
             destruct RF as [_ [_ E]];
             apply nth_error_In in E; rewrite <- Ab3 in E;
             destruct (stop_present s _ _ R Hr E) as [? G']; congruence
         end.
  (* the start offset *)
  all: try match goal with
         | E : Qlt_bool (start_time _) 0 = true |- _ =>
             rewrite <- Ab6 in E; eapply not_negative; [|exact E];
             apply Qle_shift_div_l;
             [ change 0 with (inject_Z 0); rewrite <- Zlt_Qlt; exact Np
             | rewrite Qmult_0_l; apply Qmult_le_0_compat;
               [apply Qnat_nonneg|exact Vh] ]
         end.
  (* the alighting loop *)
  all: try match goal with
         | E : alight_loop ?t (filter ?P ?l) ?l = None |- _ =>
             destruct (alight_loop_defined t (filter P l) l
                         (subseq_filter P l)) as (? & ? & E');
             congruence
         end.
  (* the index of the current stop *)
  all: try match goal with
         | E : nth_error (bus_stops _) _ = None |- _ =>
             apply nth_error_None in E;
             destruct RF as [_ [_ [Lt|[Z0 _]]]]; [lia|congruence]
         | E : List.length (bus_stops _) = 0%nat |- _ =>
             destruct RF as [_ [_ E']];
             assert (current_index self < List.length (bus_stops self))%nat
               by (apply nth_error_Some; congruence);
             lia
         end.
  (* the passenger handed to the bus *)
  all: try match goal with
         | E : sent _ = None, A : active_process _ = Some _,
           B : nth_error (procs _) _ = Some (PBus _ _), L : bus_pc _ = L102
           |- _ =>
             destruct (ho_sent _ HO _ _ _ A B L) as (? & E' & _); congruence
         end.
  (* the monitor *)
  all: try discriminate.
  (* the generators *)
  all: try match goal with
         | F : find _ _ = Some ?r |- _ =>
             pose proof F as F'; apply find_some in F';
             destruct F' as [Hr Hm]; unfold mem in Hm;
             apply existsb_exists in Hm; destruct Hm as (k' & Hk & Ek);
             apply String.eqb_eq in Ek; subst k'
         end.
  all: try match goal with
         | G : Dict.get (gen_stop _) (stops_map _) = None |- _ =>
             rewrite Ag1 in G;
             destruct (stop_present s _ _ R Hr Hk) as [? G']; congruence
         end.
  all: try match goal with
         | E : Qeq_bool (rate _) 0 = true |- _ =>
             apply Qeq_bool_iff in E; rewrite Ag2 in E; lra
         end.
  all: try assert (Ip : 0 < 1 / rate g)
    by (rewrite Ag2; unfold Qdiv; rewrite Qmult_1_l;
        now apply Qinv_lt_0_compat).
  all: try solve [eapply not_negative; [|eassumption];
                  first [ apply D1; lra | lra ]].
  (* the destination *)
  match goal with
  | G : Dict.get (gen_stop _) (stops_map _) = Some ?st |- _ =>
      pose proof (proj1 (proj2 SO _ _ G)) as N
  end.
  rewrite N, Ag1, Ag3 in Heqr. unfold choose_destination in Heqr.
  destruct (list_index_found _ _ Hk) as [idx Ei]. rewrite Ei in Heqr.
  destruct (idx + 1 <? List.length (stops r0))%nat eqn:Lt; [|discriminate].
  apply Nat.ltb_lt in Lt.
  destruct (nth_error _ _) eqn:Nth in Heqr; [discriminate|].
  apply nth_error_None in Nth.
  assert (0 < List.length (skipn (idx + 1) (stops r0)))%nat
    by (rewrite length_skipn; lia).
  specialize (D2 (rnd s) _ H). lia.
Qed.

Lemma safe_inv_start s : run_simulation = Ok s -> safe_inv s.
Proof.
  intro H. pose proof (run_simulation_procs _ H) as P.
  apply run_simulation_ok in H. destruct H. constructor.
  - intros i E. apply (setup_procs0 i PDead E).
  - intros e err He C.
    destruct (setup_heap_cb0 e He) as [C'|(j & C' & _)]; congruence.
Qed.

Lemma Reachable_safe_inv s :
  valid_config -> valid_draws -> Reachable s -> safe_inv s.
Proof.
  intros V D. revert s. apply (Reachable_inv safe_inv).
  - apply safe_inv_start.
  - intros. eapply safe_inv_step; eauto.
Qed.

(** X12: with a sound configuration the run never raises.  If no time of
    the configuration is negative, every arrival rate is positive and
    every route that has buses has a stop, and if the draws are what the
    libraries return (an exponential draw is not negative, a choice lies
    inside its sequence), then in every state of a run no process has
    failed and no failure is scheduled, each transition of the event
    loop goes on or stops the run, and the lookups of the code
    ([self.stops[self.current_index]], the stop map, the bus statistics,
    [route_stops.index], [onboard.remove]) all succeed. *)
Theorem X12_a_sound_configuration_never_raises :
  valid_config -> valid_draws ->
  forall s, Reachable s ->
  (forall i, nth_error (procs s) i <> Some PDead) /\
  (forall e err, In e (heap s) -> callback e <> Raise err) /\
  (forall err s', step s <> Crashed err s') /\
  (forall me b f, active_process s = Some me ->
     nth_error (procs s) me = Some (PBus b f) ->
     exists s', Bus_run me b f s = Go s') /\
  (forall me g, active_process s = Some me ->
     nth_error (procs s) me = Some (PGen g) ->
     exists s', passenger_generator me g s = Go s').
Proof.
  intros V D s R. pose proof (Reachable_safe_inv s V D R) as [I1 I2].
  assert (N : forall me r, active_process s = Some me ->
            match nth_error (procs s) me with
            | Some (PBus b f) => Bus_run me b f s = r
            | Some (PGen g) => passenger_generator me g s = r
            | _ => False
            end -> exists s', r = Go s').
  { intros me r A Hr. destruct r as [s1|e s1]; [eauto|]. exfalso.
    assert (S : step s = Running
                  (set_active None
                     (schedule NORMAL 0 (Raise e) (set_proc me PDead s1)))).
    { unfold step. rewrite A.
      destruct (nth_error (procs s) me) as [[b f|g| |]|]; try contradiction;
        now rewrite Hr. }
    assert (R' : Reachable _) by (eapply Reach_step; [exact R|exact S]).
    destruct (Reachable_safe_inv _ V D R') as [_ J].
    eapply J; [left; reflexivity|reflexivity]. }
  split; [exact I1|]. split; [exact I2|]. split; [|split].
  - intros err s' H. unfold step in H.
    destruct (active_process s) as [me|] eqn:A.
    { destruct (nth_error (procs s) me) as [[b f|g| |]|]; unfold finish in H;
        try discriminate H.
      - destruct (Bus_run me b f s); discriminate H.
      - destruct (passenger_generator me g s); discriminate H. }
    unfold env_step in H.
    destruct (heappop (heap s)) as [[e rest]|] eqn:P; [|discriminate].
    destruct (callback e) eqn:C; try discriminate H.
    eapply I2; [|exact C]. apply (heappop_In _ _ _ e P). now left.
  - intros me b f A P. apply (N me _ A). now rewrite P.
  - intros me g A P. apply (N me _ A). now rewrite P.
Qed.
(** ** The alighting loop on its own *)

Lemma list_remove_fresh p pre post :
  (forall q, In q pre -> pass_id q <> pass_id p) ->
  list_remove p (pre ++ p :: post) = Some (pre ++ post).
Proof.
  induction pre as [|x pre IH]; intro F; simpl.
  - now rewrite String.eqb_refl.
  - destruct (String.eqb_spec (pass_id x) (pass_id p)) as [E|_].
    + exfalso. apply (F x); [now left|exact E].
    + rewrite IH; [reflexivity|]. intros q Hq. apply F. now right.
Qed.

Lemma alight_loop_exact_from t (P : Passenger -> bool) onb pre :
  NoDup (map pass_id (pre ++ onb)) ->
  alight_loop t (filter P onb) (pre ++ onb)
  = Some (map (set_alight_time t) (filter P onb),
          pre ++ filter (fun p => negb (P p)) onb).
Proof.
  revert pre. induction onb as [|x onb IH]; intros pre ND; simpl.
  - now rewrite app_nil_r.
  - destruct (P x) eqn:Px; simpl.
    + rewrite list_remove_fresh.
      * rewrite IH; [reflexivity|].
        rewrite map_app in *. simpl in ND. now apply NoDup_remove_1 in ND.
      * intros q Hq E. rewrite map_app in ND. simpl in ND.
        apply NoDup_remove_2 in ND. apply ND, in_or_app. left.
        rewrite <- E. now apply in_map.
    + change (pre ++ x :: onb) with (pre ++ [x] ++ onb) in *.
      rewrite app_assoc in *. rewrite (IH _ ND).
      now rewrite <- app_assoc.
Qed.

(** X13: the alighting loop sets down exactly the passengers bound for
    the stop.  For passengers with distinct ids on board (distinct
    objects in the source), lines 91-94 never fail: those whose
    destination is the stop leave, stamped with the current time and in
    their order on board, and the others stay on board in their order;
    none of them is bound for the stop. *)
Theorem X13_alighting_is_exact :
  forall t stop_name onb,
  NoDup (map pass_id onb) ->
  let here := fun p => String.eqb (destination p) stop_name in
  alight_loop t (filter here onb) onb
  = Some (map (set_alight_time t) (filter here onb),
          filter (fun p => negb (here p)) onb) /\
  (forall p, In p (filter (fun p => negb (here p)) onb) ->
     destination p <> stop_name /\ In p onb) /\
  (forall p, In p (map (set_alight_time t) (filter here onb)) ->
     destination p = stop_name /\ alight_time p = Some t) /\
  (List.length (filter here onb)
   + List.length (filter (fun p => negb (here p)) onb) = List.length onb)%nat.
Proof.
  intros t stop_name onb ND here. split; [|split; [|split]].
  - exact (alight_loop_exact_from t here onb [] ND).
  - intros p Hp. apply filter_In in Hp. destruct Hp as [Hp Hn].
    split; [|exact Hp]. unfold here in Hn. apply negb_true_iff in Hn.
    now apply String.eqb_neq.
  - intros p Hp. apply in_map_iff in Hp. destruct Hp as (q & <- & Hq).
    apply filter_In in Hq. destruct Hq as [_ Hq]. simpl.
    split; [now apply String.eqb_eq|reflexivity].
  - induction onb as [|x onb IH]; simpl; [reflexivity|].
    inversion ND; subst. specialize (IH ltac:(assumption)).
    destruct (here x); simpl; lia.
Qed.

(** ** The summary of the waiting times *)

Lemma py_max_cases a b :
  (py_max a b = a /\ b <= a) \/ (py_max a b = b /\ a < b).
Proof.
  unfold py_max. destruct (Qlt_bool a b) eqn:E.
  - right. split; [reflexivity|now apply Qlt_bool_iff].
  - left. split; [reflexivity|now apply Qlt_bool_false].
Qed.

Lemma fold_max_spec l x :
  In (fold_left py_max l x) (x :: l) /\
  forall y, In y (x :: l) -> y <= fold_left py_max l x.
Proof.
  revert x. induction l as [|a l IH]; intro x; simpl.
  - split; [now left|]. intros y [<-|[]]. lra.
  - destruct (IH (py_max x a)) as [I1 I2]. split.
    + destruct I1 as [I1|I1]; [|now right; right].
      rewrite <- I1. destruct (py_max_cases x a) as [[-> _]|[-> _]]; auto.
    + intros y Hy.
      assert (M : x <= py_max x a /\ a <= py_max x a)
        by (destruct (py_max_cases x a) as [[-> L]|[-> L]]; lra).
      destruct Hy as [<-|[<-|Hy]].
      * eapply Qle_trans; [apply M|]. apply I2. now left.
      * eapply Qle_trans; [apply M|]. apply I2. now left.
      * apply I2. now right.
Qed.

Lemma fold_sum_bounds l acc lo hi :
  (forall y, In y l -> lo <= y /\ y <= hi) ->
  acc + Qnat (List.length l) * lo <= fold_left Qplus l acc /\
  fold_left Qplus l acc <= acc + Qnat (List.length l) * hi.
Proof.
  revert acc. induction l as [|a l IH]; intros acc B.
  - simpl. change (Qnat 0) with 0. lra.
  - destruct (B a (or_introl eq_refl)) as [B1 B2].
    destruct (IH (acc + a) (fun y Hy => B y (or_intror Hy))) as [I1 I2].
    cbn [fold_left List.length].
    assert (E : Qnat (S (List.length l)) == Qnat (List.length l) + 1).
    { unfold Qnat. rewrite Nat2Z.inj_succ, <- Z.add_1_r, inject_Z_plus.
      reflexivity. }
    rewrite E. split; lra.
Qed.

(** X14: the summary of lines 201-204.  In every state of a run the
    waiting times are not negative.  When at least one passenger has
    boarded, the maximum is one of the waiting times and bounds them
    all, and the mean is not negative (a sum of non-negative numbers over
    their count; no more is said of it, since the rounding of the sum
    can lift a floating-point mean above the maximum); when nobody has
    boarded, [np.max] raises [ValueError] on the empty list, so the
    statistics cannot be printed. *)
Theorem X14_waiting_time_summary :
  forall s, Reachable s ->
  (forall w, In w (waiting_times (metrics s)) -> 0 <= w) /\
  (waiting_times (metrics s) = [] ->
   total_passengers (metrics s) = 0%nat /\
   waiting_summary (metrics s) = Err ValueError) /\
  (waiting_times (metrics s) <> [] ->
   exists avg_wait max_wait,
     waiting_summary (metrics s)
     = Ok (total_passengers (metrics s), Some avg_wait, max_wait) /\
     (0 < total_passengers (metrics s))%nat /\
     In max_wait (waiting_times (metrics s)) /\
     (forall w, In w (waiting_times (metrics s)) -> w <= max_wait) /\
     0 <= avg_wait).
Proof.
  intros s R. destruct (Reachable_metrics_inv s R) as [A _ _ _].
  pose proof (Forall2_length A) as Len.
  assert (Pos : forall w, In w (waiting_times (metrics s)) -> 0 <= w).
  { intros w Hw. apply In_nth_error in Hw. destruct Hw as [i Hi].
    destruct (Forall2_nth_error _ _ _ _ _ A Hi) as (r & _ & bt & _ & _ & L & _).
    exact L. }
  split; [exact Pos|]. unfold waiting_summary, total_passengers.
  rewrite <- Len. split.
  - intros ->. split; reflexivity.
  - intro N. destruct (waiting_times (metrics s)) as [|x l] eqn:E;
      [congruence|].
    destruct (fold_max_spec l x) as [M1 M2].
    eexists _, _. split; [reflexivity|]. split; [simpl; lia|].
    split; [exact M1|]. split; [exact M2|].
    assert (Lp : 0 < Qnat (List.length (x :: l))).
    { unfold Qnat. change 0 with (inject_Z 0). rewrite <- Zlt_Qlt.
      simpl. lia. }
    destruct (fold_sum_bounds (x :: l) 0 0 (fold_left py_max l x)) as [S1 _].
    { intros y Hy. split; [now apply Pos|now apply M2]. }
    apply Qle_shift_div_l; [exact Lp|]. lra.
Qed.

(** ** The rows of the queue table *)

(** The series are kept under distinct stop names, all of them stops of
    the run. *)
Definition series_keys (s : State) : Prop :=
  NoDup (Dict.keys (queue_time_series (metrics s))) /\
  forall k, In k (Dict.keys (queue_time_series (metrics s))) ->
            In k (Dict.keys (stops_map s)).

Lemma keys_set_inv {V} k (v : V) d x :
  In x (Dict.keys (Dict.set k v d)) -> x = k \/ In x (Dict.keys d).
Proof.
  intro H. destruct (string_dec x k) as [E|D]; [now left|right].
  apply Dict.get_keys in H. destruct H as [w G].
  rewrite Dict.get_set_other in G by congruence.
  apply Dict.get_keys. eauto.
Qed.

Lemma monitor_fold_keys t (vals : list Stop) (K : list string) series :
  (forall st, In st vals -> In (name st) K) ->
  NoDup (Dict.keys series) ->
  (forall k, In k (Dict.keys series) -> In k K) ->
  NoDup (Dict.keys (fold_left (monitor_record t) vals series)) /\
  forall k, In k (Dict.keys (fold_left (monitor_record t) vals series)) ->
            In k K.
Proof.
  revert series. induction vals as [|st vals IH]; intros series N ND S;
    simpl; [auto|].
  apply IH.
  - intros st' Hst. apply N. now right.
  - unfold monitor_record. now apply Dict.NoDup_keys_set.
  - intros k Hk. unfold monitor_record in Hk. apply keys_set_inv in Hk.
    destruct Hk as [->|Hk]; [apply N; now left|auto].
Qed.

Lemma series_keys_step s s' :
  Reachable s -> series_keys s -> step s = Running s' -> series_keys s'.
Proof.
  intros R [ND S] H. step_cases H R.
  all: try (split; simpl; [exact ND|]; intros k Hk;
            first [ exact (S k Hk)
                  | erewrite Dict.keys_set_present by eassumption;
                    exact (S k Hk) ]).
  all: try discriminate.
  all: destruct SO as [NDs SN]; simpl.
  all: apply monitor_fold_keys; try assumption.
  all: intros st Hst; unfold Dict.values in Hst; apply in_map_iff in Hst.
  all: destruct Hst as ([k st'] & E & Hin); simpl in E; subst st'.
  all: destruct (SN k st (Dict.In_get _ _ _ NDs Hin)) as [-> _].
  all: unfold Dict.keys; apply in_map_iff; exists (k, st); auto.
Qed.

Lemma series_keys_start s : run_simulation = Ok s -> series_keys s.
Proof.
  intro H. apply run_simulation_ok in H. destruct H.
  unfold series_keys. rewrite setup_series0. split; [constructor|].
  intros k [].
Qed.

Lemma Reachable_series_keys s : Reachable s -> series_keys s.
Proof.
  revert s. apply (Reachable_inv series_keys).
  - apply series_keys_start.
  - apply series_keys_step.
Qed.

(** The rows of one stop in the queue table are the samples of its
    series, in their order. *)
Lemma queue_data_of_stop (series : Dict.t (list (Q * nat))) k :
  NoDup (Dict.keys series) ->
  filter (fun r => String.eqb (snd (fst r)) k) (queue_data series) =
  map (fun tq => (fst tq, k, snd tq))
    (match Dict.get k series with Some l => l | None => [] end).
Proof.
  unfold queue_data.
  induction series as [|[k0 l0] d IH]; intro ND; simpl; [reflexivity|].
  inversion ND as [|? ? NI ND']; subst. rewrite filter_app, (IH ND').
  destruct (String.eqb_spec k k0) as [->|D].
  - assert (G : Dict.get k0 d = None).
    { destruct (Dict.get k0 d) eqn:G; [|reflexivity].
      exfalso. apply NI. apply Dict.get_keys. eauto. }
    rewrite G. simpl. rewrite app_nil_r.
    clear. induction l0 as [|a l0 IH]; simpl; [reflexivity|].
    rewrite String.eqb_refl. now rewrite IH.
  - replace (filter _ (map _ l0)) with (@nil (Q * string * nat)); [reflexivity|].
    clear - D. induction l0 as [|a l0 IH]; simpl; [reflexivity|].
    destruct (String.eqb_spec k0 k) as [E|_]; [congruence|exact IH].
Qed.

Lemma in_queue_data (series : Dict.t (list (Q * nat))) t stop q :
  In (t, stop, q) (queue_data series) -> In stop (Dict.keys series).
Proof.
  unfold queue_data. intro H. apply in_flat_map in H.
  destruct H as ([k l] & Hin & Hr). apply in_map_iff in Hr.
  destruct Hr as (tq & E & _). simpl in E. injection E as _ <- _.
  unfold Dict.keys. apply in_map_iff. exists (k, l). auto.
Qed.

(** X15 (lines 160-165 and 236-239).  The rows of the queue table are
    samples of stops of the run, and at any moment of a run there is one
    number [n] of monitor rounds such that, for every stop, the rows of
    that stop are in order the samples of the minutes 0, 1, ..., n-1. *)
Theorem X15_queue_table_rows :
  forall s, Reachable s ->
  (forall t stop q,
     In (t, stop, q) (queue_data (queue_time_series (metrics s))) ->
     In stop (Dict.keys (stops_map s))) /\
  exists n, forall k, In k (Dict.keys (stops_map s)) ->
    Forall2 Qeq
      (map (fun r => fst (fst r))
         (filter (fun r => String.eqb (snd (fst r)) k)
            (queue_data (queue_time_series (metrics s)))))
      (ticks n).
Proof.
  intros s R. destruct (Reachable_series_keys s R) as [ND S]. split.
  - intros t stop q H. apply S. eapply in_queue_data. exact H.
  - destruct (Reachable_mon_inv s R) as (n & Sn & _). exists n.
    intros k Hk. rewrite (queue_data_of_stop _ k ND), map_map. simpl.
    specialize (Sn k Hk). unfold sample_times in Sn.
    destruct (Dict.get k (queue_time_series (metrics s)));
      rewrite ?map_id; exact Sn.
Qed.

(** ** Who is on board *)

(** The passengers taken from stop queues, in the order of the run. *)
Fixpoint taken (tr : list Obs) : list Passenger :=
  match tr with
  | [] => []
  | o :: tr' =>
      taken tr' ++
      match o with
      | ObsTake _ _ p => [p]
      | _ => []
      end
  end.

(** The passenger that process [i] took last. *)
Fixpoint last_taken (i : nat) (tr : list Obs) : option Passenger :=
  match tr with
  | [] => None
  | ObsTake _ j p :: tr' => if (j =? i)%nat then Some p else last_taken i tr'
  | _ :: tr' => last_taken i tr'
  end.

Lemma taken_app a b : taken (a ++ b) = taken b ++ taken a.
Proof.
  induction a as [|o a IH]; simpl; [now rewrite app_nil_r|].
  now rewrite IH, app_assoc.
Qed.

Lemma taken_alights n l : taken (rev (map (ObsAlight n) l)) = [].
Proof.
  induction l as [|p l IH]; simpl; [reflexivity|].
  rewrite taken_app, IH. reflexivity.
Qed.

Lemma taken_past_alights n l tr :
  taken (rev (map (ObsAlight n) l) ++ tr) = taken tr.
Proof. now rewrite taken_app, taken_alights, app_nil_r. Qed.

Lemma last_taken_past_alights i n l tr :
  last_taken i (rev (map (ObsAlight n) l) ++ tr) = last_taken i tr.
Proof.
  assert (G : forall a, Forall is_alight a ->
                        last_taken i (a ++ tr) = last_taken i tr).
  { induction 1 as [|o a Ho F IH]; simpl; [reflexivity|].
    destruct o; try contradiction. exact IH. }
  apply G, alights_are_alights.
Qed.

Lemma taken_takes q tr : In q (taken tr) -> exists k, In q (takes k tr).
Proof.
  induction tr as [|o tr IH]; simpl; [contradiction|].
  intro H. apply in_app_or in H. destruct H as [H|H].
  - destruct (IH H) as [k Hk]. exists k. apply in_or_app. now left.
  - destruct o as [|k0 j p| | | | | |]; try contradiction.
    destruct H as [<-|[]].
    exists k0. apply in_or_app. right. rewrite String.eqb_refl. now left.
Qed.

(** The last passenger a process took ends the list of those it took. *)
Lemma last_taken_spec i tr :
  match last_taken i tr with
  | Some p => exists older, taken (events_of i tr) = older ++ [p]
  | None => taken (events_of i tr) = []
  end.
Proof.
  induction tr as [|o tr IH]; simpl; [reflexivity|].
  unfold events_of in *. simpl.
  destruct o as [|k0 j p|j|j|j|j|j|j]; unfold by_proc; simpl;
    try (destruct (Nat.eqb_spec j i); simpl; rewrite ?app_nil_r; exact IH);
    try exact IH.
  destruct (Nat.eqb_spec j i); simpl; [|exact IH].
  eexists. reflexivity.
Qed.

Lemma last_taken_last i tr older p p' :
  taken (events_of i tr) = older ++ [p] -> last_taken i tr = Some p' -> p' = p.
Proof.
  intros E L. pose proof (last_taken_spec i tr) as S. rewrite L in S.
  destruct S as [older' S]. rewrite S in E.
  apply app_inj_tail in E. now destruct E.
Qed.

Lemma ids_of_NoDup k n : NoDup (ids_of k n).
Proof.
  unfold ids_of. apply Finite.Injective_map_NoDup; [|apply seq_NoDup].
  intros x y E. now apply passenger_id_inj in E.
Qed.

(** Passengers are taken from queues at most once, and a bus that waits
    at line 102 is handed the passenger it took last. *)
Record transit_inv (s : State) : Prop := {
  tr_nodup : NoDup (map pass_id (taken (trace s)));
  tr_event :
    forall e i v b f, In e (heap s) -> callback e = Resume i v ->
    nth_error (procs s) i = Some (PBus b f) -> bus_pc f = L102 ->
    exists p, v = Some p /\ last_taken i (trace s) = Some p;
  tr_sent :
    forall i b f, active_process s = Some i ->
    nth_error (procs s) i = Some (PBus b f) -> bus_pc f = L102 ->
    exists p, sent s = Some p /\ last_taken i (trace s) = Some p
}.

Lemma take_is_new s k st p rest :
  NoDup (Dict.keys (ARRIVAL_RATES cfg)) -> Reachable s ->
  Dict.get k (stops_map s) = Some st -> items (queue st) = p :: rest ->
  ~ In (pass_id p) (map pass_id (taken (trace s))).
Proof.
  intros ND R G E Hin. apply in_map_iff in Hin.
  destruct Hin as (q & Eq & Hq). apply taken_takes in Hq.
  destruct Hq as [k' Hq].
  pose proof (Reachable_fifo_inv s R) as F.
  pose proof (Reachable_ids_inv s ND R) as I.
  assert (Pp : In p (puts k (trace s))).
  { rewrite <- (F k). apply in_or_app. right. unfold queued.
    rewrite G, E. now left. }
  assert (Pq : In q (puts k' (trace s))).
  { rewrite <- (F k'). apply in_or_app. now left. }
  assert (Ip : In (pass_id p) (ids_of k (List.length (puts k (trace s)))))
    by (rewrite <- (id_puts _ I); now apply in_map).
  assert (Iq : In (pass_id q) (ids_of k' (List.length (puts k' (trace s)))))
    by (rewrite <- (id_puts _ I); now apply in_map).
  unfold ids_of in Ip, Iq. apply in_map_iff in Ip, Iq.
  destruct Ip as (j & Ej & _). destruct Iq as (j' & Ej' & _).
  pose proof Eq as Eq0.
  rewrite <- Ej, <- Ej' in Eq. apply passenger_id_inj in Eq.
  destruct Eq as [Ek _]. subst k'.
  pose proof (ids_of_NoDup k (List.length (puts k (trace s)))) as N.
  rewrite <- (id_puts _ I), <- (F k), map_app in N.
  unfold queued in N. rewrite G, E in N. simpl in N.
  apply NoDup_remove_2 in N. apply N. apply in_or_app. left.
  rewrite <- Eq0. now apply in_map.
Qed.

Lemma transit_inv_step s s' :
  NoDup (Dict.keys (ARRIVAL_RATES cfg)) ->
  Reachable s -> transit_inv s -> step s = Running s' -> transit_inv s'.
Proof.
  intros ND R I H.
  pose proof (Reachable_sched_inv _ R) as SI.
  pose proof (take_is_new s) as New.
  step_cases H R.
  all: constructor; simpl.
  all: rewrite ?taken_past_alights, ?last_taken_past_alights; simpl.
  all: rewrite ?app_nil_r.
  all: try exact (tr_nodup _ I).
  all: try match goal with
         | |- forall e i v b f, _ -> callback e = Resume i v -> _ =>
             intros ent i v b0 f0 He Ce Pi Hpc; read_procs Pi
         end.
  all: try match goal with
         | |- forall i b f, _ = Some i -> _ =>
             intros i b0 f0 Ai Pi Hpc; try discriminate Ai; read_procs Pi
         end.
  all: try discriminate.
  all: try congruence.
  all: try (simpl in Hpc; rewrite ?Heqb in Hpc; discriminate Hpc).
  all: try match goal with
         | P : heappop (heap _) = Some _ |- _ =>
             pose proof (fun x => proj2 (heappop_In _ _ _ x P)) as InH
         end.
  all: try (destruct He as [<-|He]; simpl in Ce).
  all: try discriminate.
  all: try (injection Ce as -> ->).
  all: try congruence.
  all: rewrite ?last_taken_past_alights.
  all: try solve [eapply (tr_event _ I); eauto].
  all: try match goal with
         | A : active_process _ = Some ?n, He : In ?e (heap _),
           Ce : callback ?e = Resume ?n _ |- _ =>
             exfalso; pose proof (no_pending _ _ _ SI A He) as NP;
             unfold resumes in NP; rewrite Ce, Nat.eqb_refl in NP;
             discriminate NP
         end.
  all: try solve [eapply (tr_event _ I); eauto].
  - rewrite map_app. simpl. apply NoDup_app; [apply (tr_nodup _ I)| |].
    + repeat constructor. intros [].
    + intros x Hx [<-|[]]. revert Hx. eapply New; eauto.
  - injection Ce as <-. rewrite Nat.eqb_refl. eauto.
  - destruct (Nat.eqb_spec n i) as [E|_]; [contradiction|].
    eapply (tr_event _ I); eauto.
  - injection Ai as <-. eapply (tr_event _ I); eauto.
Qed.

Lemma transit_inv_start s : run_simulation = Ok s -> transit_inv s.
Proof.
  intro H. apply run_simulation_ok in H. destruct H.
  constructor; rewrite ?setup_trace0; simpl.
  - constructor.
  - intros e i v b f He Ce Pi Hpc. apply setup_procs0 in Pi.
    destruct Pi as (_ & _ & E & _). congruence.
  - intros i b f A. rewrite setup_active0 in A. discriminate.
Qed.

Lemma Reachable_transit_inv s :
  NoDup (Dict.keys (ARRIVAL_RATES cfg)) -> Reachable s -> transit_inv s.
Proof.
  intro ND. revert s. apply (Reachable_inv transit_inv).
  - apply transit_inv_start.
  - intros. eapply transit_inv_step; eauto.
Qed.

(** What a bus carries comes from what it took: the ids on board are, in
    order, among the ids of the passengers the bus took, the one it is
    being handed at line 102 left aside. *)
Definition seat_frame (ev : list Obs) (w : Q -> Prop) (b : Bus) (f : BusFrame)
  : Prop :=
  match bus_pc f with
  | L86 => True
  | L102 =>
      exists older p, taken ev = older ++ [p] /\
                      subseq (map pass_id (onboard b)) (map pass_id older)
  | _ => subseq (map pass_id (onboard b)) (map pass_id (taken ev))
  end.

Lemma subseq_refl {A} (l : list A) : subseq l l.
Proof. induction l; now constructor. Qed.

Lemma subseq_app_r {A} (l m x : list A) : subseq l m -> subseq l (m ++ x).
Proof. induction 1; simpl; now constructor. Qed.

Lemma subseq_snoc {A} (l m : list A) x :
  subseq l m -> subseq (l ++ [x]) (m ++ [x]).
Proof.
  induction 1 as [m|y l1 l2 H IH|y l1 l2 H IH]; simpl.
  - induction m as [|y m IH]; simpl; [apply subseq_refl|now constructor].
  - now constructor.
  - now constructor.
Qed.

Lemma subseq_trans {A} (l m n : list A) :
  subseq l m -> subseq m n -> subseq l n.
Proof.
  intros H1 H2. revert l H1.
  induction H2 as [n|y l1 l2 H IH|y l1 l2 H IH]; intros l H1.
  - inversion H1. constructor.
  - inversion H1; subst; constructor; auto.
  - constructor. auto.
Qed.

Lemma subseq_map {A B} (g : A -> B) l m :
  subseq l m -> subseq (map g l) (map g m).
Proof. induction 1; simpl; now constructor. Qed.

Lemma subseq_In {A} (l m : list A) x : subseq l m -> In x l -> In x m.
Proof.
  induction 1 as [m|y l1 l2 H IH|y l1 l2 H IH]; simpl; intuition.
Qed.

Lemma subseq_NoDup {A} (l m : list A) : subseq l m -> NoDup m -> NoDup l.
Proof.
  induction 1 as [m|y l1 l2 H IH|y l1 l2 H IH]; intro N.
  - constructor.
  - inversion N as [|? ? NI N']; subst. constructor; [|auto].
    intro K. apply NI. eapply subseq_In; eauto.
  - inversion N; auto.
Qed.

Lemma list_remove_sub p l r : list_remove p l = Some r -> subseq r l.
Proof.
  revert r. induction l as [|q l IH]; simpl; intros r H; [discriminate|].
  destruct (String.eqb _ _).
  - injection H as <-. constructor. apply subseq_refl.
  - destruct (list_remove p l); [|discriminate]. injection H as <-.
    constructor. now apply IH.
Qed.

Lemma alight_loop_sub t al onb done rest :
  alight_loop t al onb = Some (done, rest) -> subseq rest onb.
Proof.
  revert onb done rest. induction al as [|p al IH]; simpl; intros onb done rest H.
  - injection H as <- <-. apply subseq_refl.
  - destruct (list_remove p onb) as [onb'|] eqn:E; [|discriminate].
    destruct (alight_loop t al onb') as [[d r]|] eqn:E'; [|discriminate].
    injection H as <- <-. eapply subseq_trans; [eapply IH; eauto|].
    eapply list_remove_sub; eauto.
Qed.

Lemma seat_self_step s s' i b f :
  NoDup (Dict.keys (ARRIVAL_RATES cfg)) ->
  Reachable s -> active_process s = Some i ->
  nth_error (procs s) i = Some (PBus b f) ->
  step s = Running s' ->
  True ->
  seat_frame (events_of i (trace s)) (wake_time s i) b f ->
  True /\
  forall b' f', nth_error (procs s') i = Some (PBus b' f') ->
                seat_frame (events_of i (trace s')) (wake_time s' i) b' f'.
Proof.
  intros ND R A P H _ IL.
  pose proof (Reachable_transit_inv s ND R) as TI.
  pose proof (Reachable_unused s R i b f P) as U.
  step_cases H R.
  all: try congruence.
  all: assert (n = i) by congruence; subst n.
  all: try (rewrite P in *; discriminate).
  all: own_proc P.
  all: own_history.
  all: (split; [|intros b' f' P'; own_frame P P'; unfold seat_frame; simpl]).
  all: try exact Logic.I.
  all: unfold seat_frame in IL.
  all: repeat match goal with
         | E : bus_pc _ = _ |- _ => rewrite E in *
         end.
  all: rewrite ?taken_past_alights; simpl; rewrite ?app_nil_r.
  all: try exact IL.
  all: try match goal with
         | E : bus_pc _ = L86 |- _ =>
             destruct (U E) as (U0 & _); rewrite U0; constructor
         end.
  - eapply subseq_trans; [|exact IL]. apply subseq_map.
    eapply alight_loop_sub; eauto.
  - eapply subseq_trans; [|exact IL]. apply subseq_map.
    eapply alight_loop_sub; eauto.
  - eexists _, _. split; [reflexivity|exact IL].
  - destruct IL as (older & q & E & S).
    destruct (tr_sent _ TI i b f Heqo P Heqb0) as (q' & Sq & Lq).
    assert (q' = q) by (eapply last_taken_last; eauto). subst q'.
    assert (p0 = q) by congruence. subst p0.
    rewrite E, !map_app. simpl. now apply subseq_snoc.
Qed.

Lemma Reachable_seats s :
  NoDup (Dict.keys (ARRIVAL_RATES cfg)) ->
  Reachable s -> local_inv (fun _ => True) seat_frame s.
Proof.
  intro ND. apply Reachable_local_inv.
  - intros ev w w' b f _ H. exact H.
  - exact Logic.I.
  - intros w b f E. unfold seat_frame. now rewrite E.
  - intros. eapply seat_self_step; eauto.
Qed.

Lemma taken_events_subseq i tr : subseq (taken (events_of i tr)) (taken tr).
Proof.
  unfold events_of. induction tr as [|o tr IH]; simpl; [constructor|].
  destruct (by_proc i o); simpl.
  - destruct o; rewrite ?app_nil_r; try exact IH. now apply subseq_snoc.
  - now apply subseq_app_r.
Qed.

Lemma taken_events_apart i j tr x :
  NoDup (map pass_id (taken tr)) -> i <> j ->
  In x (map pass_id (taken (events_of i tr))) ->
  In x (map pass_id (taken (events_of j tr))) -> False.
Proof.
  assert (Sub : forall i tr y, In y (map pass_id (taken (events_of i tr))) ->
                               In y (map pass_id (taken tr))).
  { intros i0 tr0 y. apply subseq_In, subseq_map, taken_events_subseq. }
  intros N D. unfold events_of in *.
  induction tr as [|o tr IH]; simpl; [contradiction|].
  simpl in N. rewrite map_app in N.
  destruct o as [|k0 g p|g|g|g|g|g|g]; unfold by_proc; simpl;
    rewrite ?app_nil_r in N;
    try (destruct (Nat.eqb_spec g i), (Nat.eqb_spec g j); simpl;
         rewrite ?app_nil_r; now apply IH);
    try now apply IH.
  simpl in N. apply NoDup_remove in N. rewrite app_nil_r in N.
  destruct N as [N NI].
  destruct (Nat.eqb_spec g i), (Nat.eqb_spec g j); simpl;
    rewrite ?map_app; simpl; intros Hi Hj;
    try apply in_app_or in Hi; try apply in_app_or in Hj.
  - congruence.
  - destruct Hi as [Hi|[<-|[]]]; [now apply IH|].
    apply NI. apply (Sub j). exact Hj.
  - destruct Hj as [Hj|[<-|[]]]; [now apply IH|].
    apply NI. apply (Sub i). exact Hi.
  - now apply IH.
Qed.

Lemma onboard_taken s i b f :
  NoDup (Dict.keys (ARRIVAL_RATES cfg)) -> Reachable s ->
  nth_error (procs s) i = Some (PBus b f) ->
  subseq (map pass_id (onboard b)) (map pass_id (taken (events_of i (trace s)))).
Proof.
  intros ND R P. destruct (Reachable_seats s ND R) as [_ IL].
  specialize (IL i b f P). unfold seat_frame in IL.
  pose proof (Reachable_unused s R i b f P) as U.
  destruct (bus_pc f) eqn:E; try exact IL.
  - destruct (U E) as (U0 & _). rewrite U0. constructor.
  - destruct IL as (older & p & -> & S). rewrite map_app.
    now apply subseq_app_r.
Qed.

(** X16: nobody rides twice.  With distinct stop names in
    [ARRIVAL_RATES], in every state of a run no passenger has been taken
    from a queue twice; the passengers on board a bus have distinct ids
    and are among those the bus took itself; two buses never carry
    passengers with the same id; and so the alighting loop of lines 91-94,
    at whatever stop it runs, removes exactly the passengers bound for
    that stop ([list.remove] finds each of them, and only them). *)
Theorem X16_nobody_rides_twice :
  NoDup (Dict.keys (ARRIVAL_RATES cfg)) ->
  forall s, Reachable s ->
  NoDup (map pass_id (taken (trace s))) /\
  (forall i b f, nth_error (procs s) i = Some (PBus b f) ->
     NoDup (map pass_id (onboard b)) /\
     (forall p, In p (onboard b) ->
        In (pass_id p) (map pass_id (taken (events_of i (trace s))))) /\
     (forall t k,
        alight_loop t
          (filter (fun p => String.eqb (destination p) k) (onboard b))
          (onboard b)
        = Some (map (set_alight_time t)
                  (filter (fun p => String.eqb (destination p) k) (onboard b)),
                filter (fun p => negb (String.eqb (destination p) k))
                  (onboard b)))) /\
  (forall i j b f b' f' p p',
     i <> j -> nth_error (procs s) i = Some (PBus b f) ->
     nth_error (procs s) j = Some (PBus b' f') ->
     In p (onboard b) -> In p' (onboard b') -> pass_id p <> pass_id p').
Proof.
  intros ND s R. pose proof (tr_nodup _ (Reachable_transit_inv s ND R)) as N.
  split; [exact N|]. split.
  - intros i b f P. pose proof (onboard_taken s i b f ND R P) as S.
    assert (NB : NoDup (map pass_id (onboard b))).
    { eapply subseq_NoDup; [exact S|].
      eapply subseq_NoDup; [|exact N].
      apply subseq_map, taken_events_subseq. }
    split; [exact NB|]. split.
    + intros p Hp. eapply subseq_In; [exact S|]. now apply in_map.
    + intros t k.
      exact (alight_loop_exact_from t
               (fun p => String.eqb (destination p) k) (onboard b) [] NB).
  - intros i j b f b' f' p p' D P P' Hp Hp' E.
    apply (taken_events_apart i j (trace s) (pass_id p) N D).
    + eapply subseq_In; [exact (onboard_taken s i b f ND R P)|].
      now apply in_map.
    + rewrite E. eapply subseq_In; [exact (onboard_taken s j b' f' ND R P')|].
      now apply in_map.
Qed.

(** ** No process is lost *)

(** A process that has not failed is running or has its wake-up in the
    heap. *)
Definition alive_inv (s : State) : Prop :=
  forall i p, nth_error (procs s) i = Some p -> p <> PDead ->
  active_process s <> Some i -> pending i (heap s) = 1%nat.

Lemma alive_inv_step s s' :
  Reachable s -> alive_inv s -> step s = Running s' -> alive_inv s'.
Proof.
  intros R I H. pose proof (Reachable_sched_inv _ R) as SI.
  step_cases H R.
  all: intros j q Pj Nq Aj; simpl in Pj, Aj |- *.
  all: try match goal with
         | P : heappop (heap _) = Some _ |- _ =>
             pose proof (pending_pop j _ _ _ P) as PP; unfold resumes in PP
         end.
  all: rewrite ?pending_cons; unfold resumes; simpl.
  all: repeat match goal with
         | E : callback _ = _ |- _ => rewrite E in *
         end.
  all: try (read_procs Pj; try congruence).
  all: try match goal with
         | D : ?n <> ?j0 |- context [(?n =? ?j0)%nat] =>
             destruct (Nat.eqb_spec n j0) as [E0|_]; [congruence|]
         end.
  all: rewrite ?Nat.eqb_refl.
  all: try match goal with
         | A : active_process ?s0 = Some ?n |- pending ?n (heap ?s0) = 1%nat =>
             congruence
         | A : active_process ?s0 = Some ?n |- (1 + pending ?n (heap ?s0))%nat = 1%nat =>
             rewrite (proj2 (SI n) A); reflexivity
         end.
  all: try (simpl; apply (I j q Pj Nq); congruence).
  - destruct (Nat.eqb_spec n j) as [->|D].
    + rewrite (proj2 (SI j) Heqo). reflexivity.
    + simpl. apply (I j q Pj Nq). congruence.
  - destruct (Nat.eqb_spec proc j) as [E|_]; [congruence|].
    simpl in PP. rewrite <- PP. apply (I j q Pj Nq). congruence.
  - simpl in PP. rewrite <- PP. exact (I j q Pj Nq Aj).
Qed.

Lemma alive_inv_start s : run_simulation = Ok s -> alive_inv s.
Proof.
  intro H. apply run_simulation_ok in H. destruct H.
  intros i p P _ _. rewrite setup_pending0.
  assert (L : (i < List.length (procs s))%nat)
    by (apply nth_error_Some; congruence).
  apply Nat.ltb_lt in L. now rewrite L.
Qed.

Lemma Reachable_alive_inv s : Reachable s -> alive_inv s.
Proof.
  revert s. apply (Reachable_inv alive_inv).
  - apply alive_inv_start.
  - apply alive_inv_step.
Qed.

(** The monitor is never replaced: it stays the last process of the
    table. *)
Lemma monitor_stays s :
  Reachable s ->
  nth_error (procs s) (List.length (procs s) - 1) = Some PMon.
Proof.
  revert s.
  apply (Reachable_inv
           (fun s => nth_error (procs s) (List.length (procs s) - 1) = Some PMon)).
  - intros s H. rewrite (run_simulation_procs _ H). unfold started.
    rewrite !app_assoc, length_app. simpl.
    rewrite nth_error_app2 by lia.
    replace (_ - _)%nat with 0%nat by lia. reflexivity.
  - intros s s' R I H. step_cases H R; simpl; rewrite ?list_set_length.
    all: try exact I.
    all: try discriminate.
    all: rewrite ?nth_error_list_set.
    all: repeat match goal with
           | |- context [(?a =? ?b)%nat] =>
               destruct (Nat.eqb_spec a b) as [E0|_]; [congruence|]
           end.
    all: try exact I.
Qed.

(** ** The samples of a whole run *)

(** Samples are taken while the run goes on, hence before the horizon. *)
Definition samples_early (s : State) : Prop :=
  forall k l t q, Dict.get k (queue_time_series (metrics s)) = Some l ->
  In (t, q) l -> t < SIM_TIME cfg.

Lemma samples_early_step s s' :
  Reachable s -> samples_early s -> step s = Running s' -> samples_early s'.
Proof.
  intros R I H. pose proof (hz_now _ (Reachable_horizon_inv s R)) as N.
  step_cases H R.
  all: try exact I.
  all: try discriminate.
  all: intros k l t q; simpl; destruct SO as [ND SN].
  all: rewrite monitor_fold;
    [|assumption|intros k' st Hin; apply SN; now apply Dict.In_get].
  all: destruct (Dict.get k (stops_map s)) as [st|]; [|apply I].
  all: intros E Hin; injection E as <-; apply in_app_or in Hin.
  all: destruct Hin as [Hin|[Hin|[]]]; [|injection Hin as <- _; exact N].
  all: destruct (Dict.get k (queue_time_series (metrics s))) as [l0|] eqn:G;
    [eapply I; eauto|destruct Hin].
Qed.

Lemma Reachable_samples_early s : Reachable s -> samples_early s.
Proof.
  revert s. apply (Reachable_inv samples_early).
  - intros s H. apply run_simulation_ok in H. destruct H.
    intros k l t q G. rewrite setup_series0 in G. discriminate.
  - apply samples_early_step.
Qed.

Lemma ceiling_exists q : 0 < q -> exists n, Qnat n - 1 < q /\ q <= Qnat n.
Proof.
  intro P. exists (Z.to_nat (Qceiling q)).
  assert (C : (0 <= Qceiling q)%Z).
  { pose proof (Qle_ceiling q) as L.
    destruct (Z_lt_le_dec (Qceiling q) 0) as [Lt|Le]; [|exact Le].
    exfalso. assert (inject_Z (Qceiling q) < 0)
      by (rewrite Zlt_Qlt in Lt; exact Lt).
    lra. }
  unfold Qnat. rewrite Z2Nat.id by exact C.
  split; [|apply Qle_ceiling].
  pose proof (Qceiling_lt q) as L.
  replace (Qceiling q - 1)%Z with (Qceiling q + -1)%Z in L by lia.
  rewrite inject_Z_plus in L. change (inject_Z (-1)) with (-1 # 1) in L. lra.
Qed.

Lemma pending_one i h :
  pending i h = 1%nat -> exists e, In e h /\ resumes i e = true.
Proof.
  unfold pending. intro L.
  destruct (filter (resumes i) h) as [|e l] eqn:F; [discriminate|].
  assert (Hin : In e (filter (resumes i) h)) by (rewrite F; now left).
  apply filter_In in Hin. eauto.
Qed.

Lemma stopped_idle s s' : step s = Stopped s' -> active_process s = None.
Proof.
  unfold step. intro H. destruct (active_process s) as [me|]; [|reflexivity].
  destruct (nth_error (procs s) me) as [[b f|g| |]|]; unfold finish in H;
    try discriminate H.
  - destruct (Bus_run me b f s); discriminate H.
  - destruct (passenger_generator me g s); discriminate H.
Qed.

(** X17: no process is lost.  In every state of a run the process table
    has the processes the setup started, the monitor last; and every
    process that has not failed is either the active one, with no
    wake-up in the heap, or has exactly one wake-up in the heap, due now
    or later: nobody waits for an event that never comes (a bus that
    asked a stop for a passenger included). *)
Theorem X17_no_process_is_lost :
  forall s, Reachable s ->
  List.length (procs s) = List.length started /\
  nth_error (procs s) (List.length (procs s) - 1) = Some PMon /\
  (forall i p, nth_error (procs s) i = Some p -> p <> PDead ->
     (active_process s = Some i /\ pending i (heap s) = 0%nat) \/
     (active_process s <> Some i /\ pending i (heap s) = 1%nat /\
      exists e, In e (heap s) /\ resumes i e = true /\ now s <= at_time e)).
Proof.
  intros s R. split; [|split].
  - symmetry. exact (Forall2_length (Reachable_same_args s R)).
  - exact (monitor_stays s R).
  - intros i p P N.
    assert (D : active_process s = Some i \/ active_process s <> Some i).
    { destruct (active_process s) as [a|]; [|right; discriminate].
      destruct (Nat.eq_dec a i); [left|right]; congruence. }
    destruct D as [A|A].
    + left. split; [exact A|]. exact (proj2 (Reachable_sched_inv s R i) A).
    + right. pose proof (Reachable_alive_inv s R i p P N A) as L.
      split; [exact A|]. split; [exact L|].
      destruct (pending_one _ _ L) as (e & He & Re). exists e.
      split; [exact He|]. split; [exact Re|].
      exact (ti_heap _ (Reachable_times_inv s R) e He).
Qed.

(** X18: the samples of a whole run.  When the run stops at [SIM_TIME],
    the series of every stop holds the samples of the minutes
    0, 1, ..., n-1, where n is [SIM_TIME] rounded up to a whole number
    (480 samples per stop for the 480 minutes of the source): the
    monitor has sampled at every whole minute before the horizon and at
    none from the horizon on. *)
Theorem X18_samples_of_a_whole_run :
  forall s s', Reachable s -> step s = Stopped s' ->
  exists n,
    Qnat n - 1 < SIM_TIME cfg /\ SIM_TIME cfg <= Qnat n /\
    forall k, In k (Dict.keys (stops_map s')) ->
      Forall2 Qeq (sample_times k s') (ticks n) /\
      exists series, Dict.get k (queue_time_series (metrics s')) = Some series /\
                     List.length series = n.
Proof.
  intros s s' R H. pose proof (stopped_idle _ _ H) as A.
  pose proof (Reachable_horizon_inv s R) as HI.
  assert (E : stops_map s' = stops_map s /\ metrics s' = metrics s).
  { unfold step in H. rewrite A in H. unfold env_step in H.
    destruct (heappop (heap s)) as [[e rest]|]; [|injection H as <-; auto].
    destruct (callback e); try discriminate H. injection H as <-. auto. }
  destruct E as [E1 E2]. unfold sample_times. rewrite E1, E2.
  destruct (Dict.keys (stops_map s)) as [|k0 ks] eqn:K0.
  { destruct (ceiling_exists _ (hz_positive _ HI)) as (n & L1 & L2).
    exists n. split; [exact L1|]. split; [exact L2|]. intros k []. }
  rewrite <- K0.
  destruct (Reachable_mon_inv s R) as (n & S & W & _).
  pose proof (monitor_stays s R) as Pm.
  assert (Am : active_process s <> Some (List.length (procs s) - 1)%nat)
    by (rewrite A; discriminate).
  pose proof (Reachable_alive_inv s R _ _ Pm ltac:(discriminate) Am) as L.
  destruct (pending_one _ _ L) as (e & He & Re).
  assert (Te : at_time e == Qnat n) by (apply (proj2 (W _ Pm) e He Re)).
  assert (Up : SIM_TIME cfg <= Qnat n).
  { unfold step in H. rewrite A in H. unfold env_step in H.
    destruct (heappop (heap s)) as [[u rest]|] eqn:P.
    - destruct (callback u) eqn:C; try discriminate H.
      assert (Hu : In u (heap s)) by (apply (heappop_In _ _ _ u P); now left).
      destruct (hz_until _ HI u Hu C) as [Tu _].
      apply (heappop_In _ _ _ e P) in He. destruct He as [->|He].
      + unfold resumes in Re. rewrite C in Re. discriminate.
      + rewrite <- Te, <- Tu. eapply heappop_min; eauto.
    - destruct (heap s) as [|x h]; [destruct He|]. simpl in P.
      destruct (heappop h) as [[? ?]|]; [|discriminate].
      destruct (entry_le _ _); discriminate. }
  pose proof (hz_positive _ HI) as Pos.
  destruct n as [|n'].
  { exfalso. unfold Qnat in Up. simpl in Up. change (inject_Z 0) with 0 in Up.
    lra. }
  exists (Datatypes.S n').
  assert (Len : forall k, In k (Dict.keys (stops_map s)) ->
                exists series,
                  Dict.get k (queue_time_series (metrics s)) = Some series /\
                  List.length series = Datatypes.S n').
  { intros k Hk. specialize (S k Hk). apply Forall2_length in S.
    unfold sample_times, ticks in S. rewrite !length_map, length_seq in S.
    destruct (Dict.get k (queue_time_series (metrics s))) as [l|];
      [|discriminate S].
    exists l. rewrite length_map in S. auto. }
  split; [|split; [exact Up|]].
  - assert (Hk : In k0 (Dict.keys (stops_map s))) by (rewrite K0; now left).
    destruct (Len k0 Hk) as (series & G & Ls).
    specialize (S k0 Hk). unfold sample_times in S. rewrite G in S.
    assert (Nt : nth_error (ticks (Datatypes.S n')) n' = Some (Qnat n')).
    { rewrite ticks_S, nth_error_app2; unfold ticks;
        rewrite length_map, length_seq; [|lia].
      now rewrite Nat.sub_diag. }
    destruct (Forall2_nth_error_r _ _ _ _ _ S Nt) as (t & Ht & Et).
    rewrite nth_error_map in Ht.
    destruct (nth_error series n') as [[t' q]|] eqn:Ns; [|discriminate].
    injection Ht as <-. apply nth_error_In in Ns.
    pose proof (Reachable_samples_early s R _ _ _ _ G Ns) as Early.
    simpl in Et. unfold Qnat in *. rewrite Nat2Z.inj_succ, <- Z.add_1_r.
    rewrite inject_Z_plus. change (inject_Z 1) with 1. lra.
  - intros k Hk. split; [exact (S k Hk)|exact (Len k Hk)].
Qed.

(** ** The generators of a run *)

Lemma find_first {A} (g : A -> bool) l r :
  find g l = Some r ->
  exists pre post, l = pre ++ r :: post /\ g r = true /\
                   forall x, In x pre -> g x = false.
Proof.
  induction l as [|y l IH]; simpl; [discriminate|].
  destruct (g y) eqn:Gy.
  - intro E. injection E as <-. exists [], l. simpl. intuition.
  - intro E. destruct (IH E) as (pre & post & -> & Gr & F).
    exists (y :: pre), post. simpl. split; [reflexivity|]. split; [exact Gr|].
    intros x [<-|Hx]; auto.
Qed.

Lemma mem_In x l : mem x l = true <-> In x l.
Proof.
  unfold mem. rewrite existsb_exists. split.
  - intros (y & Hy & E). apply String.eqb_eq in E. now subst.
  - intro H. exists x. split; [exact H|apply String.eqb_refl].
Qed.

(** X19: the generators of a run (lines 179-183).  With distinct stop
    names in [ARRIVAL_RATES], every generator of a run belongs to an
    entry of [ARRIVAL_RATES], whose rate it uses; its route is the first
    route of [ROUTES], in the order of the dict, that has the stop
    (because of the [break], a stop shared by two routes only gets
    passengers for the first one); no stop has two generators; and a
    stop that no route has gets none. *)
Theorem X19_generators_of_a_run :
  NoDup (Dict.keys (ARRIVAL_RATES cfg)) ->
  forall s, Reachable s ->
  (forall i g, nth_error (procs s) i = Some (PGen g) ->
     In (gen_stop g, rate g) (ARRIVAL_RATES cfg) /\
     (exists r pre post,
        Dict.values (ROUTES cfg) = pre ++ r :: post /\
        route_stops g = stops r /\
        forall r', In r' pre -> ~ In (gen_stop g) (stops r')) /\
     In (gen_stop g) (route_stops g) /\
     (forall j g', nth_error (procs s) j = Some (PGen g') ->
                   gen_stop g' = gen_stop g -> j = i)) /\
  (forall k, (forall r, In r (Dict.values (ROUTES cfg)) -> ~ In k (stops r)) ->
     forall i g, nth_error (procs s) i = Some (PGen g) -> gen_stop g <> k).
Proof.
  intros ND s R.
  assert (G : forall i g, nth_error (procs s) i = Some (PGen g) ->
              In (gen_stop g, rate g) (ARRIVAL_RATES cfg) /\
              exists r pre post,
                Dict.values (ROUTES cfg) = pre ++ r :: post /\
                route_stops g = stops r /\ In (gen_stop g) (stops r) /\
                forall r', In r' pre -> ~ In (gen_stop g) (stops r')).
  { intros i g P.
    destruct (gen_is_started s i g R P) as (kv & r & Hkv & F & _ & Ag).
    unfold gen_args in Ag. injection Ag as A1 A2 A3.
    destruct kv as [k lam]. simpl in *. subst k lam.
    split; [exact Hkv|].
    destruct (find_first _ _ _ F) as (pre & post & E & M & N).
    exists r, pre, post. split; [exact E|]. split; [exact A3|].
    split; [now apply mem_In|].
    intros r' Hr' Hin. apply mem_In in Hin. rewrite (N r' Hr') in Hin.
    discriminate. }
  split.
  - intros i g P. destruct (G i g P) as (A & r & pre & post & E & Sr & Hin & F).
    split; [exact A|]. split; [exists r, pre, post; auto|].
    split; [now rewrite Sr|].
    intros j g' P' Eg. eapply (gen_stops_distinct s j i); eauto.
  - intros k Hk i g P Eg.
    destruct (G i g P) as (_ & r & pre & post & E & _ & Hin & _).
    apply (Hk r); [rewrite E; apply in_or_app; right; now left|].
    now rewrite <- Eg.
Qed.

(** ** The statistics after the run *)

(** The minutes of the bus statistics are sums of non-negative steps. *)
Definition stat_ok (st : BusStat) : Prop :=
  0 <= stat_active_minutes st /\ 0 <= stat_occupied_minutes st.

Definition stats_ok (s : State) : Prop :=
  forall id st, In (id, st) (bus_stats (metrics s)) -> stat_ok st.

Lemma in_set_inv {V} k (v : V) d x w :
  In (x, w) (Dict.set k v d) -> w = v \/ In (x, w) d.
Proof.
  induction d as [|[k' v'] d IH]; simpl.
  - intros [E|[]]. left. congruence.
  - destruct (String.eqb k k'); simpl.
    + intros [E|H]; [left; congruence|auto].
    + intros [E|H]; [auto|]. destruct (IH H); auto.
Qed.

Lemma stats_ok_step s s' :
  Reachable s -> stats_ok s -> step s = Running s' -> stats_ok s'.
Proof.
  intros R I H. step_cases H R; simpl.
  all: try exact I.
  all: intros id st Hin; simpl in Hin; apply in_set_inv in Hin;
    destruct Hin as [->|Hin]; [|exact (I _ _ Hin)].
  all: match goal with
       | G : Dict.get _ (bus_stats _) = Some _ |- _ =>
           pose proof (I _ _ (Dict.get_In _ _ G)) as S
       end.
  all: try exact S.
  all: destruct S as [A B]; split; simpl.
  all: match goal with
       | E : Qlt_bool 0 (travel_t _) = true |- _ =>
           apply Qlt_bool_iff in E; destruct (py_min_step _ E) as (M1 & _)
       end.
  all: try lra.
  all: match goal with
       | |- context [Qnat ?n] =>
           assert (N0 : 0 <= Qnat n)
             by (unfold Qnat; change 0 with (inject_Z 0);
                 rewrite <- Zle_Qle; lia)
       end.
  all: nra.
Qed.

Lemma Reachable_stats_ok s : Reachable s -> stats_ok s.
Proof.
  revert s. apply (Reachable_inv stats_ok).
  - intros s H. apply run_simulation_inv in H. destruct H as (s0 & E & _ & ->).
    unfold stats_ok. simpl. revert s0 E.
    apply (setup_preserves
             (fun s0 => forall id st, In (id, st) (bus_stats (metrics s0)) ->
                                      stat_ok st)).
    + simpl. intros id st [].
    + intros p s I. exact I.
    + intros id s I id' st Hin. simpl in Hin. apply in_set_inv in Hin.
      destruct Hin as [->|Hin]; [|exact (I _ _ Hin)].
      unfold stat_ok. simpl. lra.
  - apply stats_ok_step.
Qed.

(** A bus asks for a passenger only while it has a free seat, and has
    no more free seats than its capacity. *)
Definition seats_ok (b : Bus) (f : BusFrame) : Prop :=
  capacity b = BUS_CAPACITY cfg /\
  match bus_pc f with
  | L101 => (free_space f <= capacity b)%Z
  | L102 => (free_space f <= capacity b)%Z /\ (0 < free_space f)%Z
  | _ => True
  end.

Lemma seats_ok_step s s' :
  Reachable s -> all_buses seats_ok (procs s) -> step s = Running s' ->
  all_buses seats_ok (procs s').
Proof.
  intros R I H. step_cases H R; simpl.
  all: repeat match goal with
              | |- all_buses _ (list_set _ _ _) => apply all_buses_set
              end.
  all: try exact I.
  all: try exact Logic.I.
  all: match goal with
       | B : nth_error (procs _) _ = Some (PBus _ _) |- _ =>
           let C := fresh "C" in
           pose proof (I _ _ _ B) as C; unfold seats_ok in C |- *;
           destruct C as (C1 & C2)
       end.
  all: simpl; repeat split; auto.
  all: try match goal with
         | E : bus_pc _ = _ |- _ => rewrite E in *
         end.
  all: try match goal with
         | G : (0 <? _)%Z = true |- _ => apply Z.ltb_lt in G
         end.
  all: try lia.
Qed.

Lemma Reachable_seats_ok s : Reachable s -> all_buses seats_ok (procs s).
Proof.
  revert s. apply (Reachable_inv (fun s => all_buses seats_ok (procs s))).
  - intros s H i b f G. apply run_simulation_ok in H.
    apply (setup_procs _ _ H) in G. destruct G as (O & K & L & _).
    unfold seats_ok. rewrite K, L. auto.
  - apply seats_ok_step.
Qed.

(** Nobody boards a bus without seats. *)
Definition boarded_seats (s : State) : Prop :=
  waiting_times (metrics s) <> [] -> (0 < BUS_CAPACITY cfg)%Z.

Lemma Reachable_boarded_seats s : Reachable s -> boarded_seats s.
Proof.
  revert s. apply (Reachable_inv boarded_seats).
  - intros s H. destruct (setup_metrics s H) as (W & _). intro N. congruence.
  - intros s s' R I H. pose proof (Reachable_seats_ok s R) as SE.
    step_cases H R; unfold boarded_seats; simpl.
    all: try exact I.
    all: intros _.
    all: match goal with
         | B : nth_error (procs _) _ = Some (PBus _ _) |- _ =>
             destruct (SE _ _ _ B) as (C1 & C2)
         end.
    all: match goal with
         | E : bus_pc _ = _ |- _ => rewrite E in C2
         end.
    all: lia.
Qed.

Lemma avg_occ_nonneg st : stat_ok st -> 0 <= avg_occ st.
Proof.
  intros (A & B). unfold avg_occ.
  destruct (Qlt_bool 0 (stat_active_minutes st)) eqn:E; [|lra].
  apply Qlt_bool_iff in E. apply Qle_shift_div_l; [exact E|lra].
Qed.

Lemma util_nonneg st :
  (0 < BUS_CAPACITY cfg)%Z -> stat_ok st ->
  exists u, util st = Ok u /\ 0 <= u.
Proof.
  intros C (A & B). unfold util.
  destruct (Qlt_bool 0 (stat_active_minutes st)) eqn:E;
    [|exists 0; split; [reflexivity|lra]].
  apply Qlt_bool_iff in E.
  assert (Cq : 0 < inject_Z (BUS_CAPACITY cfg))
    by (change 0 with (inject_Z 0); now rewrite <- Zlt_Qlt).
  assert (D : 0 < stat_active_minutes st * inject_Z (BUS_CAPACITY cfg)) by nra.
  destruct (Qeq_bool _ 0) eqn:Z0.
  - apply Qeq_bool_iff in Z0. lra.
  - eexists. split; [reflexivity|].
    assert (0 <= stat_occupied_minutes st
                 / (stat_active_minutes st * inject_Z (BUS_CAPACITY cfg)))
      by (apply Qle_shift_div_l; [exact D|lra]).
    lra.
Qed.

Lemma py_split_not_nil sep str0 : py_split sep str0 <> [].
Proof.
  induction str0 as [|c str0 IH]; simpl; [discriminate|].
  destruct (Ascii.eqb c sep); [discriminate|].
  destruct (py_split sep str0); discriminate.
Qed.

Lemma route_column_defined bus : exists r, route_column bus = Ok r.
Proof.
  unfold route_column. pose proof (py_split_not_nil "-" bus) as N.
  destruct (py_split "-" bus); [congruence|eauto].
Qed.

Lemma map_result_all {A B} (g : A -> Result B) (P : A -> B -> Prop) l :
  (forall x, In x l -> exists y, g x = Ok y /\ P x y) ->
  exists ys, map_result g l = Ok ys /\ Forall2 P l ys.
Proof.
  induction l as [|x l IH]; intro H; simpl.
  - exists []. split; [reflexivity|constructor].
  - destruct (H x (or_introl eq_refl)) as (y & -> & Py).
    destruct (IH (fun z Hz => H z (or_intror Hz))) as (ys & -> & F).
    exists (y :: ys). split; [reflexivity|now constructor].
Qed.

(** X1: the statistics of lines 201-225 never divide by zero.  Nobody
    boards a bus without seats, so when somebody has boarded the capacity
    is positive, every entry of [metrics["bus_stats"]] gets its row, and
    the minutes, the average occupancy and the utilisation of a row are
    not negative.  When nobody has boarded, and always so with a
    capacity of 0, [np.max] raises [ValueError] at line 204 before the
    bus table is computed: that is the only exception of the
    statistics, and the division of line 223 is never reached with a
    zero divisor.  The statistics read the metrics of the state in which
    the loop stops. *)
Theorem X1_statistics_never_divide_by_zero :
  forall s, Reachable s ->
  (forall s', step s = Stopped s' -> metrics s' = metrics s) /\
  (waiting_times (metrics s) <> [] -> (0 < BUS_CAPACITY cfg)%Z) /\
  (forall e, statistics (metrics s) = Err e ->
     e = ValueError /\ waiting_times (metrics s) = []) /\
  (waiting_times (metrics s) = [] -> statistics (metrics s) = Err ValueError) /\
  (waiting_times (metrics s) <> [] ->
   exists w table2,
     statistics (metrics s) = Ok (w, served_per_stop (metrics s), table2) /\
     Forall2
       (fun kv row =>
          row_bus row = fst kv /\ row_stat row = snd kv /\
          route_column (fst kv) = Ok (row_route row) /\
          0 <= stat_active_minutes (snd kv) /\
          0 <= stat_occupied_minutes (snd kv) /\
          row_avg_occ row = avg_occ (snd kv) /\ 0 <= row_avg_occ row /\
          util (snd kv) = Ok (row_util row) /\ 0 <= row_util row)
       (bus_stats (metrics s)) table2).
Proof.
  intros s R.
  pose proof (Reachable_stats_ok s R) as SO.
  pose proof (Reachable_boarded_seats s R) as BS.
  assert (Full : waiting_times (metrics s) <> [] ->
    exists w table2,
     statistics (metrics s) = Ok (w, served_per_stop (metrics s), table2) /\
     Forall2
       (fun kv row =>
          row_bus row = fst kv /\ row_stat row = snd kv /\
          route_column (fst kv) = Ok (row_route row) /\
          0 <= stat_active_minutes (snd kv) /\
          0 <= stat_occupied_minutes (snd kv) /\
          row_avg_occ row = avg_occ (snd kv) /\ 0 <= row_avg_occ row /\
          util (snd kv) = Ok (row_util row) /\ 0 <= row_util row)
       (bus_stats (metrics s)) table2).
  { intro N. pose proof (BS N) as C. unfold statistics, waiting_summary.
    destruct (waiting_times (metrics s)) as [|x l] eqn:E; [congruence|].
    simpl.
    destruct (map_result_all bus_row
                (fun kv row =>
                   row_bus row = fst kv /\ row_stat row = snd kv /\
                   route_column (fst kv) = Ok (row_route row) /\
                   0 <= stat_active_minutes (snd kv) /\
                   0 <= stat_occupied_minutes (snd kv) /\
                   row_avg_occ row = avg_occ (snd kv) /\ 0 <= row_avg_occ row /\
                   util (snd kv) = Ok (row_util row) /\ 0 <= row_util row)
                (bus_stats (metrics s))) as (rows & -> & F).
    { intros [id st] Hin. pose proof (SO _ _ Hin) as St.
      unfold bus_row. simpl.
      destruct (util_nonneg st C St) as (u & -> & Pu).
      destruct (route_column_defined id) as (r & Er). rewrite Er. simpl.
      eexists. split; [reflexivity|]. simpl.
      destruct St as [A B]. pose proof (avg_occ_nonneg st (conj A B)).
      auto 10. }
    eexists _, rows. split; [reflexivity|exact F]. }
  split.
  { intros s' H. unfold step in H.
    destruct (active_process s) as [me|].
    - destruct (nth_error (procs s) me) as [[b f|g| |]|]; unfold finish in H;
        try discriminate H.
      + destruct (Bus_run me b f s); discriminate H.
      + destruct (passenger_generator me g s); discriminate H.
    - unfold env_step in H.
      destruct (heappop (heap s)) as [[e rest]|]; [|now injection H as <-].
      destruct (callback e); try discriminate H. now injection H as <-. }
  split; [exact BS|]. split; [|split; [|exact Full]].
  - intros e He.
    destruct (waiting_times (metrics s)) as [|x l] eqn:E.
    + unfold statistics, waiting_summary in He. rewrite E in He. simpl in He.
      injection He as <-. auto.
    + exfalso. destruct Full as (w & t2 & Ok2 & _); [discriminate|].
      congruence.
  - intro E. unfold statistics, waiting_summary. rewrite E. reflexivity.
Qed.

(** ** The minutes of a bus *)

(** What is left of the leg under way. *)
Definition leg_left (f : BusFrame) : Q :=
  match bus_pc f with
  | L127 => travel_t f
  | L134 => travel_t f - travel_step f
  | _ => 0
  end.

Definition minutes_ok (b : Bus) (f : BusFrame) : Prop :=
  0 <= active_minutes b /\ 0 <= occupied_minutes b /\ 0 <= leg_left f.

Lemma minutes_ok_step s s' :
  Reachable s -> all_buses minutes_ok (procs s) -> step s = Running s' ->
  all_buses minutes_ok (procs s').
Proof.
  intros R I H. step_cases H R; simpl.
  all: repeat match goal with
              | |- all_buses _ (list_set _ _ _) => apply all_buses_set
              end.
  all: try exact I.
  all: try exact Logic.I.
  all: match goal with
       | B : nth_error (procs _) _ = Some (PBus _ _) |- _ =>
           let C := fresh "C" in
           pose proof (I _ _ _ B) as C; unfold minutes_ok, leg_left in C |- *;
           destruct C as (C1 & C2 & C3)
       end.
  all: simpl.
  all: try match goal with
         | E : bus_pc _ = _ |- _ => rewrite E in *
         end.
  all: try match goal with
         | E : Qlt_bool 0 (travel_t _) = true |- _ =>
             apply Qlt_bool_iff in E; destruct (py_min_step _ E) as (M1 & M2 & M3)
         end.
  all: try match goal with
         | |- context [Qnat ?n] =>
             assert (N0 : 0 <= Qnat n)
               by (unfold Qnat; change 0 with (inject_Z 0);
                   rewrite <- Zle_Qle; lia)
         end.
  all: try match goal with
         | |- context [travel_time ?d] => pose proof (travel_time_floor d) as TF
         end.
  all: repeat split; try lra; try nra.
Qed.

Lemma Reachable_minutes_ok s : Reachable s -> all_buses minutes_ok (procs s).
Proof.
  revert s. apply (Reachable_inv (fun s => all_buses minutes_ok (procs s))).
  - intros s H i b f G. pose proof (run_simulation_procs _ H) as P.
    pose proof G as G'. rewrite P in G'.
    pose proof (started_unused i b f G') as U.
    apply run_simulation_ok in H. apply (setup_procs _ _ H) in G.
    destruct G as (_ & _ & E & _).
    destruct (U E) as (_ & _ & _ & A & O).
    unfold minutes_ok, leg_left. rewrite E, A, O. repeat split; lra.
  - apply minutes_ok_step.
Qed.

(** X7: only travelling counts.  In every state of a run the minutes of
    a bus and what is left of its leg are not negative.  A transition
    changes [active_minutes] and [occupied_minutes] of a bus only when
    that bus runs lines 128-133 with travel time left: it then adds
    [step = min(1, t)], which is positive and at most 1 and at most [t],
    to [active_minutes], adds [len(onboard) * step] to
    [occupied_minutes], and waits for a timeout of that same [step];
    the times of alighting, boarding and dwelling, the start offset and
    the transitions of the other processes leave both counters as they
    are. *)
Theorem X7_only_travel_counts :
  forall s, Reachable s ->
  (forall i b f, nth_error (procs s) i = Some (PBus b f) ->
     0 <= active_minutes b /\ 0 <= occupied_minutes b /\ 0 <= leg_left f) /\
  (forall s' i b f b' f',
     step s = Running s' ->
     nth_error (procs s) i = Some (PBus b f) ->
     nth_error (procs s') i = Some (PBus b' f') ->
     (active_minutes b' = active_minutes b /\
      occupied_minutes b' = occupied_minutes b) \/
     (active_process s = Some i /\ bus_pc f = L127 /\ bus_pc f' = L134 /\
      0 < travel_t f /\
      0 < py_min 1 (travel_t f) /\ py_min 1 (travel_t f) <= 1 /\
      py_min 1 (travel_t f) <= travel_t f /\
      travel_step f' = py_min 1 (travel_t f) /\
      active_minutes b' = active_minutes b + py_min 1 (travel_t f) /\
      occupied_minutes b'
      = occupied_minutes b
        + Qnat (List.length (onboard b)) * py_min 1 (travel_t f) /\
      onboard b' = onboard b /\
      exists e, heap s' = e :: heap s /\ callback e = Resume i None /\
                at_time e = now s + py_min 1 (travel_t f))).
Proof.
  intros s R. split; [exact (Reachable_minutes_ok s R)|].
  intros s' i b f b' f' H P P'. revert P'.
  step_cases H R.
  all: intro P'; read_procs P'.
  all: try (left; split; congruence).
  all: try (rewrite P in *; discriminate).
  all: try match goal with
         | E : nth_error (procs _) _ = Some (PBus ?b0 ?f0) |- _ =>
             rewrite P in E; injection E as <- <-
         end.
  all: try (left; split; reflexivity).
  right. apply Qlt_bool_iff in Heqb1.
  destruct (py_min_step _ Heqb1) as (M1 & M2 & M3).
  repeat match goal with |- _ /\ _ => split end; try assumption;
    try reflexivity.
  eexists. simpl. split; [reflexivity|]. split; reflexivity.
Qed.

(** ** From the queue to the kerb *)

(** The passengers a bus has set down, in order. *)
Fixpoint alighted (ev : list Obs) : list Passenger :=
  match ev with
  | [] => []
  | o :: ev' =>
      alighted ev' ++
      match o with
      | ObsAlight _ p => [p]
      | _ => []
      end
  end.

(** The same passenger after line 103, and after line 93. *)
Definition boarded_as (p0 p : Passenger) : Prop :=
  exists t, p = set_board_time t p0.
Definition alighted_as (q a : Passenger) : Prop :=
  exists t, a = set_alight_time t q.

Lemma alighted_app a b : alighted (a ++ b) = alighted b ++ alighted a.
Proof.
  induction a as [|o a IH]; simpl; [now rewrite app_nil_r|].
  now rewrite IH, app_assoc.
Qed.

Lemma alighted_alights n l : alighted (rev (map (ObsAlight n) l)) = l.
Proof.
  induction l as [|p l IH]; simpl; [reflexivity|].
  rewrite alighted_app, IH. reflexivity.
Qed.

Lemma boardings_past_alights n l ev :
  boardings (rev (map (ObsAlight n) l) ++ ev) = boardings ev.
Proof. now rewrite boardings_app, boardings_alights, app_nil_r. Qed.

Lemma filter_split_perm {A} (g : A -> bool) l :
  Permutation l (filter g l ++ filter (fun x => negb (g x)) l).
Proof.
  induction l as [|x l IH]; simpl; [constructor|].
  destruct (g x); simpl.
  - now constructor.
  - now apply Permutation_cons_app.
Qed.

Lemma Forall2_snoc {A B} (R0 : A -> B -> Prop) l l' x y :
  Forall2 R0 l l' -> R0 x y -> Forall2 R0 (l ++ [x]) (l' ++ [y]).
Proof. intros F H. apply Forall2_app; [exact F|]. now repeat constructor. Qed.

(** Lines 91-94 on passengers with distinct ids: who leaves and who
    stays. *)
Lemma alight_ride t (here : Passenger -> bool) onb done rest :
  NoDup (map pass_id onb) ->
  alight_loop t (filter here onb) onb = Some (done, rest) ->
  Permutation onb (filter here onb ++ rest) /\
  Forall2 alighted_as (filter here onb) done.
Proof.
  intros N H. pose proof (alight_loop_exact_from t here onb [] N) as E.
  simpl in E. rewrite E in H. injection H as <- <-.
  split; [apply filter_split_perm|].
  generalize (filter here onb) as l. intro l.
  induction l as [|x l IH]; simpl; constructor; [now exists t|exact IH].
Qed.

(** The history of a bus and its passengers: those taken are those that
    boarded, the one being handed over aside; those that boarded are
    those on board and those set down. *)
Definition ride_frame (ev : list Obs) (w : Q -> Prop) (b : Bus) (f : BusFrame)
  : Prop :=
  match bus_pc f with
  | L86 => True
  | _ =>
      exists older pend gone,
        taken ev = older ++ pend /\
        match bus_pc f with
        | L102 => exists p, pend = [p]
        | _ => pend = []
        end /\
        Forall2 boarded_as older (boardings ev) /\
        Permutation (boardings ev) (gone ++ onboard b) /\
        Forall2 alighted_as gone (alighted ev)
  end.

Lemma ride_self_step s s' i b f :
  NoDup (Dict.keys (ARRIVAL_RATES cfg)) ->
  Reachable s -> active_process s = Some i ->
  nth_error (procs s) i = Some (PBus b f) ->
  step s = Running s' ->
  True ->
  ride_frame (events_of i (trace s)) (wake_time s i) b f ->
  True /\
  forall b' f', nth_error (procs s') i = Some (PBus b' f') ->
                ride_frame (events_of i (trace s')) (wake_time s' i) b' f'.
Proof.
  intros ND R A P H _ IL.
  pose proof (Reachable_transit_inv s ND R) as TI.
  pose proof (Reachable_unused s R i b f P) as U.
  pose proof (Reachable_route s R) as [_ RF]. specialize (RF i b f P).
  pose proof (onboard_taken s i b f ND R P) as OT.
  assert (NB : NoDup (map pass_id (onboard b))).
  { eapply subseq_NoDup; [exact OT|].
    eapply subseq_NoDup; [|exact (tr_nodup _ TI)].
    apply subseq_map, taken_events_subseq. }
  step_cases H R.
  all: try congruence.
  all: assert (n = i) by congruence; subst n.
  all: try (rewrite P in *; discriminate).
  all: own_proc P.
  all: own_history.
  all: (split; [|intros b' f' P'; own_frame P P'; unfold ride_frame; simpl]).
  all: try exact Logic.I.
  all: unfold ride_frame in IL.
  all: repeat match goal with
         | E : bus_pc _ = _ |- _ => rewrite E in *
         end.
  all: rewrite ?taken_past_alights, ?boardings_past_alights, ?alighted_app,
         ?alighted_alights; simpl; rewrite ?app_nil_r.
  all: try match goal with
         | E : L86 = L86 |- _ => idtac
         | _ => destruct IL as (older & pend & gone & T & Pd & FB & PM & FA)
         end.
  all: try solve [exists older, pend, gone; repeat split; assumption].
  - (* the bus has waited for its start offset *)
    destruct (U Heqb0) as (U0 & _). unfold route_frame in RF.
    rewrite Heqb0 in RF. destruct RF as [_ RF]. rewrite RF, U0.
    exists [], [], []. simpl. repeat split; constructor.
  - destruct (alight_ride _ _ _ _ _ NB Heqo3) as [PA FA'].
    inversion FA' as [E1 E2|]. rewrite <- E1 in PA. simpl in PA.
    exists older, pend, gone. repeat split; try assumption.
    rewrite PM. now apply Permutation_app_head.
  - destruct (alight_ride _ _ _ _ _ NB Heqo3) as [PA FA'].
    exists older, pend,
      (gone ++ filter (fun p => String.eqb (destination p) (name s1))
                 (onboard b)).
    repeat split; try assumption.
    + rewrite PM, <- app_assoc. now apply Permutation_app_head.
    + rewrite <- app_assoc. simpl. now apply Forall2_app.
  - exists older, [p0], gone. subst pend. rewrite app_nil_r in T.
    rewrite T. repeat split; try assumption. eauto.
  - destruct Pd as [q ->].
    destruct (tr_sent _ TI i b f Heqo P Heqb0) as (q' & Sq & Lq).
    assert (q' = q) by (eapply last_taken_last; eauto). subst q'.
    assert (p0 = q) by congruence. subst p0.
    exists (older ++ [q]), [], gone. rewrite app_nil_r.
    repeat split; try assumption.
    + apply Forall2_snoc; [exact FB|]. now exists (now s).
    + rewrite app_assoc. now apply Permutation_app_tail.
Qed.

Lemma Reachable_rides s :
  NoDup (Dict.keys (ARRIVAL_RATES cfg)) ->
  Reachable s -> local_inv (fun _ => True) ride_frame s.
Proof.
  intro ND. apply Reachable_local_inv.
  - intros ev w w' b f _ H. exact H.
  - exact Logic.I.
  - intros w b f E. unfold ride_frame. now rewrite E.
  - intros. eapply ride_self_step; eauto.
Qed.

(** X6: no passenger is lost or swapped between the queue and the kerb.
    With distinct stop names in [ARRIVAL_RATES], for every bus in every
    state of a run: the passengers the bus has taken from stop queues
    are, in order, the very passengers that have boarded it, each with
    its [board_time] set, followed, while the bus waits at line 102, by
    the one passenger that is being handed to it, which is the value its
    wake-up carries; and the passengers that have boarded it are, up to
    order, those now on board together with those it has set down, each
    of these with its [alight_time] set. *)
Theorem X6_passengers_are_conserved :
  NoDup (Dict.keys (ARRIVAL_RATES cfg)) ->
  forall s, Reachable s ->
  forall i b f, nth_error (procs s) i = Some (PBus b f) ->
  exists boarded_ones pending gone,
    taken (events_of i (trace s)) = boarded_ones ++ pending /\
    (bus_pc f <> L102 -> pending = []) /\
    (bus_pc f = L102 ->
     exists p, pending = [p] /\
       (forall e v, In e (heap s) -> callback e = Resume i v -> v = Some p) /\
       (active_process s = Some i -> sent s = Some p)) /\
    Forall2 boarded_as boarded_ones (boardings (events_of i (trace s))) /\
    Permutation (boardings (events_of i (trace s))) (gone ++ onboard b) /\
    Forall2 alighted_as gone (alighted (events_of i (trace s))).
Proof.
  intros ND s R i b f P.
  destruct (Reachable_rides s ND R) as [_ IL]. specialize (IL i b f P).
  pose proof (Reachable_transit_inv s ND R) as TI.
  unfold ride_frame in IL. destruct (bus_pc f) eqn:E.
  1: { destruct (Reachable_unused s R i b f P E) as (U0 & _).
       destruct (Reachable_route s R) as [_ RF]. specialize (RF i b f P).
       unfold route_frame in RF. rewrite E in RF. destruct RF as [_ ->].
       rewrite U0. exists [], [], []. simpl.
       repeat split; try constructor; try discriminate. }
  all: destruct IL as (older & pend & gone & T & Pd & FB & PM & FA).
  all: exists older, pend, gone.
  all: split; [exact T|]; split; [|split; [|auto]].
  all: try (intros _; exact Pd).
  all: try discriminate.
  all: try congruence.
  destruct Pd as [q ->]. exists q. split; [reflexivity|]. split.
  - intros e v He Ce.
    destruct (tr_event _ TI e i v b f He Ce P E) as (q' & -> & Lq).
    f_equal. eapply last_taken_last; eauto.
  - intro A. destruct (tr_sent _ TI i b f A P E) as (q' & -> & Lq).
    f_equal. eapply last_taken_last; eauto.
Qed.


End Simulation.

(** * Concrete runs *)

(** Deterministic oracles: every normal draw is the mean, every
    exponential draw is the scale, and [random.choice] walks through the
    indices. *)
Definition mean_gauss (draws : nat) (mu sigma : Q) : Q := mu.
Definition cyclic_below (draws n : nat) : nat := draws mod n.
Definition mean_exponential (draws : nat) (scale : Q) : Q := Qred scale.

Definition state_after (c : Config) (n : nat) : State :=
  match run_for c mean_gauss cyclic_below mean_exponential n with
  | Running s | Stopped s | Crashed _ s => s
  end.

Definition Reachable_in (c : Config) : State -> Prop :=
  Reachable c mean_gauss cyclic_below mean_exponential.

(** The source configuration after 200 transitions. *)
Definition sample_state : State := state_after source_config 200.

Lemma sample_state_running :
  run_for source_config mean_gauss cyclic_below mean_exponential 200
  = Running sample_state.
Proof. vm_compute. reflexivity. Qed.

Lemma sample_state_Reachable : Reachable_in source_config sample_state.
Proof. exact (run_for_Reachable _ _ _ _ _ _ sample_state_running). Qed.

Definition bus_view (s : State) (i : nat)
  : option (BusPc * list string * Z) :=
  match nth_error (procs s) i with
  | Some (PBus b f) => Some (bus_pc f, map pass_id (onboard b), free_space f)
  | _ => None
  end.

(** In the sample state two passengers have boarded the second bus of
    route A, one boarding time apart. *)
Example sample_state_boardings :
  bus_view sample_state 7 = Some (L134, ["A1-1"; "A1-2"]%string, 38%Z) /\
  map (fun o => match o with
                | ObsBoard _ p => option_map Qred (board_time p)
                | _ => None
                end)
      (filter (fun o => match o with ObsBoard _ _ => true | _ => false end)
         (events_of 7 (trace sample_state)))
  = [Some (151 # 20); Some (15 # 2)].
Proof. split; vm_compute; reflexivity. Qed.

Lemma C1_witness :
  (0 <= BUS_CAPACITY source_config)%Z /\
  Reachable_in source_config sample_state /\
  forall i b f, nth_error (procs sample_state) i = Some (PBus b f) ->
    capacity b = BUS_CAPACITY source_config /\
    (0 <= Z.of_nat (List.length (onboard b)) <= capacity b)%Z /\
    (bus_pc f = L102 ->
     (Z.of_nat (List.length (onboard b)) < capacity b)%Z /\
     free_space f = (capacity b - Z.of_nat (List.length (onboard b)))%Z).
Proof.
  assert (C : (0 <= BUS_CAPACITY source_config)%Z) by (cbn; lia).
  split; [exact C|]. split; [exact sample_state_Reachable|].
  exact (C1_onboard_within_capacity source_config mean_gauss cyclic_below
           mean_exponential C sample_state sample_state_Reachable).
Defined.

Lemma C2_witness :
  Reachable_in source_config sample_state /\
  (forall i p, In (ObsBoard i p) (trace sample_state) ->
     exists bt, board_time p = Some bt /\ arrival_time p <= bt) /\
  (forall i p, In (ObsAlight i p) (trace sample_state) ->
     exists bt at', board_time p = Some bt /\ alight_time p = Some at'
                    /\ arrival_time p <= bt /\ bt <= at') /\
  (forall i b f p, nth_error (procs sample_state) i = Some (PBus b f) ->
     (In p (onboard b) ->
      exists bt, board_time p = Some bt /\ arrival_time p <= bt
                 /\ bt <= now sample_state) /\
     (In p (alighting f) ->
      exists bt at', board_time p = Some bt /\ alight_time p = Some at'
                     /\ arrival_time p <= bt /\ bt <= at')).
Proof.
  split; [exact sample_state_Reachable|].
  exact (C2_timestamps_ordered source_config mean_gauss cyclic_below
           mean_exponential sample_state sample_state_Reachable).
Defined.

Lemma C4_witness :
  Reachable_in source_config sample_state /\
  forall i t newer older,
    events_of i (trace sample_state) = newer ++ ObsTravel i t :: older ->
    (dwelt_here older = 1%nat <->
     boarded_here older = 0%nat /\ alighted_here older = 0%nat) /\
    (dwelt_here older <= 1)%nat.
Proof.
  split; [exact sample_state_Reachable|].
  exact (proj1 (C4_min_dwell_iff_idle source_config mean_gauss cyclic_below
                  mean_exponential sample_state sample_state_Reachable)).
Defined.

Lemma C6_witness :
  Reachable_in source_config sample_state /\
  forall i p newer older,
    events_of i (trace sample_state) = newer ++ ObsBoard i p :: older ->
    exists bt,
      board_time p = Some bt /\
      match burst_last older with
      | None => exists t0, burst_start older = Some t0 /\ bt == t0
      | Some q =>
          exists bq, board_time q = Some bq /\
                     bt == bq + BOARDING_TIME source_config /\
                     0 <= BOARDING_TIME source_config
      end.
Proof.
  split; [exact sample_state_Reachable|].
  exact (proj1 (C6_boarding_one_at_a_time source_config mean_gauss cyclic_below
                  mean_exponential sample_state sample_state_Reachable)).
Defined.

Lemma C8_witness :
  Reachable_in source_config sample_state /\
  forall k series i t q,
    In k (Dict.keys (stops_map sample_state)) ->
    Dict.get k (queue_time_series (metrics sample_state)) = Some series ->
    nth_error series i = Some (t, q) -> t == Qnat i.
Proof.
  split; [exact sample_state_Reachable|].
  exact (proj1 (C8_samples_start_at_zero source_config mean_gauss cyclic_below
                  mean_exponential sample_state sample_state_Reachable)).
Defined.

Lemma C10_witness :
  Reachable_in source_config sample_state /\
  forall k st, Dict.get k (stops_map sample_state) = Some st ->
               get_queue (queue st) = [].
Proof.
  split; [exact sample_state_Reachable|].
  exact (proj1 (C10_get_never_blocks source_config mean_gauss cyclic_below
                  mean_exponential sample_state sample_state_Reachable)).
Defined.

(** ** The destination of a new passenger *)

Lemma map_nth_error_seq {A B} (g : A -> B) (d : B) (l : list A) :
  map (fun r => match nth_error l r with Some x => g x | None => d end)
    (seq 0 (List.length l)) = map g l.
Proof.
  induction l as [|x l IH]; simpl; [reflexivity|].
  f_equal. rewrite <- seq_shift, map_map. exact IH.
Qed.

(** As the index picked by [random.choice] goes through its equally
    likely values, the destination goes through the stops after the
    generating stop, each position once. *)
Lemma choice_enumerates_downstream stop_name route i :
  list_index stop_name route = Some i ->
  (i + 1 < List.length route)%nat ->
  map (fun r => choose_destination (fun _ _ => r) 0 stop_name route)
    (seq 0 (List.length (skipn (i + 1) route)))
  = map (fun dest => Ok (dest, 1%nat)) (skipn (i + 1) route).
Proof.
  intros E L. unfold choose_destination. rewrite E.
  apply Nat.ltb_lt in L. rewrite L.
  apply (map_nth_error_seq (fun dest => Ok (dest, 1%nat)) (Err IndexError)).
Qed.

(** C7: a passenger created at the stop named [stop_name], found at index
    [i] of the route, is destined to one of the stops after index [i] when
    there is one: the stop that [random.choice] picks in exactly
    [route[i+1:]], by an index below its length, and every position of
    that slice is picked by exactly one value of the index, so a uniform
    index gives a uniform choice.  At the last stop of the route the
    destination is the stop itself.  The origin is the name of the
    generating stop and the arrival time is the current time. *)
Theorem C7_destination_downstream :
  (forall below draws stop_name route i,
     list_index stop_name route = Some i ->
     ((i + 1 < List.length route)%nat ->
      (below draws (List.length (skipn (i + 1) route))
       < List.length (skipn (i + 1) route))%nat ->
      exists dest,
        choose_destination below draws stop_name route = Ok (dest, 1%nat) /\
        nth_error (skipn (i + 1) route)
          (below draws (List.length (skipn (i + 1) route))) = Some dest /\
        In dest (skipn (i + 1) route)) /\
     (~ (i + 1 < List.length route)%nat ->
      S i = List.length route /\
      choose_destination below draws stop_name route = Ok (stop_name, 0%nat))) /\
  (forall stop_name route i,
     list_index stop_name route = Some i ->
     (i + 1 < List.length route)%nat ->
     map (fun r => choose_destination (fun _ _ => r) 0 stop_name route)
       (seq 0 (List.length (skipn (i + 1) route)))
     = map (fun dest => Ok (dest, 1%nat)) (skipn (i + 1) route)) /\
  (forall cfg gauss below expo s me g st dest used,
     Reachable cfg gauss below expo s ->
     active_process s = Some me ->
     nth_error (procs s) me = Some (PGen g) ->
     gen_pc g = G150 ->
     Dict.get (gen_stop g) (stops_map s) = Some st ->
     choose_destination below (rnd s) (name st) (route_stops g) = Ok (dest, used) ->
     exists s' p,
       step cfg gauss below expo s = Running s' /\
       queued (gen_stop g) s' = queued (gen_stop g) s ++ [p] /\
       origin p = name st /\ name st = gen_stop g /\
       destination p = dest /\ arrival_time p = now s /\
       board_time p = None /\ alight_time p = None).
Proof.
  split; [|split].
  - intros below. exact (proj1 (generated_passenger_destination
                                  source_config mean_gauss below mean_exponential)).
  - exact choice_enumerates_downstream.
  - intros cfg gauss below expo.
    exact (proj2 (generated_passenger_destination cfg gauss below expo)).
Qed.

(** On route A of the source, from A1 the destinations are A2 and A3; at
    A3, the last stop, the destination is A3 itself. *)
Example destinations_on_route_A :
  map (fun r => choose_destination (fun _ _ => r) 0 "A1" ["A1"; "A2"; "A3"]%string)
    [0; 1]%nat
  = [Ok ("A2"%string, 1%nat); Ok ("A3"%string, 1%nat)] /\
  choose_destination cyclic_below 0 "A3" ["A1"; "A2"; "A3"]%string
  = Ok ("A3"%string, 0%nat).
Proof. split; reflexivity. Qed.

(** ** Scenario: three passengers queued, two free seats *)

(** One route [X; Y] with one bus of capacity 2 and arrivals at [X] only,
    every three minutes.  The bus is away for 10.2 minutes, so three
    passengers are queued when it is back at [X]. *)
Definition queue_scenario : Config := {|
  SIM_TIME := 60;
  BUS_CAPACITY := 2;
  BOARDING_TIME := 3 # 60;
  ALIGHTING_TIME := 2 # 60;
  MIN_DWELL := 1 # 10;
  ROUTES :=
    [("R"%string, {| stops := ["X"; "Y"]%string; headway := 10; num_buses := 1;
                     travel_mean := 5; travel_sd := 1 |})];
  ARRIVAL_RATES := [("X"%string, 1 # 3)]
|}.

Definition queue_ids (k : string) (s : State) : list string :=
  map pass_id (queued k s).

(** C3: a stop queue is first in, first out.  In every state of every run
    the passengers put into the queue of a stop are, in order, those
    already taken from it followed by those still queued: passengers
    leave in the order they came and none is passed over.  In the
    scenario the bus (process 1) comes back to [X] with two free seats
    while X-1, X-2 and X-3 are queued; it takes X-1, then X-2, and leaves
    with both on board while X-3 stays queued. *)
Theorem C3_stop_queue_is_fifo :
  (forall cfg gauss below expo s,
     Reachable cfg gauss below expo s ->
     forall k, puts k (trace s) = takes k (trace s) ++ queued k s) /\
  (run_for queue_scenario mean_gauss cyclic_below mean_exponential 98
   = Running (state_after queue_scenario 98) /\
   (* the bus is at the test of its boarding loop *)
   queue_ids "X" (state_after queue_scenario 88) = ["X-1"; "X-2"; "X-3"]%string /\
   bus_view (state_after queue_scenario 88) 1 = Some (L101, [], 2%Z) /\
   (* first get *)
   queue_ids "X" (state_after queue_scenario 89) = ["X-2"; "X-3"]%string /\
   bus_view (state_after queue_scenario 91) 1 = Some (L101, ["X-1"]%string, 1%Z) /\
   (* second get *)
   queue_ids "X" (state_after queue_scenario 93) = ["X-3"]%string /\
   bus_view (state_after queue_scenario 95) 1
   = Some (L101, ["X-1"; "X-2"]%string, 0%Z) /\
   (* the loop is left and the bus travels on *)
   bus_view (state_after queue_scenario 98) 1
   = Some (L125, ["X-1"; "X-2"]%string, 0%Z) /\
   queue_ids "X" (state_after queue_scenario 98) = ["X-3"]%string /\
   map pass_id (takes "X" (trace (state_after queue_scenario 98)))
   = ["X-1"; "X-2"]%string /\
   map pass_id (puts "X" (trace (state_after queue_scenario 98)))
   = ["X-1"; "X-2"; "X-3"]%string).
Proof.
  split.
  - intros cfg gauss below expo s R k. symmetry.
    exact (Reachable_fifo_inv cfg gauss below expo s R k).
  - repeat match goal with |- _ /\ _ => split end; vm_compute; reflexivity.
Qed.

(** What an observable action is, for display. *)
Definition tag (o : Obs) : string :=
  match o with
  | ObsPut _ _ => "put"
  | ObsTake _ _ _ => "take"
  | ObsVisit _ k => "visit " ++ k
  | ObsAlight _ _ => "alight"
  | ObsBoardStart _ _ => "board loop"
  | ObsBoard _ p => "board " ++ pass_id p
  | ObsDwell _ => "dwell"
  | ObsTravel _ _ => "travel"
  end.

(** The history of the bus in the scenario: two idle visits, each with
    its minimum dwell, then the visit in which two passengers board and
    no dwell is taken. *)
Example scenario_history_of_the_bus :
  rev (map tag (events_of 1 (trace (state_after queue_scenario 99))))
  = ["visit X"; "board loop"; "dwell"; "travel";
     "visit Y"; "board loop"; "dwell"; "travel";
     "visit X"; "board loop"; "take"; "board X-1"; "take"; "board X-2";
     "travel"]%string.
Proof. vm_compute. reflexivity. Qed.

(** The first get of that visit is served in the transition that makes
    it: the event handing X-1 to the bus is in the heap, at the time of
    the request (10.2), and X-1 has left the queue. *)
Example scenario_get_is_served :
  map (fun e => (Qred (at_time e),
                 match callback e with
                 | Resume i (Some p) => Some (i, pass_id p)
                 | _ => None
                 end))
    (firstn 1 (heap (state_after queue_scenario 89)))
  = [(51 # 5, Some (1%nat, "X-1"%string))] /\
  Qred (now (state_after queue_scenario 88)) = 51 # 5 /\
  queue_ids "X" (state_after queue_scenario 89) = ["X-2"; "X-3"]%string.
Proof.
  repeat match goal with |- _ /\ _ => split end; vm_compute; reflexivity.
Qed.

(** ** The further properties at the source configuration *)

Lemma source_routes_distinct : NoDup (Dict.keys (ROUTES source_config)).
Proof.
  repeat constructor; simpl; intuition discriminate.
Defined.

Lemma source_rates_distinct : NoDup (Dict.keys (ARRIVAL_RATES source_config)).
Proof.
  repeat constructor; simpl; intuition discriminate.
Defined.

Lemma source_config_valid : valid_config source_config.
Proof.
  constructor; simpl; try (unfold Qle; simpl; lia).
  - intros kv [<-|[<-|[]]]; simpl; (split; [unfold Qle; simpl; lia|discriminate]).
  - intros kv H.
    repeat (destruct H as [<-|H]; [reflexivity|]). destruct H.
Defined.

Lemma sample_draws_valid : valid_draws cyclic_below mean_exponential.
Proof.
  split.
  - intros n scale H. unfold mean_exponential. now rewrite Qred_correct.
  - intros n len H. unfold cyclic_below. apply Nat.mod_upper_bound. lia.
Defined.

Lemma X2_witness :
  Reachable_in source_config sample_state /\
  List.length (waiting_times (metrics sample_state))
  = total_passengers (metrics sample_state) /\
  list_sum (Dict.values (served_per_stop (metrics sample_state)))
  = total_passengers (metrics sample_state).
Proof.
  split; [exact sample_state_Reachable|].
  destruct (X2_boarding_records_agree source_config mean_gauss cyclic_below
              mean_exponential sample_state sample_state_Reachable)
    as (H1 & _ & _ & _ & _ & H2).
  split; [exact H1|exact H2].
Defined.

Lemma X3_witness :
  Reachable_in source_config sample_state /\
  forall k st, Dict.get k (stops_map sample_state) = Some st ->
    StronglySorted (fun p q => arrival_time p <= arrival_time q)
      (items (queue st)).
Proof.
  split; [exact sample_state_Reachable|]. intros k st G.
  exact (proj1 (proj2 (X3_queue_in_arrival_order source_config mean_gauss
                         cyclic_below mean_exponential sample_state
                         sample_state_Reachable k st G))).
Defined.

Lemma X4_witness :
  Reachable_in source_config sample_state /\
  0 <= now sample_state /\ now sample_state < SIM_TIME source_config.
Proof.
  split; [exact sample_state_Reachable|].
  destruct (X4_run_ends_at_the_horizon source_config mean_gauss cyclic_below
              mean_exponential sample_state sample_state_Reachable)
    as (H1 & H2 & _).
  split; [exact H1|exact H2].
Defined.

Lemma X5_witness :
  Reachable_in source_config sample_state /\
  forall i b f, nth_error (procs sample_state) i = Some (PBus b f) ->
    forall j k, nth_error (visits (events_of i (trace sample_state))) j = Some k ->
      nth_error (bus_stops b) (j mod List.length (bus_stops b)) = Some k.
Proof.
  split; [exact sample_state_Reachable|]. intros i b f P.
  exact (proj1 (X5_round_trips source_config mean_gauss cyclic_below
                  mean_exponential sample_state sample_state_Reachable i b f P)).
Defined.

Lemma X8_witness :
  Reachable_in source_config sample_state /\
  forall i newer older p,
    events_of i (trace sample_state) = newer ++ ObsBoard i p :: older ->
    called_at older = Some (origin p).
Proof.
  split; [exact sample_state_Reachable|]. intros i newer older.
  exact (proj1 (proj2 (X8_board_at_origin_alight_at_destination source_config
                         mean_gauss cyclic_below mean_exponential sample_state
                         sample_state_Reachable i newer older))).
Defined.

Lemma X9_witness :
  NoDup (Dict.keys (ROUTES source_config)) /\
  Reachable_in source_config sample_state /\
  forall i b f, nth_error (procs sample_state) i = Some (PBus b f) ->
    route_column (bus_id b) = route_column (route_name b) /\
    bus_stops b = stops (route_info b).
Proof.
  split; [exact source_routes_distinct|].
  split; [exact sample_state_Reachable|]. intros i b f P.
  destruct (X9_buses_of_a_run source_config mean_gauss cyclic_below
              mean_exponential source_routes_distinct sample_state
              sample_state_Reachable i b f P)
    as (_ & _ & _ & H1 & _ & H2 & _).
  split; [exact H2|exact H1].
Defined.

Lemma X10_witness :
  NoDup (Dict.keys (ROUTES source_config)) /\
  Reachable_in source_config sample_state /\
  forall i b f, nth_error (procs sample_state) i = Some (PBus b f) ->
    Dict.get (bus_id b) (bus_stats (metrics sample_state))
    = Some {| stat_active_minutes := active_minutes b;
              stat_occupied_minutes := occupied_minutes b;
              stat_trips_completed := trips_completed b |}.
Proof.
  split; [exact source_routes_distinct|].
  split; [exact sample_state_Reachable|].
  exact (X10_bus_stats_mirror_the_bus source_config mean_gauss cyclic_below
           mean_exponential source_routes_distinct sample_state
           sample_state_Reachable).
Defined.

Lemma X11_witness :
  NoDup (Dict.keys (ARRIVAL_RATES source_config)) /\
  Reachable_in source_config sample_state /\
  NoDup (map pass_id (generated (trace sample_state))).
Proof.
  split; [exact source_rates_distinct|].
  split; [exact sample_state_Reachable|].
  exact (proj2 (proj2 (X11_passenger_ids_are_unique source_config mean_gauss
                         cyclic_below mean_exponential source_rates_distinct
                         sample_state sample_state_Reachable))).
Defined.

Lemma X12_witness :
  valid_config source_config /\
  valid_draws cyclic_below mean_exponential /\
  Reachable_in source_config sample_state /\
  (forall i, nth_error (procs sample_state) i <> Some PDead) /\
  (forall err s',
     step source_config mean_gauss cyclic_below mean_exponential sample_state
     <> Crashed err s').
Proof.
  split; [exact source_config_valid|]. split; [exact sample_draws_valid|].
  split; [exact sample_state_Reachable|].
  destruct (X12_a_sound_configuration_never_raises source_config mean_gauss
              cyclic_below mean_exponential source_config_valid
              sample_draws_valid sample_state sample_state_Reachable)
    as (H1 & _ & H2 & _).
  split; [exact H1|exact H2].
Defined.

(** Three passengers on board, two of them bound for A2. *)
Definition three_on_board : list Passenger :=
  map (fun kd => {| pass_id := fst kd; arrival_time := 0; origin := "A1";
                    destination := snd kd; board_time := Some 1;
                    alight_time := None |})
    [("A1-1", "A2"); ("A1-2", "A3"); ("A1-3", "A2")]%string.

Lemma X13_witness :
  NoDup (map pass_id three_on_board) /\
  exists done rest,
    alight_loop 7 (filter (fun p => String.eqb (destination p) "A2") three_on_board)
      three_on_board = Some (done, rest) /\
    map pass_id done = ["A1-1"; "A1-3"]%string /\
    map pass_id rest = ["A1-2"]%string.
Proof.
  assert (ND : NoDup (map pass_id three_on_board))
    by (repeat constructor; simpl; intuition discriminate).
  split; [exact ND|].
  eexists _, _. split.
  - exact (proj1 (X13_alighting_is_exact 7 "A2" three_on_board ND)).
  - split; reflexivity.
Defined.

Lemma X14_witness :
  Reachable_in source_config sample_state /\
  forall w, In w (waiting_times (metrics sample_state)) -> 0 <= w.
Proof.
  split; [exact sample_state_Reachable|].
  exact (proj1 (X14_waiting_time_summary source_config mean_gauss cyclic_below
                  mean_exponential sample_state sample_state_Reachable)).
Defined.


Lemma X15_witness :
  Reachable_in source_config sample_state /\
  forall t stop q,
    In (t, stop, q) (queue_data (queue_time_series (metrics sample_state))) ->
    In stop (Dict.keys (stops_map sample_state)).
Proof.
  split; [exact sample_state_Reachable|].
  exact (proj1 (X15_queue_table_rows source_config mean_gauss cyclic_below
                  mean_exponential sample_state sample_state_Reachable)).
Defined.

Lemma X16_witness :
  NoDup (Dict.keys (ARRIVAL_RATES source_config)) /\
  Reachable_in source_config sample_state /\
  NoDup (map pass_id (taken (trace sample_state))).
Proof.
  split; [exact source_rates_distinct|].
  split; [exact sample_state_Reachable|].
  exact (proj1 (X16_nobody_rides_twice source_config mean_gauss cyclic_below
                  mean_exponential source_rates_distinct sample_state
                  sample_state_Reachable)).
Defined.

Lemma X17_witness :
  Reachable_in source_config sample_state /\
  List.length (procs sample_state) = List.length (started source_config).
Proof.
  split; [exact sample_state_Reachable|].
  exact (proj1 (X17_no_process_is_lost source_config mean_gauss cyclic_below
                  mean_exponential sample_state sample_state_Reachable)).
Defined.

(** A run of two and a half minutes, from its first transition to its
    last. *)
Definition short_run : Config := {|
  SIM_TIME := 5 # 2;
  BUS_CAPACITY := BUS_CAPACITY queue_scenario;
  BOARDING_TIME := BOARDING_TIME queue_scenario;
  ALIGHTING_TIME := ALIGHTING_TIME queue_scenario;
  MIN_DWELL := MIN_DWELL queue_scenario;
  ROUTES := ROUTES queue_scenario;
  ARRIVAL_RATES := ARRIVAL_RATES queue_scenario
|}.

Lemma short_run_ends :
  run_for short_run mean_gauss cyclic_below mean_exponential 25
  = Running (state_after short_run 25) /\
  step short_run mean_gauss cyclic_below mean_exponential
    (state_after short_run 25)
  = Stopped (state_after short_run 26) /\
  map (fun kv => (fst kv, map (fun tq => (Qred (fst tq), snd tq)) (snd kv)))
    (queue_time_series (metrics (state_after short_run 26)))
  = [("X"%string, [(0, 0%nat); (1, 0%nat); (2, 0%nat)]);
     ("Y"%string, [(0, 0%nat); (1, 0%nat); (2, 0%nat)])].
Proof.
  repeat match goal with |- _ /\ _ => split end; vm_compute; reflexivity.
Qed.

Lemma X18_witness :
  Reachable_in short_run (state_after short_run 25) /\
  step short_run mean_gauss cyclic_below mean_exponential
    (state_after short_run 25)
  = Stopped (state_after short_run 26) /\
  exists n,
    Qnat n - 1 < SIM_TIME short_run /\ SIM_TIME short_run <= Qnat n /\
    forall k, In k (Dict.keys (stops_map (state_after short_run 26))) ->
      Forall2 Qeq (sample_times k (state_after short_run 26)) (ticks n) /\
      exists series,
        Dict.get k (queue_time_series (metrics (state_after short_run 26)))
        = Some series /\
        List.length series = n.
Proof.
  pose proof (run_for_Reachable _ _ _ _ _ _ (proj1 short_run_ends)) as R.
  split; [exact R|]. split; [exact (proj1 (proj2 short_run_ends))|].
  exact (X18_samples_of_a_whole_run short_run mean_gauss cyclic_below
           mean_exponential _ _ R (proj1 (proj2 short_run_ends))).
Defined.

Lemma X19_witness :
  NoDup (Dict.keys (ARRIVAL_RATES source_config)) /\
  Reachable_in source_config sample_state /\
  forall k,
    (forall r, In r (Dict.values (ROUTES source_config)) -> ~ In k (stops r)) ->
    forall i g, nth_error (procs sample_state) i = Some (PGen g) ->
                gen_stop g <> k.
Proof.
  split; [exact source_rates_distinct|].
  split; [exact sample_state_Reachable|].
  exact (proj2 (X19_generators_of_a_run source_config mean_gauss cyclic_below
                  mean_exponential source_rates_distinct sample_state
                  sample_state_Reachable)).
Defined.

Lemma X1_witness :
  Reachable_in source_config sample_state /\
  (waiting_times (metrics sample_state) <> [] ->
   (0 < BUS_CAPACITY source_config)%Z) /\
  forall e, statistics source_config (metrics sample_state) = Err e ->
            e = ValueError /\ waiting_times (metrics sample_state) = [].
Proof.
  split; [exact sample_state_Reachable|].
  destruct (X1_statistics_never_divide_by_zero source_config mean_gauss
              cyclic_below mean_exponential sample_state
              sample_state_Reachable)
    as (_ & H1 & H2 & _).
  split; [exact H1|exact H2].
Defined.

Lemma X6_witness :
  NoDup (Dict.keys (ARRIVAL_RATES source_config)) /\
  Reachable_in source_config sample_state /\
  forall i b f, nth_error (procs sample_state) i = Some (PBus b f) ->
  exists boarded_ones pending gone,
    taken (events_of i (trace sample_state)) = boarded_ones ++ pending /\
    (bus_pc f <> L102 -> pending = []) /\
    (bus_pc f = L102 ->
     exists p, pending = [p] /\
       (forall e v, In e (heap sample_state) -> callback e = Resume i v ->
                    v = Some p) /\
       (active_process sample_state = Some i -> sent sample_state = Some p)) /\
    Forall2 boarded_as boarded_ones
      (boardings (events_of i (trace sample_state))) /\
    Permutation (boardings (events_of i (trace sample_state)))
      (gone ++ onboard b) /\
    Forall2 alighted_as gone (alighted (events_of i (trace sample_state))).
Proof.
  split; [exact source_rates_distinct|].
  split; [exact sample_state_Reachable|].
  exact (X6_passengers_are_conserved source_config mean_gauss cyclic_below
           mean_exponential source_rates_distinct sample_state
           sample_state_Reachable).
Defined.

Lemma X7_witness :
  Reachable_in source_config sample_state /\
  forall i b f, nth_error (procs sample_state) i = Some (PBus b f) ->
    0 <= active_minutes b /\ 0 <= occupied_minutes b /\ 0 <= leg_left f.
Proof.
  split; [exact sample_state_Reachable|].
  exact (proj1 (X7_only_travel_counts source_config mean_gauss cyclic_below
                  mean_exponential sample_state sample_state_Reachable)).
Defined.


(** ** The claims that the code does not meet *)

Definition first_sample_time (k : string) (s : State) : option Q :=
  match Dict.get k (queue_time_series (metrics s)) with
  | Some ((t, _) :: _) => Some t
  | _ => None
  end.

(** C8 as stated fails: in the run of the source configuration the first
    sample of stop A1 is taken at time 0, not at time 1. *)
Lemma C8_first_sample_is_at_time_zero :
  run_for source_config mean_gauss cyclic_below mean_exponential 200
  = Running sample_state /\
  exists t, first_sample_time "A1" sample_state = Some t /\
            t == 0 /\ ~ t == 1.
Proof.
  split; [exact sample_state_running|].
  exists 0. split; [vm_compute; reflexivity|].
  split; [reflexivity|]. intro H. discriminate H.
Qed.

(** The clock of the source is a binary64 float.  [Binary64] has the
    part of the boarding loop that moves the clock, with the additions
    of the source in that arithmetic. *)
Module Binary64.
Import Floats.

(** [Environment.schedule]: the time of an event is [self._now + delay]. *)
Definition event_time (now delay : float) : float := (now + delay)%float.

(** Lines 101-118 for [k] queued passengers and as many free seats, from
    the time [now] at which the loop begins: the get of line 102 succeeds
    at once (a delay of 0), [board_time] is the time at which the bus
    goes on, and the timeout of line 118 ends [boarding_time] later. *)
Fixpoint burst_board_times (boarding_time : float) (k : nat) (now : float)
  : list float :=
  match k with
  | O => []
  | S k' =>
      let board_time := event_time now 0 in
      board_time
        :: burst_board_times boarding_time k' (event_time board_time boarding_time)
  end.

(** [t + (j - 1) * BOARDING_TIME] for the j-th passenger, [j = n + 1]. *)
Definition closed_form (boarding_time t : float) (n : nat) : float :=
  (t + PrimFloat.of_uint63 (Uint63.of_nat n) * boarding_time)%float.

(** [BOARDING_TIME = 3 / 60] (line 22), and the time 10.2. *)
Definition boarding_time : float := (3 / 60)%float.
Definition ten_point_two : float := (102 / 10)%float.

End Binary64.

(** C6 as stated fails in the arithmetic of the source: with
    [BOARDING_TIME = 3 / 60] and a boarding loop that begins at 10.2, the
    board times are 10.2, 10.25 and 10.3, each the one before plus
    [BOARDING_TIME], and the third one is not [10.2 + 2 * BOARDING_TIME],
    which is the float below it (10.299999999999999). *)
Lemma C6_closed_form_fails_in_floats :
  exists b1 b2 b3,
    Binary64.burst_board_times Binary64.boarding_time 3 Binary64.ten_point_two
    = [b1; b2; b3] /\
    b1 = Binary64.ten_point_two /\
    b2 = Binary64.event_time b1 Binary64.boarding_time /\
    b3 = Binary64.event_time b2 Binary64.boarding_time /\
    PrimFloat.eqb b3
      (Binary64.closed_form Binary64.boarding_time Binary64.ten_point_two 2)
    = false /\
    PrimFloat.ltb
      (Binary64.closed_form Binary64.boarding_time Binary64.ten_point_two 2) b3
    = true.
Proof.
  eexists _, _, _. split; [vm_compute; reflexivity|].
  repeat match goal with |- _ /\ _ => split end; vm_compute; reflexivity.
Qed.



(** The source configuration with a negative boarding time. *)
Definition negative_boarding : Config := {|
  SIM_TIME := SIM_TIME source_config;
  BUS_CAPACITY := BUS_CAPACITY source_config;
  BOARDING_TIME := - (3 # 60);
  ALIGHTING_TIME := ALIGHTING_TIME source_config;
  MIN_DWELL := MIN_DWELL source_config;
  ROUTES := ROUTES source_config;
  ARRIVAL_RATES := ARRIVAL_RATES source_config
|}.

(** A negative delay is met only when a process asks for it: the setup
    goes through, the run is under way for 118 transitions, and the
    [ValueError] of the first boarding, at time 5.1, ends it. *)
Example negative_boarding_time_fails_during_the_run :
  run_simulation negative_boarding = Ok (state_after negative_boarding 0) /\
  run_for negative_boarding mean_gauss cyclic_below mean_exponential 118
  = Running (state_after negative_boarding 118) /\
  run_for negative_boarding mean_gauss cyclic_below mean_exponential 119
  = Crashed ValueError (state_after negative_boarding 119) /\
  Qred (now (state_after negative_boarding 119)) = 51 # 10.
Proof.
  repeat match goal with |- _ /\ _ => split end; vm_compute; reflexivity.
Qed.
